(** * The filter expression system of the mnemo client

    A shallow embedding of [src/client/filters.ts] and
    [src/client/filters.types.ts]: the [FilterBuilder] and [FieldFilter]
    classes, the validator and the stand-alone combinators, together with
    the part of the JavaScript platform they rely on (numbers, property
    access, mutable arrays held by reference, [JSON.stringify] and
    [JSON.parse]). *)

From Stdlib Require Import ZArith String Ascii List Bool Lia DecimalNat.
From stdpp Require Import base option list.
Import ListNotations.

Set Warnings "-register-all".

Local Open Scope string_scope.
Local Open Scope list_scope.

(** ** JavaScript numbers

    A finite number is identified with the decimal literal that
    [Number::toString] prints for it: a sign, the significant digits
    [ds] (no leading and no trailing zero) and the position [pt] of the
    decimal point, so that the value is [0.d1 d2 ... dk * 10 ^ pt].  Zero is
    the empty digit list; [-0] and [0] are not told apart ([===] does not
    either).  The three non-finite numbers are constructors of their own. *)

Inductive digit := D0 | D1 | D2 | D3 | D4 | D5 | D6 | D7 | D8 | D9.

Definition digit_val (d : digit) : Z :=
  match d with
  | D0 => 0 | D1 => 1 | D2 => 2 | D3 => 3 | D4 => 4
  | D5 => 5 | D6 => 6 | D7 => 7 | D8 => 8 | D9 => 9
  end%Z.

Definition digits_val (ds : list digit) : Z :=
  fold_left (fun acc d => 10 * acc + digit_val d)%Z ds 0%Z.

Inductive num :=
| Fin (neg : bool) (ds : list digit) (pt : Z)
| NaN
| PInf
| NInf.

Definition is_D0 (d : digit) : bool :=
  match d with D0 => true | _ => false end.

(** The representation invariant of a finite number. *)
Definition canonical_digits (ds : list digit) : bool :=
  match ds with
  | [] => true
  | d :: _ => negb (is_D0 d) && negb (is_D0 (List.last ds D1))
  end.

Definition num_wf (n : num) : bool :=
  match n with
  | Fin neg [] pt => negb neg && (pt =? 0)%Z
  | Fin _ ds _ => canonical_digits ds
  | _ => true
  end.

(** [isFinite] on a value already known to be a number. *)
Definition isFinite (n : num) : bool :=
  match n with Fin _ _ _ => true | _ => false end.

(** The signed integer [m] and the exponent [e] with value [m * 10 ^ e]. *)
Definition fin_mantissa (neg : bool) (ds : list digit) : Z :=
  if neg then (- digits_val ds)%Z else digits_val ds.

Definition fin_exponent (ds : list digit) (pt : Z) : Z :=
  (pt - Z.of_nat (length ds))%Z.

Definition fin_compare (na : bool) (da : list digit) (pa : Z)
                       (nb : bool) (db : list digit) (pb : Z) : comparison :=
  let ea := fin_exponent da pa in
  let eb := fin_exponent db pb in
  let e0 := Z.min ea eb in
  (fin_mantissa na da * 10 ^ (ea - e0) ?= fin_mantissa nb db * 10 ^ (eb - e0))%Z.

(** Comparison of two numbers; [None] when either is [NaN], for which every
    relational operator answers [false]. *)
Definition num_compare (a b : num) : option comparison :=
  match a, b with
  | NaN, _ | _, NaN => None
  | PInf, PInf => Some Eq
  | PInf, _ => Some Gt
  | _, PInf => Some Lt
  | NInf, NInf => Some Eq
  | NInf, _ => Some Lt
  | _, NInf => Some Gt
  | Fin na da pa, Fin nb db pb => Some (fin_compare na da pa nb db pb)
  end.

Definition num_lt (a b : num) : bool :=
  match num_compare a b with Some Lt => true | _ => false end.
Definition num_gt (a b : num) : bool :=
  match num_compare a b with Some Gt => true | _ => false end.
Definition num_le (a b : num) : bool :=
  match num_compare a b with Some Lt | Some Eq => true | _ => false end.
Definition num_eq (a b : num) : bool :=
  match num_compare a b with Some Eq => true | _ => false end.

Definition num_is_zero (n : num) : bool :=
  match n with Fin _ ds _ => (digits_val ds =? 0)%Z | _ => false end.

(** Number literals: [num_lit m e] is the number [m * 10 ^ e]. *)
Fixpoint uint_digits (u : Decimal.uint) : list digit :=
  match u with
  | Decimal.Nil => []
  | Decimal.D0 u => D0 :: uint_digits u
  | Decimal.D1 u => D1 :: uint_digits u
  | Decimal.D2 u => D2 :: uint_digits u
  | Decimal.D3 u => D3 :: uint_digits u
  | Decimal.D4 u => D4 :: uint_digits u
  | Decimal.D5 u => D5 :: uint_digits u
  | Decimal.D6 u => D6 :: uint_digits u
  | Decimal.D7 u => D7 :: uint_digits u
  | Decimal.D8 u => D8 :: uint_digits u
  | Decimal.D9 u => D9 :: uint_digits u
  end.

Definition nat_digits (n : nat) : list digit := uint_digits (Nat.to_uint n).

Fixpoint strip_leading (ds : list digit) : list digit :=
  match ds with
  | D0 :: ds' => strip_leading ds'
  | _ => ds
  end.

Definition strip_trailing (ds : list digit) : list digit :=
  rev (strip_leading (rev ds)).

Definition num_lit (m e : Z) : num :=
  let ds0 := strip_leading (nat_digits (Z.abs_nat m)) in
  match strip_trailing ds0 with
  | [] => Fin false [] 0
  | ds => Fin (m <? 0)%Z ds (Z.of_nat (length ds0) + e)
  end.

Definition num_of_Z (z : Z) : num := num_lit z 0.

(** ** JavaScript values

    Plain objects are never written to after they are created in this
    module, so an object is its list of properties in insertion order.
    Arrays are pushed to in place and shared between objects, so an array
    value is a reference into the store. *)

Definition loc := nat.

Inductive jsval :=
| JUndef
| JNull
| JBool (b : bool)
| JNum (n : num)
| JStr (s : string)
| JObj (props : list (string * jsval))
| JArr (a : loc).

Fixpoint assoc {A : Type} (k : string) (l : list (string * A)) : option A :=
  match l with
  | [] => None
  | (k', v) :: l' => if String.eqb k k' then Some v else assoc k l'
  end.

(** [typeof v] *)
Definition typeof (v : jsval) : string :=
  match v with
  | JUndef => "undefined"
  | JNull => "object"
  | JBool _ => "boolean"
  | JNum _ => "number"
  | JStr _ => "string"
  | JObj _ => "object"
  | JArr _ => "object"
  end.

(** ToBoolean *)
Definition truthy (v : jsval) : bool :=
  match v with
  | JUndef | JNull => false
  | JBool b => b
  | JNum n => negb (num_is_zero n) && negb (match n with NaN => true | _ => false end)
  | JStr s => negb (String.eqb s "")
  | JObj _ | JArr _ => true
  end.

(** ** Errors and results *)

Inductive error :=
| FilterValidationError (message : string) (filterType field : option string)
| TypeError (message : string).

Inductive res (A : Type) :=
| Ok (a : A)
| Throw (e : error).
Arguments Ok {A} a.
Arguments Throw {A} e.

Global Instance res_ret : MRet res := fun A a => Ok a.
Global Instance res_bind : MBind res := fun A B f m =>
  match m with
  | Ok a => f a
  | Throw e => Throw e
  end.

(** ** The store: arrays and builder objects *)

Inductive LogicalOperator := must | should | must_not.

Definition operator_key (op : LogicalOperator) : string :=
  match op with
  | must => "must"
  | should => "should"
  | must_not => "must_not"
  end.

(** The two private fields of a [FilterBuilder] instance. [conditions] is
    initialised once and never reassigned, so it is a fixed reference. *)
Record BuilderObj := {
  conditions : loc;
  logicalOperator : LogicalOperator
}.

Record heap := {
  arrays : list (list jsval);
  builders : list BuilderObj
}.

Definition empty_heap : heap := {| arrays := []; builders := [] |}.

(** Computations that read and write the store and may throw.  A throw keeps
    the store as it was at the point of the throw. *)
Definition M (A : Type) : Type := heap -> res A * heap.

Global Instance M_ret : MRet M := fun A a h => (Ok a, h).
Global Instance M_bind : MBind M := fun A B f m h =>
  match m h with
  | (Ok a, h') => f a h'
  | (Throw e, h') => (Throw e, h')
  end.

Definition throw {A : Type} (e : error) : M A := fun h => (Throw e, h).
Definition lift {A : Type} (r : res A) : M A := fun h => (r, h).

Definition dangling : error := TypeError "Cannot read properties of undefined".

Definition alloc_array (l : list jsval) : M loc := fun h =>
  (Ok (length (arrays h)),
   {| arrays := arrays h ++ [l]; builders := builders h |}).

Definition read_array (a : loc) : M (list jsval) := fun h =>
  match arrays h !! a with
  | Some l => (Ok l, h)
  | None => (Throw dangling, h)
  end.

(** [a.push(v)] *)
Definition push (a : loc) (v : jsval) : M unit := fun h =>
  match arrays h !! a with
  | Some l => (Ok tt, {| arrays := <[a := l ++ [v]]> (arrays h);
                         builders := builders h |})
  | None => (Throw dangling, h)
  end.

Definition bref := nat.

Definition alloc_builder (b : BuilderObj) : M bref := fun h =>
  (Ok (length (builders h)),
   {| arrays := arrays h; builders := builders h ++ [b] |}).

Definition get_builder (this : bref) : M BuilderObj := fun h =>
  match builders h !! this with
  | Some b => (Ok b, h)
  | None => (Throw dangling, h)
  end.

Definition set_logicalOperator (this : bref) (op : LogicalOperator) : M unit :=
  fun h =>
  match builders h !! this with
  | Some b => (Ok tt, {| arrays := arrays h;
                         builders := <[this := {| conditions := conditions b;
                                                  logicalOperator := op |}]>
                                       (builders h) |})
  | None => (Throw dangling, h)
  end.

(** ** Property access *)

(** [v.name] or [v[name]].  Reading a property of [undefined] or [null]
    throws; primitives and arrays carry none of the property names this module
    reads, so the read yields [undefined] there. *)
Definition get_prop (v : jsval) (name : string) : res jsval :=
  match v with
  | JUndef | JNull => Throw (TypeError "Cannot read properties of undefined")
  | JObj props => Ok (default JUndef (assoc name props))
  | _ => Ok JUndef
  end.

(** [name in v]: throws on a primitive; an array has none of the names asked
    for here. *)
Definition has_property (name : string) (v : jsval) : res bool :=
  match v with
  | JObj props => Ok (bool_decide (is_Some (assoc name props)))
  | JArr _ => Ok false
  | _ => Throw (TypeError "Cannot use 'in' operator")
  end.

Definition is_undefined (v : jsval) : bool :=
  match v with JUndef => true | _ => false end.
Definition is_null (v : jsval) : bool :=
  match v with JNull => true | _ => false end.
Definition is_string (v : jsval) : bool := String.eqb (typeof v) "string".
Definition is_number (v : jsval) : bool := String.eqb (typeof v) "number".
Definition is_object (v : jsval) : bool := String.eqb (typeof v) "object".

(** The operators below are only reached once [typeof] has established that
    their left operand is a number. *)
Definition js_isFinite (v : jsval) : bool :=
  match v with JNum n => isFinite n | _ => false end.
Definition js_lt (v : jsval) (bound : num) : bool :=
  match v with JNum n => num_lt n bound | _ => false end.
Definition js_gt (v : jsval) (bound : num) : bool :=
  match v with JNum n => num_gt n bound | _ => false end.
Definition js_le (v : jsval) (bound : num) : bool :=
  match v with JNum n => num_le n bound | _ => false end.

(** The string held by a value that has been checked to be one. *)
Definition string_of (v : jsval) : option string :=
  match v with JStr s => Some s | _ => None end.

(** [if (c) throw e] *)
Definition throw_if (c : bool) (e : error) : res unit :=
  if c then Throw e else Ok tt.

Fixpoint for_each {A : Type} (l : list A) (body : A -> res unit) : res unit :=
  match l with
  | [] => Ok tt
  | x :: l' => body x ;; for_each l' body
  end.

(** ** The validator *)

Definition validateGeoPoint (point : jsval) (context : string) : res unit :=
  throw_if (negb (truthy point) || negb (is_object point))
    (FilterValidationError
       ("Geographic point " ++ context ++ " must be an object") None None) ;;
  lat ← get_prop point "lat" ;
  throw_if (negb (is_number lat) || negb (js_isFinite lat))
    (FilterValidationError
       ("Geographic point " ++ context ++ " latitude must be a finite number")
       None None) ;;
  lon ← get_prop point "lon" ;
  throw_if (negb (is_number lon) || negb (js_isFinite lon))
    (FilterValidationError
       ("Geographic point " ++ context ++ " longitude must be a finite number")
       None None) ;;
  throw_if (js_lt lat (num_of_Z (-90)) || js_gt lat (num_of_Z 90))
    (FilterValidationError
       ("Geographic point " ++ context ++ " latitude must be between -90 and 90")
       None None) ;;
  throw_if (js_lt lon (num_of_Z (-180)) || js_gt lon (num_of_Z 180))
    (FilterValidationError
       ("Geographic point " ++ context
        ++ " longitude must be between -180 and 180")
       None None).

Definition validate_match (condition : jsval) : res unit :=
  match_ ← get_prop condition "match" ;
  key ← get_prop match_ "key" ;
  throw_if (negb (truthy key) || negb (is_string key))
    (FilterValidationError "Match filter must have a valid key"
       (Some "match") None) ;;
  value ← get_prop match_ "value" ;
  throw_if (is_undefined value || is_null value)
    (FilterValidationError "Match filter must have a value"
       (Some "match") (string_of key)).

Definition validate_range (condition : jsval) : res unit :=
  range ← get_prop condition "range" ;
  key ← get_prop range "key" ;
  throw_if (negb (truthy key) || negb (is_string key))
    (FilterValidationError "Range filter must have a valid key"
       (Some "range") None) ;;
  gte ← get_prop range "gte" ;
  lte ← get_prop range "lte" ;
  gt ← get_prop range "gt" ;
  lt ← get_prop range "lt" ;
  let hasCondition :=
    negb (is_undefined gte) || negb (is_undefined lte) ||
    negb (is_undefined gt) || negb (is_undefined lt) in
  throw_if (negb hasCondition)
    (FilterValidationError "Range filter must have at least one condition"
       (Some "range") (string_of key)) ;;
  let values := List.filter (fun v => negb (is_undefined v)) [gte; lte; gt; lt] in
  for_each values (fun value =>
    throw_if (negb (is_number value) || negb (js_isFinite value))
      (FilterValidationError "Range filter values must be finite numbers"
         (Some "range") (string_of key))).

Definition validate_geo_bounding_box (condition : jsval) : res unit :=
  geo ← get_prop condition "geo_bounding_box" ;
  key ← get_prop geo "key" ;
  throw_if (negb (truthy key) || negb (is_string key))
    (FilterValidationError
       "Geographic bounding box filter must have a valid key"
       (Some "geo_bounding_box") None) ;;
  box ← get_prop geo "bounding_box" ;
  top_left ← get_prop box "top_left" ;
  validateGeoPoint top_left "top_left" ;;
  box' ← get_prop geo "bounding_box" ;
  bottom_right ← get_prop box' "bottom_right" ;
  validateGeoPoint bottom_right "bottom_right".

Definition validate_geo_radius (condition : jsval) : res unit :=
  geo ← get_prop condition "geo_radius" ;
  key ← get_prop geo "key" ;
  throw_if (negb (truthy key) || negb (is_string key))
    (FilterValidationError "Geographic radius filter must have a valid key"
       (Some "geo_radius") None) ;;
  center ← get_prop geo "center" ;
  validateGeoPoint center "center" ;;
  radius ← get_prop geo "radius" ;
  throw_if (negb (is_number radius) || js_le radius (num_of_Z 0))
    (FilterValidationError "Geographic radius must be a positive number"
       (Some "geo_radius") (string_of key)).

(** Each of the four blocks of [validateFilterCondition] runs when its tag is
    a property of the condition. *)
Definition when_tagged (tag : string) (condition : jsval)
    (block : jsval -> res unit) : res unit :=
  has_property tag condition ≫= fun present : bool =>
  if present then block condition else Ok tt.

Definition validateFilterCondition (condition : jsval) : res unit :=
  throw_if (negb (truthy condition) || negb (is_object condition))
    (FilterValidationError "Filter condition must be an object" None None) ;;
  when_tagged "match" condition validate_match ;;
  when_tagged "range" condition validate_range ;;
  when_tagged "geo_bounding_box" condition validate_geo_bounding_box ;;
  when_tagged "geo_radius" condition validate_geo_radius.

(** ** [FilterBuilder] *)

Module FilterBuilder.

(** [new FilterBuilder()]: a fresh empty [conditions] array and the
    default operator ['must']. *)
Definition new : M bref :=
  a ← alloc_array [] ;
  alloc_builder {| conditions := a; logicalOperator := must |}.

Definition addCondition (this : bref) (condition : jsval) : M bref :=
  b ← get_builder this ;
  push (conditions b) condition ;;
  mret this.

Definition and_ (this : bref) : M bref :=
  set_logicalOperator this must ;; mret this.

Definition or_ (this : bref) : M bref :=
  set_logicalOperator this should ;; mret this.

Definition not_ (this : bref) : M bref :=
  set_logicalOperator this must_not ;; mret this.

Definition build (this : bref) : M jsval :=
  b ← get_builder this ;
  cs ← read_array (conditions b) ;
  match cs with
  | [] => mret JNull
  | [c] => mret c
  | _ => mret (JObj [(operator_key (logicalOperator b), JArr (conditions b))])
  end.

(** The loop of [andAll]: each argument builder is built when its turn
    comes, and a truthy result is pushed at once. *)
Fixpoint andAll_loop (this : bref) (builders : list bref) : M unit :=
  match builders with
  | [] => mret tt
  | builder :: rest =>
      filter ← build builder ;
      (if truthy filter
       then b ← get_builder this ; push (conditions b) filter
       else mret tt) ;;
      andAll_loop this rest
  end.

Definition andAll (this : bref) (builders : list bref) : M bref :=
  andAll_loop this builders ;; mret this.

Fixpoint orAny_loop (orConditions : loc) (builders : list bref) : M unit :=
  match builders with
  | [] => mret tt
  | builder :: rest =>
      filter ← build builder ;
      (if truthy filter then push orConditions filter else mret tt) ;;
      orAny_loop orConditions rest
  end.

Definition orAny (this : bref) (builders : list bref) : M bref :=
  orConditions ← alloc_array [] ;
  orAny_loop orConditions builders ;;
  collected ← read_array orConditions ;
  (if (0 <? length collected)%nat
   then b ← get_builder this ;
        push (conditions b) (JObj [("should", JArr orConditions)])
   else mret tt) ;;
  mret this.

Definition validate (this : bref) : M unit :=
  b ← get_builder this ;
  cs ← read_array (conditions b) ;
  if (length cs =? 0)%nat
  then throw (FilterValidationError
                "Filter must have at least one condition" None None)
  else lift (for_each cs validateFilterCondition).

End FilterBuilder.

(** ** [FieldFilter] *)

(** The argument types of the predicate constructors, as the signatures have
    them. *)
Inductive MatchValue :=
| MString (s : string)
| MNumber (n : num)
| MBoolean (b : bool).

Definition match_value (v : MatchValue) : jsval :=
  match v with
  | MString s => JStr s
  | MNumber n => JNum n
  | MBoolean b => JBool b
  end.

Record GeoPoint := { lat : num; lon : num }.

Definition geo_point (p : GeoPoint) : jsval :=
  JObj [("lat", JNum (lat p)); ("lon", JNum (lon p))].

Record FieldFilter := { field : string; builder : bref }.

Module Field.

(** [FilterBuilder.where] *)
Definition where_ (this : bref) (field : string) : FieldFilter :=
  {| field := field; builder := this |}.

Definition equals (this : FieldFilter) (value : MatchValue) : M bref :=
  let condition :=
    JObj [("match", JObj [("key", JStr (field this));
                          ("value", match_value value)])] in
  FilterBuilder.addCondition (builder this) condition.

Definition notEquals (this : FieldFilter) (value : MatchValue) : M bref :=
  let condition :=
    JObj [("match", JObj [("key", JStr (field this));
                          ("value", match_value value)])] in
  children ← alloc_array [condition] ;
  let notCondition := JObj [("must_not", JArr children)] in
  FilterBuilder.addCondition (builder this) notCondition.

Definition greaterThan (this : FieldFilter) (value : num) : M bref :=
  let condition :=
    JObj [("range", JObj [("key", JStr (field this)); ("gt", JNum value)])] in
  FilterBuilder.addCondition (builder this) condition.

Definition greaterThanOrEqual (this : FieldFilter) (value : num) : M bref :=
  let condition :=
    JObj [("range", JObj [("key", JStr (field this)); ("gte", JNum value)])] in
  FilterBuilder.addCondition (builder this) condition.

Definition lessThan (this : FieldFilter) (value : num) : M bref :=
  let condition :=
    JObj [("range", JObj [("key", JStr (field this)); ("lt", JNum value)])] in
  FilterBuilder.addCondition (builder this) condition.

Definition lessThanOrEqual (this : FieldFilter) (value : num) : M bref :=
  let condition :=
    JObj [("range", JObj [("key", JStr (field this)); ("lte", JNum value)])] in
  FilterBuilder.addCondition (builder this) condition.

Definition inRange (this : FieldFilter) (min max : num) : M bref :=
  if num_gt min max
  then throw (FilterValidationError
                "Range minimum cannot be greater than maximum"
                (Some "range") (Some (field this)))
  else
    let condition :=
      JObj [("range", JObj [("key", JStr (field this));
                            ("gte", JNum min); ("lte", JNum max)])] in
    FilterBuilder.addCondition (builder this) condition.

Definition matches (this : FieldFilter) (text : string) : M bref :=
  equals this (MString text).

Definition contains (this : FieldFilter) (value : MatchValue) : M bref :=
  equals this value.

Definition inBoundingBox (this : FieldFilter)
    (topLeft bottomRight : GeoPoint) : M bref :=
  let condition :=
    JObj [("geo_bounding_box",
           JObj [("key", JStr (field this));
                 ("bounding_box",
                  JObj [("top_left", geo_point topLeft);
                        ("bottom_right", geo_point bottomRight)])])] in
  FilterBuilder.addCondition (builder this) condition.

Definition withinRadius (this : FieldFilter)
    (center : GeoPoint) (radiusMeters : num) : M bref :=
  if num_le radiusMeters (num_of_Z 0)
  then throw (FilterValidationError "Radius must be positive"
                (Some "geo_radius") (Some (field this)))
  else
    let condition :=
      JObj [("geo_radius",
             JObj [("key", JStr (field this));
                   ("center", geo_point center);
                   ("radius", JNum radiusMeters)])] in
    FilterBuilder.addCondition (builder this) condition.

End Field.

(** ** Stand-alone constructors and combinators *)

Definition createEqualityFilter (field : string) (value : MatchValue) : jsval :=
  JObj [("match", JObj [("key", JStr field); ("value", match_value value)])].

(** [filters] is the caller's array; with two or more elements the result
    holds that very array. *)
Definition combineFiltersAnd (filters : loc) : M jsval :=
  fs ← read_array filters ;
  match fs with
  | [] => throw (FilterValidationError "Cannot combine empty filter array"
                   None None)
  | [f] => mret f
  | _ => mret (JObj [("must", JArr filters)])
  end.

Definition combineFiltersOr (filters : loc) : M jsval :=
  fs ← read_array filters ;
  match fs with
  | [] => throw (FilterValidationError "Cannot combine empty filter array"
                   None None)
  | [f] => mret f
  | _ => mret (JObj [("should", JArr filters)])
  end.

Definition negateFilter (filter : jsval) : M jsval :=
  children ← alloc_array [filter] ;
  mret (JObj [("must_not", JArr children)]).

(** ** Scripts of builder calls

    A fluent chain on one builder is a list of appends and mode switches. *)

Inductive call :=
| CallAdd (condition : jsval)
| CallAnd
| CallOr
| CallNot.

Definition run_call (this : bref) (c : call) : M bref :=
  match c with
  | CallAdd condition => FilterBuilder.addCondition this condition
  | CallAnd => FilterBuilder.and_ this
  | CallOr => FilterBuilder.or_ this
  | CallNot => FilterBuilder.not_ this
  end.

Fixpoint run_calls (this : bref) (cs : list call) : M unit :=
  match cs with
  | [] => mret tt
  | c :: cs' => run_call this c ;; run_calls this cs'
  end.

(** What a script appends, in call order. *)
Fixpoint appended (cs : list call) : list jsval :=
  match cs with
  | [] => []
  | CallAdd condition :: cs' => condition :: appended cs'
  | _ :: cs' => appended cs'
  end.

(** The mode requested last, or [op] when the script switches none. *)
Fixpoint mode_after (op : LogicalOperator) (cs : list call) : LogicalOperator :=
  match cs with
  | [] => op
  | CallAdd _ :: cs' => mode_after op cs'
  | CallAnd :: cs' => mode_after must cs'
  | CallOr :: cs' => mode_after should cs'
  | CallNot :: cs' => mode_after must_not cs'
  end.

Definition with_conditions (h : heap) (a : loc) (l : list jsval) : heap :=
  {| arrays := <[a := l]> (arrays h); builders := builders h |}.

Definition with_operator (h : heap) (this : bref) (b : BuilderObj)
    (op : LogicalOperator) : heap :=
  {| arrays := arrays h;
     builders := <[this := {| conditions := conditions b;
                              logicalOperator := op |}]> (builders h) |}.

(** The store after a script: the builder's array gained what the script
    appended, and its operator is the one requested last. *)
Definition after_calls (h : heap) (this : bref) (b : BuilderObj)
    (l : list jsval) (cs : list call) : heap :=
  {| arrays := <[conditions b := l ++ appended cs]> (arrays h);
     builders := <[this := {| conditions := conditions b;
                              logicalOperator := mode_after (logicalOperator b) cs |}]>
                   (builders h) |}.


(** ** Snapshots

    A [tree] is a JavaScript value with nothing shared: what a value looks
    like at one moment, and what [JSON.parse] returns. *)

Inductive tree :=
| TUndef
| TNull
| TBool (b : bool)
| TNum (n : num)
| TStr (s : string)
| TObj (props : list (string * tree))
| TArr (elems : list tree).

Inductive snap :=
| Plain (t : tree)
| Circular
| Unfinished.

Fixpoint snap_list (l : list snap) : option (option (list tree)) :=
  match l with
  | [] => Some (Some [])
  | Plain t :: l' =>
      match snap_list l' with
      | Some (Some ts) => Some (Some (t :: ts))
      | r => r
      end
  | Circular :: _ => Some None
  | Unfinished :: _ => None
  end.

Definition snap_array (l : list snap) : snap :=
  match snap_list l with
  | Some (Some ts) => Plain (TArr ts)
  | Some None => Circular
  | None => Unfinished
  end.

Fixpoint snap_props (l : list (string * snap)) : snap :=
  match l with
  | [] => Plain (TObj [])
  | (k, Plain t) :: l' =>
      match snap_props l' with
      | Plain (TObj ps) => Plain (TObj ((k, t) :: ps))
      | r => r
      end
  | (_, r) :: _ => r
  end.

(** The value [v] read through the arrays [store], the way [JSON.stringify]
    walks it: [stack] holds the arrays being visited, and meeting one of them
    again is a cycle.  [fuel] bounds the number of nested arrays;
    [Unfinished] reports that it ran out or that a reference points
    nowhere. *)
Fixpoint snapshot_at (fuel : nat) (store : list (list jsval))
    (stack : list loc) (v : jsval) {struct fuel} : snap :=
  let fix walk (v : jsval) : snap :=
    match v with
    | JUndef => Plain TUndef
    | JNull => Plain TNull
    | JBool b => Plain (TBool b)
    | JNum n => Plain (TNum n)
    | JStr s => Plain (TStr s)
    | JObj props =>
        snap_props
          ((fix walk_props (ps : list (string * jsval)) :=
              match ps with
              | [] => []
              | (k, x) :: ps' => (k, walk x) :: walk_props ps'
              end) props)
    | JArr a =>
        if bool_decide (a ∈ stack) then Circular
        else
          match fuel with
          | 0 => Unfinished
          | S fuel' =>
              match store !! a with
              | None => Unfinished
              | Some l =>
                  snap_array (map (snapshot_at fuel' store (a :: stack)) l)
              end
          end
    end in
  walk v.

(** No chain of distinct arrays is longer than the store. *)
Definition snapshot (h : heap) (v : jsval) : snap :=
  snapshot_at (length (arrays h)) (arrays h) [] v.

(** Every array reference inside [v] points into a store of [n] arrays. *)
Fixpoint closed_val (n : nat) (v : jsval) : bool :=
  match v with
  | JArr a => (a <? n)%nat
  | JObj props => forallb (fun kv => closed_val n (snd kv)) props
  | _ => true
  end.

Definition closed_store (store : list (list jsval)) : bool :=
  forallb (forallb (closed_val (length store))) store.

(** The child list of a composite, as the store has it. *)
Definition child_list (h : heap) (f : jsval) : option (list jsval) :=
  match f with
  | JObj [(_, JArr a)] => arrays h !! a
  | _ => None
  end.

(** ** JSON text *)

Abbreviation text := (list ascii).

Definition lit (s : string) : text := list_ascii_of_string s.

Definition dquote : ascii := "034"%char.
Definition newline : ascii := "010"%char.

Definition digit_char (d : digit) : ascii :=
  match d with
  | D0 => "0" | D1 => "1" | D2 => "2" | D3 => "3" | D4 => "4"
  | D5 => "5" | D6 => "6" | D7 => "7" | D8 => "8" | D9 => "9"
  end%char.

Definition char_digit (c : ascii) : option digit :=
  match c with
  | "0" => Some D0 | "1" => Some D1 | "2" => Some D2 | "3" => Some D3
  | "4" => Some D4 | "5" => Some D5 | "6" => Some D6 | "7" => Some D7
  | "8" => Some D8 | "9" => Some D9 | _ => None
  end%char.

Definition digits_text (ds : list digit) : text := map digit_char ds.

(** *** Printing: [Number::toString] and [QuoteJSONString] *)

Definition exponent_text (e : Z) : text :=
  (if (e <? 0)%Z then "-" else "+")%char
  :: digits_text (nat_digits (Z.abs_nat e)).

(** The literal of the positive number with digits [ds] and point [n]. *)
Definition magnitude_text (ds : list digit) (n : Z) : text :=
  let k := Z.of_nat (length ds) in
  if ((k <=? n) && (n <=? 21))%Z then
    digits_text ds ++ repeat "0"%char (Z.to_nat (n - k))
  else if ((0 <? n) && (n <=? 21))%Z then
    digits_text (firstn (Z.to_nat n) ds) ++ "."%char
      :: digits_text (skipn (Z.to_nat n) ds)
  else if ((-6 <? n) && (n <=? 0))%Z then
    lit "0." ++ repeat "0"%char (Z.to_nat (- n)) ++ digits_text ds
  else
    match ds with
    | [] => []
    | [d] => digit_char d :: "e"%char :: exponent_text (n - 1)
    | d :: rest =>
        digit_char d :: "."%char :: digits_text rest
          ++ "e"%char :: exponent_text (n - 1)
    end.

(** The text of a number, as [JSON.stringify] writes it: non-finite numbers
    become [null]. *)
Definition number_text (x : num) : text :=
  match x with
  | Fin _ [] _ => lit "0"
  | Fin neg ds n =>
      (if neg then lit "-" else []) ++ magnitude_text ds n
  | _ => lit "null"
  end.

Definition hex_char (n : nat) : ascii :=
  match n with
  | 0 => "0" | 1 => "1" | 2 => "2" | 3 => "3" | 4 => "4" | 5 => "5"
  | 6 => "6" | 7 => "7" | 8 => "8" | 9 => "9" | 10 => "a" | 11 => "b"
  | 12 => "c" | 13 => "d" | 14 => "e" | _ => "f"
  end%char.

(** A string is a sequence of code units below 256. *)
Definition quote_char (c : ascii) : text :=
  if Ascii.eqb c dquote then ["\"; dquote]%char
  else if Ascii.eqb c "\" then ["\"; "\"]%char
  else if Ascii.eqb c "008" then ["\"; "b"]%char
  else if Ascii.eqb c "012" then ["\"; "f"]%char
  else if Ascii.eqb c "010" then ["\"; "n"]%char
  else if Ascii.eqb c "013" then ["\"; "r"]%char
  else if Ascii.eqb c "009" then ["\"; "t"]%char
  else if (nat_of_ascii c <? 32)%nat then
    lit "\u00" ++ [hex_char (nat_of_ascii c / 16);
                   hex_char (nat_of_ascii c mod 16)]
  else [c].

Definition quote (s : string) : text :=
  dquote :: flat_map quote_char (list_ascii_of_string s) ++ [dquote].

Definition spaces (n : nat) : text := repeat " "%char n.

Fixpoint join (sep : text) (parts : list text) : text :=
  match parts with
  | [] => []
  | [p] => p
  | p :: parts' => p ++ sep ++ join sep parts'
  end.

(** [{] or [[], the members one per line at the deeper indentation,
    and the closing bracket at the current one. *)
Definition bracketed (open close : ascii) (indent : nat)
    (parts : list text) : text :=
  match parts with
  | [] => [open; close]
  | _ =>
      open :: newline :: spaces (indent + 2)
        ++ join (","%char :: newline :: spaces (indent + 2)) parts
        ++ newline :: spaces indent ++ [close]
  end.

(** [SerializeJSONProperty] with a gap of two spaces: [None] is the
    [undefined] result, which an array turns into [null] and an object
    drops. *)
Fixpoint serialize (indent : nat) (t : tree) : option text :=
  match t with
  | TUndef => None
  | TNull => Some (lit "null")
  | TBool true => Some (lit "true")
  | TBool false => Some (lit "false")
  | TNum x => Some (number_text x)
  | TStr s => Some (quote s)
  | TArr elems =>
      Some (bracketed "[" "]" indent
              (map (fun e => default (lit "null") (serialize (indent + 2) e))
                 elems))
  | TObj props =>
      Some (bracketed "{" "}" indent
              ((fix members (ps : list (string * tree)) : list text :=
                  match ps with
                  | [] => []
                  | (k, v) :: ps' =>
                      match serialize (indent + 2) v with
                      | Some sv =>
                          (quote k ++ ":"%char :: " "%char :: sv) :: members ps'
                      | None => members ps'
                      end
                  end) props))
  end.

(** [JSON.stringify(value, null, 2)]; [None] is [undefined]. *)
Definition JSON_stringify (t : tree) : option string :=
  string_of_list_ascii <$> serialize 0 t.

(** *** Parsing: the JSON grammar *)

Fixpoint skip_ws (s : text) : text :=
  match s with
  | c :: s' =>
      if Ascii.eqb c " " || Ascii.eqb c "009" || Ascii.eqb c "010"
         || Ascii.eqb c "013"
      then skip_ws s'
      else s
  | [] => []
  end.

(** The longest prefix of decimal digits. *)
Fixpoint take_digits (s : text) : list digit * text :=
  match s with
  | c :: s' =>
      match char_digit c with
      | Some d => let (ds, r) := take_digits s' in (d :: ds, r)
      | None => ([], s)
      end
  | [] => ([], [])
  end.

(** The number with digits [ds] and the point after the first [pt] of
    them, in the representation of [num]. *)
Definition normalize (neg : bool) (ds : list digit) (pt : Z) : num :=
  let ds1 := strip_leading ds in
  let pt1 := (pt - Z.of_nat (length ds - length ds1))%Z in
  match strip_trailing ds1 with
  | [] => Fin false [] 0
  | ds2 => Fin neg ds2 pt1
  end.

Definition parse_fraction (s : text) : option (list digit * text) :=
  match s with
  | "."%char :: s' =>
      match take_digits s' with
      | ([], _) => None
      | r => Some r
      end
  | _ => Some ([], s)
  end.

Definition parse_exponent (s : text) : option (Z * text) :=
  let digits_after (negative : bool) (s' : text) :=
    match take_digits s' with
    | ([], _) => None
    | (ds, r) =>
        Some (if negative then (- digits_val ds)%Z else digits_val ds, r)
    end in
  match s with
  | c :: s' =>
      if Ascii.eqb c "e" || Ascii.eqb c "E" then
        match s' with
        | "+"%char :: s'' => digits_after false s''
        | "-"%char :: s'' => digits_after true s''
        | _ => digits_after false s'
        end
      else Some (0%Z, s)
  | [] => Some (0%Z, s)
  end.

(** A number literal after its sign. *)
Definition parse_unsigned (neg : bool) (s1 : text) : option (num * text) :=
  match take_digits s1 with
  | ([], _) => None
  | (D0 :: _ :: _, _) => None
  | (ip, s2) =>
      match parse_fraction s2 with
      | None => None
      | Some (fp, s3) =>
          match parse_exponent s3 with
          | None => None
          | Some (e, s4) =>
              Some (normalize neg (ip ++ fp) (Z.of_nat (length ip) + e), s4)
          end
      end
  end.

Definition parse_number (s : text) : option (num * text) :=
  match s with
  | "-"%char :: s' => parse_unsigned true s'
  | _ => parse_unsigned false s
  end.

(** What follows a value inside a printed text: the end, a comma or a line
    break. *)
Definition delimited (rest : text) : Prop :=
  match rest with
  | [] => True
  | c :: _ => c = ","%char \/ c = newline
  end.

Definition hex_val (c : ascii) : option nat :=
  match char_digit c with
  | Some d => Some (Z.to_nat (digit_val d))
  | None =>
      match c with
      | "a" | "A" => Some 10
      | "b" | "B" => Some 11
      | "c" | "C" => Some 12
      | "d" | "D" => Some 13
      | "e" | "E" => Some 14
      | "f" | "F" => Some 15
      | _ => None
      end%char
  end.

(** The code unit of [\uXXXX], when it is below 256. *)
Definition unicode_escape (a b c d : ascii) : option ascii :=
  match hex_val a, hex_val b, hex_val c, hex_val d with
  | Some 0, Some 0, Some x, Some y => Some (ascii_of_nat (16 * x + y))
  | _, _, _, _ => None
  end.

(** The characters of a string literal after its opening quote, up to the
    closing one. *)
Fixpoint parse_chars (s : text) : option (list ascii * text) :=
  match s with
  | [] => None
  | c :: s' =>
      if Ascii.eqb c dquote then Some ([], s')
      else if Ascii.eqb c "\" then
        match s' with
        | [] => None
        | e :: s'' =>
            let plain (x : ascii) :=
              match parse_chars s'' with
              | Some (cs, r) => Some (x :: cs, r)
              | None => None
              end in
            if Ascii.eqb e dquote then plain dquote
            else if Ascii.eqb e "\" then plain "\"%char
            else if Ascii.eqb e "/" then plain "/"%char
            else if Ascii.eqb e "b" then plain "008"%char
            else if Ascii.eqb e "f" then plain "012"%char
            else if Ascii.eqb e "n" then plain "010"%char
            else if Ascii.eqb e "r" then plain "013"%char
            else if Ascii.eqb e "t" then plain "009"%char
            else if Ascii.eqb e "u" then
              match s'' with
              | h1 :: h2 :: h3 :: h4 :: s5 =>
                  match unicode_escape h1 h2 h3 h4, parse_chars s5 with
                  | Some x, Some (cs, r) => Some (x :: cs, r)
                  | _, _ => None
                  end
              | _ => None
              end
            else None
        end
      else if (nat_of_ascii c <? 32)%nat then None
      else
        match parse_chars s' with
        | Some (cs, r) => Some (c :: cs, r)
        | None => None
        end
  end.

(** [obj[k] = v]: a key already present keeps its place.  Keys that are
    array indices, which an object lists first, do not occur in filters. *)
Fixpoint set_prop (props : list (string * tree)) (k : string) (v : tree)
    : list (string * tree) :=
  match props with
  | [] => [(k, v)]
  | (k', v') :: props' =>
      if String.eqb k k' then (k, v) :: props'
      else (k', v') :: set_prop props' k v
  end.

Definition object_of (members : list (string * tree)) : tree :=
  TObj (fold_left (fun props m => set_prop props (fst m) (snd m)) members []).

Fixpoint parse_value (fuel : nat) (s : text) : option (tree * text) :=
  match fuel with
  | 0 => None
  | S fuel' =>
      match skip_ws s with
      | "{"%char :: s1 =>
          match skip_ws s1 with
          | "}"%char :: s2 => Some (TObj [], s2)
          | _ =>
              match parse_members fuel' s1 with
              | Some (ms, s2) => Some (object_of ms, s2)
              | None => None
              end
          end
      | "["%char :: s1 =>
          match skip_ws s1 with
          | "]"%char :: s2 => Some (TArr [], s2)
          | _ =>
              match parse_elements fuel' s1 with
              | Some (es, s2) => Some (TArr es, s2)
              | None => None
              end
          end
      | "t"%char :: "r"%char :: "u"%char :: "e"%char :: s1 =>
          Some (TBool true, s1)
      | "f"%char :: "a"%char :: "l"%char :: "s"%char :: "e"%char :: s1 =>
          Some (TBool false, s1)
      | "n"%char :: "u"%char :: "l"%char :: "l"%char :: s1 =>
          Some (TNull, s1)
      | c :: s1 =>
          if Ascii.eqb c dquote then
            match parse_chars s1 with
            | Some (cs, s2) => Some (TStr (string_of_list_ascii cs), s2)
            | None => None
            end
          else
            match parse_number (c :: s1) with
            | Some (x, s2) => Some (TNum x, s2)
            | None => None
            end
      | [] => None
      end
  end

with parse_elements (fuel : nat) (s : text) : option (list tree * text) :=
  match fuel with
  | 0 => None
  | S fuel' =>
      match parse_value fuel' s with
      | None => None
      | Some (v, s1) =>
          match skip_ws s1 with
          | ","%char :: s2 =>
              match parse_elements fuel' s2 with
              | Some (vs, s3) => Some (v :: vs, s3)
              | None => None
              end
          | "]"%char :: s2 => Some ([v], s2)
          | _ => None
          end
      end
  end

with parse_members (fuel : nat) (s : text)
    : option (list (string * tree) * text) :=
  match fuel with
  | 0 => None
  | S fuel' =>
      match skip_ws s with
      | c :: s1 =>
          if Ascii.eqb c dquote then
            match parse_chars s1 with
            | None => None
            | Some (k, s2) =>
                match skip_ws s2 with
                | ":"%char :: s3 =>
                    match parse_value fuel' s3 with
                    | None => None
                    | Some (v, s4) =>
                        let m := (string_of_list_ascii k, v) in
                        match skip_ws s4 with
                        | ","%char :: s5 =>
                            match parse_members fuel' s5 with
                            | Some (ms, s6) => Some (m :: ms, s6)
                            | None => None
                            end
                        | "}"%char :: s5 => Some ([m], s5)
                        | _ => None
                        end
                    end
                | _ => None
                end
            end
          else None
      | [] => None
      end
  end.

(** [JSON.parse]; [None] is a [SyntaxError].  A text of [n] characters
    holds fewer than [n + 1] values, which bounds the recursion. *)
Definition JSON_parse (s : string) : option tree :=
  match parse_value (S (String.length s)) (list_ascii_of_string s) with
  | Some (t, rest) =>
      match skip_ws rest with
      | [] => Some t
      | _ => None
      end
  | None => None
  end.

(** ** [serializeFilter] and deep equality *)

(** [JSON.stringify(filter, null, 2)]: the filter is read through the store,
    and a circular structure is a [TypeError].  The last case does not arise
    in a store whose references all point into it. *)
Definition serializeFilter (filter : jsval) : M (option string) := fun h =>
  match snapshot h filter with
  | Plain t => (Ok (JSON_stringify t), h)
  | Circular => (Throw (TypeError "Converting circular structure to JSON"), h)
  | Unfinished => (Throw dangling, h)
  end.

(** Two numbers are the same when both are [NaN] or they are [===]. *)
Definition num_same (x y : num) : bool :=
  match x, y with
  | NaN, NaN => true
  | _, _ => num_eq x y
  end.

(** Deep equality as the test suite's [assertEquals] decides it: arrays
    element by element, objects key by key whatever the order of keys. *)
Fixpoint deep_equal (a b : tree) : bool :=
  match a, b with
  | TUndef, TUndef => true
  | TNull, TNull => true
  | TBool x, TBool y => Bool.eqb x y
  | TNum x, TNum y => num_same x y
  | TStr x, TStr y => String.eqb x y
  | TArr xs, TArr ys =>
      (fix all2 (xs : list tree) (ys : list tree) : bool :=
         match xs, ys with
         | [], [] => true
         | x :: xs', y :: ys' => deep_equal x y && all2 xs' ys'
         | _, _ => false
         end) xs ys
  | TObj ps, TObj qs =>
      (length ps =? length qs)%nat
      && (fix all_keys (ps : list (string * tree)) : bool :=
            match ps with
            | [] => true
            | (k, v) :: ps' =>
                match assoc k qs with
                | Some w => deep_equal v w
                | None => false
                end && all_keys ps'
            end) ps
  | _, _ => false
  end.

(** ** Filters with their bounds given as numbers

    The tagged union [Filter] of [filters.types.ts] as the module's own
    calls fill it: an optional bound is either left out or a number.  The
    declared type also admits a bound that is present with the value
    [undefined]; such a value is a [jsval] and a [tree], not a [Filter]. *)

Inductive Filter :=
| MatchFilter (key : string) (value : MatchValue)
| RangeFilter (key : string) (gte lte gt lt : option num)
| GeoBoundingBoxFilter (key : string) (top_left bottom_right : GeoPoint)
| GeoRadiusFilter (key : string) (center : GeoPoint) (radius : num)
| AndFilter (children : list Filter)
| OrFilter (children : list Filter)
| NotFilter (children : list Filter).

Definition match_value_tree (v : MatchValue) : tree :=
  match v with
  | MString s => TStr s
  | MNumber n => TNum n
  | MBoolean b => TBool b
  end.

Definition geo_point_tree (p : GeoPoint) : tree :=
  TObj [("lat", TNum (lat p)); ("lon", TNum (lon p))].

Definition bound_tree (name : string) (bound : option num)
    : list (string * tree) :=
  match bound with
  | Some x => [(name, TNum x)]
  | None => []
  end.

(** The object a filter is. *)
Fixpoint to_tree (f : Filter) : tree :=
  match f with
  | MatchFilter key value =>
      TObj [("match", TObj [("key", TStr key);
                            ("value", match_value_tree value)])]
  | RangeFilter key gte lte gt lt =>
      TObj [("range",
             TObj (("key", TStr key)
                   :: bound_tree "gte" gte ++ bound_tree "lte" lte
                   ++ bound_tree "gt" gt ++ bound_tree "lt" lt))]
  | GeoBoundingBoxFilter key top_left bottom_right =>
      TObj [("geo_bounding_box",
             TObj [("key", TStr key);
                   ("bounding_box",
                    TObj [("top_left", geo_point_tree top_left);
                          ("bottom_right", geo_point_tree bottom_right)])])]
  | GeoRadiusFilter key center radius =>
      TObj [("geo_radius",
             TObj [("key", TStr key);
                   ("center", geo_point_tree center);
                   ("radius", TNum radius)])]
  | AndFilter children => TObj [("must", TArr (map to_tree children))]
  | OrFilter children => TObj [("should", TArr (map to_tree children))]
  | NotFilter children => TObj [("must_not", TArr (map to_tree children))]
  end.

Definition finite (x : num) : bool := isFinite x && num_wf x.
Arguments finite : simpl never.

Definition finite_bound (bound : option num) : bool :=
  match bound with
  | Some x => finite x
  | None => true
  end.

Definition finite_point (p : GeoPoint) : bool :=
  finite (lat p) && finite (lon p).

(** Every number in the filter is finite. *)
Fixpoint finite_filter (f : Filter) : bool :=
  match f with
  | MatchFilter _ (MNumber x) => finite x
  | MatchFilter _ _ => true
  | RangeFilter _ gte lte gt lt =>
      finite_bound gte && finite_bound lte
      && finite_bound gt && finite_bound lt
  | GeoBoundingBoxFilter _ top_left bottom_right =>
      finite_point top_left && finite_point bottom_right
  | GeoRadiusFilter _ center radius => finite_point center && finite radius
  | AndFilter children | OrFilter children | NotFilter children =>
      forallb finite_filter children
  end.

(** The round trip of one filter held in store [h]. *)
Definition round_trips (h : heap) (filter : jsval) : Prop :=
  exists (t : tree) (s : string) (t' : tree),
    snapshot h filter = Plain t
    /\ serializeFilter filter h = (Ok (Some s), h)
    /\ JSON_parse s = Some t'
    /\ deep_equal t' t = true.

(** [createRangeFilter(field, min?, max?)]: an omitted argument is
    [None]. *)
Definition createRangeFilter (field : string) (min max : option num)
    : res jsval :=
  let range := [("key", JStr field)] in
  let range :=
    match min with
    | Some m => range ++ [("gte", JNum m)]
    | None => range
    end in
  let range :=
    match max with
    | Some m => range ++ [("lte", JNum m)]
    | None => range
    end in
  match min, max with
  | None, None =>
      Throw (FilterValidationError
               "Range filter must have at least min or max value"
               (Some "range") (Some field))
  | _, _ => Ok (JObj [("range", JObj range)])
  end.

(** ** Reading the store without running anything *)

(** What [build()] returns for builder [r] in store [h]. *)
Definition built (h : heap) (r : bref) : option jsval :=
  match builders h !! r with
  | None => None
  | Some b =>
      match arrays h !! conditions b with
      | None => None
      | Some cs =>
          Some match cs with
               | [] => JNull
               | [c] => c
               | _ => JObj [(operator_key (logicalOperator b),
                             JArr (conditions b))]
               end
      end
  end.

(** The results of building each of [bs] in [h] that are not [null], in
    argument order. *)
Definition non_null_results (h : heap) (bs : list bref) : list jsval :=
  List.filter (fun v => negb (is_null v)) (omap (built h) bs).

(** The results that are not [null] of building each of [bs] at its turn,
    while the array [a], which holds [cur], grows by the results before
    it. *)
Fixpoint turn_results (h : heap) (a : loc) (cur : list jsval)
    (bs : list bref) : list jsval :=
  match bs with
  | [] => []
  | r :: rest =>
      match built {| arrays := <[a := cur]> (arrays h);
                     builders := builders h |} r with
      | Some v =>
          if is_null v then turn_results h a cur rest
          else v :: turn_results h a (cur ++ [v]) rest
      | None => []
      end
  end.

(** A value of the declared type [Filter] is a plain object. *)
Definition is_filter_object (v : jsval) : bool :=
  match v with JObj _ => true | _ => false end.

(** Builder [r] exists in [h] and holds plain objects only. *)
Definition typed_builder (h : heap) (r : bref) : Prop :=
  exists b cs,
    builders h !! r = Some b /\
    arrays h !! conditions b = Some cs /\
    forallb is_filter_object cs = true.

(** The conditions array of builder [r] is not the array [a]. *)
Definition owns_other_array (h : heap) (a : loc) (r : bref) : Prop :=
  forall b, builders h !! r = Some b -> conditions b <> a.

(** The store after [orAny] has collected [collected] in a fresh array. *)
Definition with_fresh_array (h : heap) (collected : list jsval) : heap :=
  {| arrays := arrays h ++ [collected]; builders := builders h |}.

Definition leaf_tags : list string :=
  ["match"; "range"; "geo_bounding_box"; "geo_radius"].

Definition geo_radius_condition (key center radius : jsval) : jsval :=
  JObj [("geo_radius",
         JObj [("key", key); ("center", center); ("radius", radius)])].

(** ** Sample stores and conditions *)

(** The store after [new FilterBuilder()] on an empty store. *)
Definition fresh_store : heap :=
  {| arrays := [[]];
     builders := [{| conditions := 0; logicalOperator := must |}] |}.

Definition fresh_builder : BuilderObj :=
  {| conditions := 0; logicalOperator := must |}.

Definition match_a : jsval :=
  createEqualityFilter "a" (MNumber (num_of_Z 1)).
Definition match_b : jsval :=
  createEqualityFilter "b" (MNumber (num_of_Z 2)).
Definition match_c : jsval :=
  createEqualityFilter "c" (MNumber (num_of_Z 3)).

Definition origin : GeoPoint := {| lat := num_of_Z 0; lon := num_of_Z 0 |}.

(** [where('p').equals(1)] on the fresh builder. *)
Definition price_field : FieldFilter := Field.where_ 0 "price".

(** A match on the empty key: well typed, structurally malformed. *)
Definition keyless_match : jsval := createEqualityFilter "" (MString "NVDA").

(** The store after [new FilterBuilder().where('').equals('NVDA')]. *)
Definition keyless_store : heap :=
  {| arrays := [[keyless_match]];
     builders := [{| conditions := 0; logicalOperator := must |}] |}.

(** The store after [new FilterBuilder().where('').notEquals('NVDA')]: the
    malformed match sits inside a [must_not] composite. *)
Definition negated_keyless_store : heap :=
  {| arrays := [[JObj [("must_not", JArr 1)]]; [keyless_match]];
     builders := [{| conditions := 0; logicalOperator := must |}] |}.

(** An integer part the grammar admits: [0], or digits that do not start
    with [0]. *)
Definition int_part_ok (ip : list digit) : Prop :=
  match ip with
  | [] => False
  | [D0] => True
  | d :: _ => is_D0 d = false
  end.

(** ** Trees that survive the round trip *)

Fixpoint distinct (keys : list string) : bool :=
  match keys with
  | [] => true
  | k :: keys' => negb (existsb (String.eqb k) keys') && distinct keys'
  end.

(** No [undefined] anywhere, finite numbers only, and no key twice in one
    object. *)
Fixpoint wf_tree (t : tree) : bool :=
  match t with
  | TUndef => false
  | TNull | TBool _ | TStr _ => true
  | TNum x => finite x
  | TArr elems => forallb wf_tree elems
  | TObj props =>
      distinct (map fst props)
      && forallb (fun kv => wf_tree (snd kv)) props
  end.

(** The number of values in a tree, counting what holds them: the fuel that
    parsing its text takes. *)
Fixpoint weight (t : tree) : nat :=
  match t with
  | TArr elems => S (list_sum (map (fun e => S (weight e)) elems))
  | TObj props => S (list_sum (map (fun kv => S (weight (snd kv))) props))
  | _ => 1
  end.

(** The characters a printed value can start with. *)
Definition value_start (c : ascii) : bool :=
  existsb (Ascii.eqb c)
    (dquote :: lit "{[tfn-0123456789").

(** [txt] is a text of [t]: it starts like a value, is at least as long as
    [t] is heavy, and is read back as [t] whatever delimiter follows. *)
Definition reads (t : tree) (txt : text) : Prop :=
  (exists c r, txt = c :: r /\ value_start c = true)
  /\ weight t <= length txt
  /\ forall fuel rest,
       weight t <= fuel ->
       delimited rest ->
       parse_value fuel (txt ++ rest) = Some (t, rest).

Definition separator (indent : nat) : text :=
  ","%char :: newline :: spaces indent.

Definition member_text (k : string) (sv : text) : text :=
  quote k ++ ":"%char :: " "%char :: sv.

(** The store after [new FilterBuilder().where('p').greaterThan(Infinity)],
    and what [build()] then returns. *)
Definition unbounded_filter : jsval :=
  JObj [("range", JObj [("key", JStr "p"); ("gt", JNum PInf)])].

Definition unbounded_store : heap :=
  {| arrays := [[unbounded_filter]];
     builders := [{| conditions := 0; logicalOperator := must |}] |}.

(** The store after [b.where('a').equals(1)], [b.where('b').equals(2)] and
    [b.addCondition(b.build())] on a new builder [b]: the array holds the
    composite that holds the array. *)
Definition circular_store : heap :=
  {| arrays := [[match_a; match_b; JObj [("must", JArr 0)]]];
     builders := [{| conditions := 0; logicalOperator := must |}] |}.

(** The store after [where('a').equals(1)] and [where('b').equals(2)] on a
    new builder, and after one more [addCondition]. *)
Definition two_store : heap :=
  {| arrays := [[match_a; match_b]];
     builders := [{| conditions := 0; logicalOperator := must |}] |}.

Definition three_store : heap :=
  {| arrays := [[match_a; match_b; match_c]];
     builders := [{| conditions := 0; logicalOperator := must |}] |}.

(** A parent builder 0 with no condition, a builder 1 holding two and an
    empty builder 2. *)
Definition family_store : heap :=
  {| arrays := [[]; [match_a; match_b]; []];
     builders := [{| conditions := 0; logicalOperator := must |};
                  {| conditions := 1; logicalOperator := should |};
                  {| conditions := 2; logicalOperator := must |}] |}.

(** ** The rest of [filters.ts] *)

(** [createFilter()] *)
Definition createFilter : M bref := FilterBuilder.new.

(** [v.length === 0], for the values [isEmptyFilter] reads [length] of: an
    array has its number of elements, a string its number of code units, an
    object its [length] property if it has one. *)
Definition length_is_zero (v : jsval) : M bool := fun h =>
  match v with
  | JUndef | JNull => (Throw (TypeError "Cannot read properties of undefined"), h)
  | JArr a =>
      match arrays h !! a with
      | Some l => (Ok (length l =? 0)%nat, h)
      | None => (Throw dangling, h)
      end
  | JStr s => (Ok (String.length s =? 0)%nat, h)
  | JObj props =>
      (Ok match assoc "length" props with
          | Some (JNum n) => num_is_zero n
          | _ => false
          end, h)
  | _ => (Ok false, h)
  end.

(** One [if ('key' in filter) return filter.key.length === 0] of
    [isEmptyFilter], followed by the rest of the function. *)
Definition empty_under (key : string) (filter : jsval) (otherwise : M bool)
    : M bool :=
  lift (has_property key filter) ≫= fun present : bool =>
  if present
  then lift (get_prop filter key) ≫= length_is_zero
  else otherwise.

Definition isEmptyFilter (filter : jsval) : M bool :=
  if negb (truthy filter) then mret true
  else
    empty_under "must" filter
      (empty_under "should" filter
         (empty_under "must_not" filter (mret false))).

(** ** Terminal calls on a [FieldFilter] *)

Inductive predicate :=
| Equals (value : MatchValue)
| NotEquals (value : MatchValue)
| GreaterThan (value : num)
| GreaterThanOrEqual (value : num)
| LessThan (value : num)
| LessThanOrEqual (value : num)
| InRange (min max : num)
| Matches (text : string)
| Contains (value : MatchValue)
| InBoundingBox (topLeft bottomRight : GeoPoint)
| WithinRadius (center : GeoPoint) (radiusMeters : num).

Definition run_predicate (this : FieldFilter) (p : predicate) : M bref :=
  match p with
  | Equals value => Field.equals this value
  | NotEquals value => Field.notEquals this value
  | GreaterThan value => Field.greaterThan this value
  | GreaterThanOrEqual value => Field.greaterThanOrEqual this value
  | LessThan value => Field.lessThan this value
  | LessThanOrEqual value => Field.lessThanOrEqual this value
  | InRange min max => Field.inRange this min max
  | Matches text => Field.matches this text
  | Contains value => Field.contains this value
  | InBoundingBox topLeft bottomRight =>
      Field.inBoundingBox this topLeft bottomRight
  | WithinRadius center radiusMeters =>
      Field.withinRadius this center radiusMeters
  end.

(** The calls that throw before they append. *)
Definition eager_rejects (p : predicate) : bool :=
  match p with
  | InRange min max => num_gt min max
  | WithinRadius _ radiusMeters => num_le radiusMeters (num_of_Z 0)
  | _ => false
  end.

Definition range_condition (key : string) (bounds : list (string * jsval))
    : jsval :=
  JObj [("range", JObj (("key", JStr key) :: bounds))].

Definition bounding_box_condition (key top_left bottom_right : jsval) : jsval :=
  JObj [("geo_bounding_box",
         JObj [("key", key);
               ("bounding_box",
                JObj [("top_left", top_left);
                      ("bottom_right", bottom_right)])])].

(** The condition a call appends; [fresh] is the array [notEquals] makes. *)
Definition predicate_condition (field : string) (fresh : loc) (p : predicate)
    : jsval :=
  match p with
  | Equals value | Contains value => createEqualityFilter field value
  | Matches text => createEqualityFilter field (MString text)
  | NotEquals _ => JObj [("must_not", JArr fresh)]
  | GreaterThan value => range_condition field [("gt", JNum value)]
  | GreaterThanOrEqual value => range_condition field [("gte", JNum value)]
  | LessThan value => range_condition field [("lt", JNum value)]
  | LessThanOrEqual value => range_condition field [("lte", JNum value)]
  | InRange min max =>
      range_condition field [("gte", JNum min); ("lte", JNum max)]
  | InBoundingBox topLeft bottomRight =>
      bounding_box_condition (JStr field) (geo_point topLeft)
        (geo_point bottomRight)
  | WithinRadius center radiusMeters =>
      geo_radius_condition (JStr field) (geo_point center) (JNum radiusMeters)
  end.

(** The store a call works in once its own array, if any, is made. *)
Definition predicate_base (h : heap) (field : string) (p : predicate) : heap :=
  match p with
  | NotEquals value => with_fresh_array h [createEqualityFilter field value]
  | _ => h
  end.

(** A point the validator accepts. *)
Definition within_bounds (p : GeoPoint) : bool :=
  isFinite (lat p) && isFinite (lon p)
  && num_le (num_of_Z (-90)) (lat p) && num_le (lat p) (num_of_Z 90)
  && num_le (num_of_Z (-180)) (lon p) && num_le (lon p) (num_of_Z 180).

Definition nonempty (s : string) : bool := negb (String.eqb s "").

(** What the validator later says of the condition a call appends. *)
Definition deferred_accepts (field : string) (p : predicate) : bool :=
  match p with
  | Equals _ | Matches _ | Contains _ => nonempty field
  | NotEquals _ => true
  | GreaterThan value | GreaterThanOrEqual value
  | LessThan value | LessThanOrEqual value => nonempty field && isFinite value
  | InRange min max => nonempty field && isFinite min && isFinite max
  | InBoundingBox topLeft bottomRight =>
      nonempty field && within_bounds topLeft && within_bounds bottomRight
  | WithinRadius center radiusMeters =>
      nonempty field && within_bounds center
      && negb (num_le radiusMeters (num_of_Z 0))
  end.

(** A thrown error of the module's own kind. *)
Definition is_validation_error {A : Type} (r : res A) : bool :=
  match r with
  | Throw (FilterValidationError _ _ _) => true
  | _ => false
  end.

Definition is_type_error {A : Type} (r : res A) : bool :=
  match r with
  | Throw (TypeError _) => true
  | _ => false
  end.

Definition nullish (v : jsval) : bool := is_undefined v || is_null v.

(** [obj.name] of a plain object with properties [props]. *)
Definition prop (name : string) (props : list (string * jsval)) : jsval :=
  default JUndef (assoc name props).

Definition nonempty_string (v : jsval) : bool :=
  match v with
  | JStr s => nonempty s
  | _ => false
  end.

Definition finite_number (v : jsval) : bool :=
  match v with
  | JNum x => isFinite x
  | _ => false
  end.

(** The four bounds the validator reads off a range. *)
Definition range_bounds (props : list (string * jsval)) : list jsval :=
  [prop "gte" props; prop "lte" props; prop "gt" props; prop "lt" props].

Definition defined (v : jsval) : bool := negb (is_undefined v).

(** A bound the validator lets through: left out, or a finite number. *)
Definition bound_ok (v : jsval) : bool := is_undefined v || finite_number v.

(** A bounding-box payload with a usable key and no [bounding_box]. *)
Definition missing_box (tag : string) (payload : jsval) : bool :=
  String.eqb tag "geo_bounding_box"
  && match payload with
     | JObj props =>
         nonempty_string (prop "key" props)
         && nullish (prop "bounding_box" props)
     | _ => false
     end.

Definition north_east : GeoPoint := {| lat := num_of_Z 90; lon := num_of_Z 180 |}.
Definition south_west : GeoPoint :=
  {| lat := num_of_Z (-90); lon := num_of_Z (-180) |}.

(** ** The calls of the module as data

    Every exported function and every builder method, with its arguments.  A
    caller may catch what a call throws and go on, so a run of calls goes
    on from the store each call leaves, thrown or not. *)

Inductive operation :=
| OpCreateFilter
| OpAddCondition (this : bref) (condition : jsval)
| OpAnd (this : bref)
| OpOr (this : bref)
| OpNot (this : bref)
| OpAndAll (this : bref) (builders : list bref)
| OpOrAny (this : bref) (builders : list bref)
| OpBuild (this : bref)
| OpValidate (this : bref)
| OpTerminal (this : FieldFilter) (p : predicate)
| OpCombineFiltersAnd (filters : loc)
| OpCombineFiltersOr (filters : loc)
| OpNegateFilter (filter : jsval)
| OpSerializeFilter (filter : jsval)
| OpIsEmptyFilter (filter : jsval).

Definition run_operation (op : operation) (h : heap) : heap :=
  match op with
  | OpCreateFilter => snd (createFilter h)
  | OpAddCondition this condition =>
      snd (FilterBuilder.addCondition this condition h)
  | OpAnd this => snd (FilterBuilder.and_ this h)
  | OpOr this => snd (FilterBuilder.or_ this h)
  | OpNot this => snd (FilterBuilder.not_ this h)
  | OpAndAll this builders => snd (FilterBuilder.andAll this builders h)
  | OpOrAny this builders => snd (FilterBuilder.orAny this builders h)
  | OpBuild this => snd (FilterBuilder.build this h)
  | OpValidate this => snd (FilterBuilder.validate this h)
  | OpTerminal this p => snd (run_predicate this p h)
  | OpCombineFiltersAnd filters => snd (combineFiltersAnd filters h)
  | OpCombineFiltersOr filters => snd (combineFiltersOr filters h)
  | OpNegateFilter filter => snd (negateFilter filter h)
  | OpSerializeFilter filter => snd (serializeFilter filter h)
  | OpIsEmptyFilter filter => snd (isEmptyFilter filter h)
  end.

Definition run_operations (ops : list operation) (h : heap) : heap :=
  fold_left (fun h' op => run_operation op h') ops h.

(** [h'] has every array of [h] at its place, with the elements it had and
    possibly more after them, and every builder of [h] with the array it
    had. *)
Definition grows (h h' : heap) : Prop :=
  (forall (a : loc) l, arrays h !! a = Some l ->
     exists added, arrays h' !! a = Some (l ++ added))
  /\ (forall (r : bref) b, builders h !! r = Some b ->
     exists b', builders h' !! r = Some b' /\ conditions b' = conditions b).

Definition preserves {A : Type} (m : M A) : Prop :=
  forall h, grows h (snd (m h)).

(** An optional bound that, when given, is a finite number. *)
Definition bound_finite (bound : option num) : bool :=
  match bound with
  | Some x => isFinite x
  | None => true
  end.

(** ** Fluent chains

    A chain on one builder is a list of [.where(field).<call>(...)] steps
    and mode switches; every call returns the builder the next one is made
    on. *)

Inductive step :=
| Where (field : string) (p : predicate)
| Mode (op : LogicalOperator).

Definition run_step (this : bref) (s : step) : M bref :=
  match s with
  | Where field p => run_predicate (Field.where_ this field) p
  | Mode must => FilterBuilder.and_ this
  | Mode should => FilterBuilder.or_ this
  | Mode must_not => FilterBuilder.not_ this
  end.

Fixpoint run_steps (this : bref) (steps : list step) : M bref :=
  match steps with
  | [] => mret this
  | s :: rest => run_step this s ≫= fun next : bref => run_steps next rest
  end.

(** The arrays a terminal call makes besides appending. *)
Definition fresh_arrays (field : string) (p : predicate)
    : list (list jsval) :=
  match p with
  | NotEquals value => [[createEqualityFilter field value]]
  | _ => []
  end.

(** What a chain appends when the store holds [n] arrays at its start. *)
Fixpoint chain_conditions (n : nat) (steps : list step) : list jsval :=
  match steps with
  | [] => []
  | Where field p :: rest =>
      predicate_condition field n p
      :: chain_conditions (n + length (fresh_arrays field p)) rest
  | Mode _ :: rest => chain_conditions n rest
  end.

Fixpoint chain_arrays (steps : list step) : list (list jsval) :=
  match steps with
  | [] => []
  | Where field p :: rest => fresh_arrays field p ++ chain_arrays rest
  | Mode _ :: rest => chain_arrays rest
  end.

Fixpoint chain_mode (op : LogicalOperator) (steps : list step)
    : LogicalOperator :=
  match steps with
  | [] => op
  | Where _ _ :: rest => chain_mode op rest
  | Mode op' :: rest => chain_mode op' rest
  end.

(** The store after a chain on builder [this], which is [b] and holds
    [l]. *)
Definition after_steps (h : heap) (this : bref) (b : BuilderObj)
    (l : list jsval) (steps : list step) : heap :=
  {| arrays := <[conditions b := l ++ chain_conditions (length (arrays h)) steps]>
                 (arrays h ++ chain_arrays steps);
     builders := <[this := {| conditions := conditions b;
                              logicalOperator :=
                                chain_mode (logicalOperator b) steps |}]>
                   (builders h) |}.

Definition is_terminal (s : step) : bool :=
  match s with
  | Where _ _ => true
  | Mode _ => false
  end.

Definition passes_eager_check (s : step) : bool :=
  match s with
  | Where _ p => negb (eager_rejects p)
  | Mode _ => true
  end.

Definition passes_validator (s : step) : bool :=
  match s with
  | Where field p => deferred_accepts field p
  | Mode _ => true
  end.

(** [createFilter()], the chain, and a last call on the builder. *)
Definition chain_then {A : Type} (steps : list step) (last : bref -> M A)
    : M A :=
  createFilter ≫= fun this : bref => run_steps this steps ≫= last.

(** The typed filter a terminal call appends. *)
Definition predicate_filter (field : string) (p : predicate) : Filter :=
  match p with
  | Equals value | Contains value => MatchFilter field value
  | Matches text => MatchFilter field (MString text)
  | NotEquals value => NotFilter [MatchFilter field value]
  | GreaterThan value => RangeFilter field None None (Some value) None
  | GreaterThanOrEqual value => RangeFilter field (Some value) None None None
  | LessThan value => RangeFilter field None None None (Some value)
  | LessThanOrEqual value => RangeFilter field None (Some value) None None
  | InRange min max => RangeFilter field (Some min) (Some max) None None
  | InBoundingBox topLeft bottomRight =>
      GeoBoundingBoxFilter field topLeft bottomRight
  | WithinRadius center radiusMeters =>
      GeoRadiusFilter field center radiusMeters
  end.

Fixpoint chain_filters (steps : list step) : list Filter :=
  match steps with
  | [] => []
  | Where field p :: rest => predicate_filter field p :: chain_filters rest
  | Mode _ :: rest => chain_filters rest
  end.

Definition composite (op : LogicalOperator) (children : list Filter)
    : Filter :=
  match op with
  | must => AndFilter children
  | should => OrFilter children
  | must_not => NotFilter children
  end.

(** The value [build()] returns after a chain on a new builder, as a
    tree. *)
Definition chain_tree (steps : list step) : tree :=
  match chain_filters steps with
  | [] => TNull
  | [f] => to_tree f
  | children => to_tree (composite (chain_mode must steps) children)
  end.

Definition finite_step (s : step) : bool :=
  match s with
  | Where field p => finite_filter (predicate_filter field p)
  | Mode _ => true
  end.

(** ** Conditions whose tagged payloads are there

    The declared types give every tag an object payload, and a bounding box
    its [bounding_box].  A condition passed from untyped code, or an object
    that carries a tag of another filter type besides its own, need not have
    them. *)

Definition tag_payload_present (props : list (string * jsval))
    (tag : string) : bool :=
  match assoc tag props with
  | None => true
  | Some payload => negb (nullish payload)
  end.

Definition box_present (props : list (string * jsval)) : bool :=
  match assoc "geo_bounding_box" props with
  | Some (JObj geo) => negb (nullish (prop "bounding_box" geo))
  | _ => true
  end.

Definition payloads_present (condition : jsval) : bool :=
  match condition with
  | JObj props =>
      forallb (tag_payload_present props) leaf_tags && box_present props
  | _ => true
  end.

(** [{match: null}], as untyped code can pass it. *)
Definition null_match : jsval := JObj [("match", JNull)].

(** A value of the declared type [MatchFilter] that also carries a [range]
    property, set to [undefined]. *)
Definition match_with_undefined_range : jsval :=
  JObj [("match", JObj [("key", JStr "a"); ("value", JNum (num_of_Z 1))]);
        ("range", JUndef)].

(** A builder holding a valid match, a match with an empty key and
    [{match: null}], in this order. *)
Definition fail_fast_store : heap :=
  {| arrays := [[match_a; keyless_match; null_match]];
     builders := [{| conditions := 0; logicalOperator := must |}] |}.

Definition null_match_store : heap :=
  {| arrays := [[match_a; null_match]];
     builders := [{| conditions := 0; logicalOperator := must |}] |}.

Definition undefined_range_store : heap :=
  {| arrays := [[match_with_undefined_range]];
     builders := [{| conditions := 0; logicalOperator := must |}] |}.

(** ** Calls on one builder

    What a caller holding builder [this] can do with it after [build()].  A
    caller may catch what a call throws and go on. *)

Inductive builder_op :=
| DoAddCondition (condition : jsval)
| DoWhere (field : string) (p : predicate)
| DoAnd
| DoOr
| DoNot
| DoAndAll (builders : list bref)
| DoOrAny (builders : list bref)
| DoBuild
| DoValidate.

Definition builder_operation (this : bref) (op : builder_op) : operation :=
  match op with
  | DoAddCondition condition => OpAddCondition this condition
  | DoWhere field p => OpTerminal (Field.where_ this field) p
  | DoAnd => OpAnd this
  | DoOr => OpOr this
  | DoNot => OpNot this
  | DoAndAll builders => OpAndAll this builders
  | DoOrAny builders => OpOrAny this builders
  | DoBuild => OpBuild this
  | DoValidate => OpValidate this
  end.

Definition run_builder_op (this : bref) (op : builder_op) (h : heap) : heap :=
  run_operation (builder_operation this op) h.

Definition run_builder_ops (this : bref) (ops : list builder_op) (h : heap)
    : heap :=
  fold_left (fun h' op => run_builder_op this op h') ops h.

(** The calls that can append to the builder's list. *)
Definition appends (op : builder_op) : bool :=
  match op with
  | DoAddCondition _ | DoWhere _ _ | DoAndAll _ | DoOrAny _ => true
  | DoAnd | DoOr | DoNot | DoBuild | DoValidate => false
  end.

(** [h'] differs from [h] on no array below [n] other than [a], has at least
    [n] arrays, and builder [this] still has [a] for its conditions. *)
Definition frame (n : nat) (a : loc) (this : bref) (h h' : heap) : Prop :=
  (forall i : loc, i <> a -> (i < n)%nat -> arrays h' !! i = arrays h !! i)
  /\ (n <= length (arrays h'))%nat
  /\ (exists b', builders h' !! this = Some b' /\ conditions b' = a).

Definition framed {A : Type} (n : nat) (a : loc) (this : bref) (m : M A)
    : Prop :=
  forall h,
    (n <= length (arrays h))%nat ->
    (exists b, builders h !! this = Some b /\ conditions b = a) ->
    frame n a this h (snd (m h)).

(** [{range: {key: 'p', gte: undefined, lte: 5}}]: a value of the declared
    type [RangeFilter] whose lower bound is present and [undefined]. *)
Definition undefined_bound_filter : jsval :=
  JObj [("range", JObj [("key", JStr "p"); ("gte", JUndef);
                        ("lte", JNum (num_of_Z 5))])].

Definition undefined_bound_store : heap :=
  {| arrays := [[undefined_bound_filter]];
     builders := [{| conditions := 0; logicalOperator := must |}] |}.

(** A condition as a caller may pass it: a range with a negative fraction
    and an exponent, and a property of the caller's own. *)
Definition annotated_range : jsval :=
  JObj [("range", JObj [("key", JStr "p");
                        ("lte", JNum (num_lit (-25) (-1)))]);
        ("note", JArr 1)].

Definition annotated_store : heap :=
  {| arrays := [[annotated_range]; [JStr "a\b"; JNull; JBool true]];
     builders := [{| conditions := 0; logicalOperator := must |}] |}.
(** * Properties *)

Ltac munfold :=
  unfold mbind, mret, M_bind, M_ret, res_bind, res_ret, throw, lift.

Section StoreLemmas.

Variables (h : heap) (this : bref) (b : BuilderObj) (cs : list jsval).
Hypothesis Hb : builders h !! this = Some b.
Hypothesis Hcs : arrays h !! conditions b = Some cs.

Lemma get_builder_ok : get_builder this h = (Ok b, h).
Proof using Hb. unfold get_builder. now rewrite Hb. Qed.

Lemma read_conditions_ok : read_array (conditions b) h = (Ok cs, h).
Proof using Hcs. unfold read_array. now rewrite Hcs. Qed.

Lemma push_conditions_ok v :
  push (conditions b) v h = (Ok tt, with_conditions h (conditions b) (cs ++ [v])).
Proof using Hcs. unfold push. now rewrite Hcs. Qed.

Lemma addCondition_ok v :
  FilterBuilder.addCondition this v h
  = (Ok this, with_conditions h (conditions b) (cs ++ [v])).
Proof using Hb Hcs.
  unfold FilterBuilder.addCondition. munfold.
  rewrite get_builder_ok, push_conditions_ok. reflexivity.
Qed.

Lemma set_logicalOperator_ok op :
  set_logicalOperator this op h = (Ok tt, with_operator h this b op).
Proof using Hb. unfold set_logicalOperator. now rewrite Hb. Qed.

Lemma build_ok :
  FilterBuilder.build this h
  = (Ok match cs with
        | [] => JNull
        | [c] => c
        | _ => JObj [(operator_key (logicalOperator b), JArr (conditions b))]
        end, h).
Proof using Hb Hcs.
  unfold FilterBuilder.build. munfold.
  rewrite get_builder_ok, read_conditions_ok.
  destruct cs as [|c [|c' l]]; reflexivity.
Qed.

End StoreLemmas.

Lemma with_conditions_lookup h a l l0 :
  arrays h !! a = Some l0 -> arrays (with_conditions h a l) !! a = Some l.
Proof.
  intros H. unfold with_conditions; simpl.
  apply list_lookup_insert_eq. eapply lookup_lt_Some; eassumption.
Qed.

Lemma with_conditions_twice h a l l' :
  with_conditions (with_conditions h a l) a l' = with_conditions h a l'.
Proof. unfold with_conditions; simpl. now rewrite list_insert_insert_eq. Qed.

Lemma with_operator_lookup h this b op :
  builders h !! this = Some b ->
  builders (with_operator h this b op) !! this
  = Some {| conditions := conditions b; logicalOperator := op |}.
Proof.
  intros H. unfold with_operator; simpl.
  apply list_lookup_insert_eq. eapply lookup_lt_Some; eassumption.
Qed.

Lemma run_calls_ok cs : forall h this b l,
  builders h !! this = Some b ->
  arrays h !! conditions b = Some l ->
  run_calls this cs h = (Ok tt, after_calls h this b l cs).
Proof.
  induction cs as [|c cs IH]; intros h this b l Hb Hl.
  - simpl. munfold. f_equal. unfold after_calls; simpl.
    rewrite app_nil_r. rewrite !list_insert_id by (destruct b; assumption).
    now destruct h.
  - assert (Hstep : forall op,
      run_calls this cs (with_operator h this b op)
      = (Ok tt, after_calls h this b l
                  (match op with must => CallAnd | should => CallOr
                               | must_not => CallNot end :: cs))).
    { intros op.
      rewrite (IH _ this {| conditions := conditions b; logicalOperator := op |} l);
        [| now apply with_operator_lookup | exact Hl ].
      unfold after_calls, with_operator; simpl.
      rewrite list_insert_insert_eq. now destruct op. }
    destruct c as [v| | |]; simpl; munfold.
    + rewrite (addCondition_ok h this b l Hb Hl).
      rewrite (IH _ this b (l ++ [v])); [| exact Hb |].
      * unfold after_calls, with_conditions; simpl.
        now rewrite list_insert_insert_eq, <- app_assoc.
      * eapply with_conditions_lookup; eassumption.
    + unfold FilterBuilder.and_. munfold.
      rewrite (set_logicalOperator_ok h this b Hb). apply (Hstep must).
    + unfold FilterBuilder.or_. munfold.
      rewrite (set_logicalOperator_ok h this b Hb). apply (Hstep should).
    + unfold FilterBuilder.not_. munfold.
      rewrite (set_logicalOperator_ok h this b Hb). apply (Hstep must_not).
Qed.

Lemma after_calls_builder h this b l cs :
  builders h !! this = Some b ->
  builders (after_calls h this b l cs) !! this
  = Some {| conditions := conditions b;
            logicalOperator := mode_after (logicalOperator b) cs |}.
Proof.
  intros H. unfold after_calls; simpl.
  apply list_lookup_insert_eq. eapply lookup_lt_Some; eassumption.
Qed.

Lemma after_calls_conditions h this b l cs :
  arrays h !! conditions b = Some l ->
  arrays (after_calls h this b l cs) !! conditions b = Some (l ++ appended cs).
Proof.
  intros H. unfold after_calls; simpl.
  apply list_lookup_insert_eq. eapply lookup_lt_Some; eassumption.
Qed.

(** A script followed by [build()], from any builder state. *)
Lemma run_calls_then_build h this b l cs :
  builders h !! this = Some b ->
  arrays h !! conditions b = Some l ->
  (run_calls this cs ;; FilterBuilder.build this) h
  = (Ok match l ++ appended cs with
        | [] => JNull
        | [c] => c
        | _ => JObj [(operator_key (mode_after (logicalOperator b) cs),
                      JArr (conditions b))]
        end,
     after_calls h this b l cs).
Proof.
  intros Hb Hl. munfold. rewrite (run_calls_ok cs h this b l Hb Hl).
  apply (build_ok (after_calls h this b l cs) this
           {| conditions := conditions b;
              logicalOperator := mode_after (logicalOperator b) cs |}
           (l ++ appended cs)).
  - now apply after_calls_builder.
  - exact (after_calls_conditions h this b l cs Hl).
Qed.

(** C1: whatever appends and mode switches were made, in whatever order, when
    the builder holds two or more conditions [build()] returns one composite
    with a single key, decided by the mode requested last before the call
    and by nothing else: ['must'] after [and()] (or with no switch on a new
    builder), ['should'] after [or()], ['must_not'] after [not()].  Its
    child list is the builder's whole [conditions] array. *)
Theorem build_keyed_by_current_mode (h : heap) (this : bref) (b : BuilderObj)
    (l : list jsval) (cs : list call) :
  builders h !! this = Some b ->
  arrays h !! conditions b = Some l ->
  2 <= length (l ++ appended cs) ->
  (run_calls this cs ;; FilterBuilder.build this) h
  = (Ok (JObj [(match mode_after (logicalOperator b) cs with
                | must => "must"
                | should => "should"
                | must_not => "must_not"
                end,
                JArr (conditions b))]),
     after_calls h this b l cs)
  /\ arrays (after_calls h this b l cs) !! conditions b
     = Some (l ++ appended cs).
Proof.
  intros Hb Hl Hlen. split.
  - rewrite (run_calls_then_build h this b l cs Hb Hl).
    destruct (l ++ appended cs) as [|c [|c' r]]; simpl in Hlen; try lia.
    now destruct (mode_after (logicalOperator b) cs).
  - now apply after_calls_conditions.
Qed.

(** C4: with no condition accumulated [build()] returns [null], and with
    exactly one it returns that condition itself, whatever mode switches were
    made. *)
Theorem build_null_or_unwrapped (h : heap) (this : bref) (b : BuilderObj)
    (l : list jsval) (cs : list call) :
  builders h !! this = Some b ->
  arrays h !! conditions b = Some l ->
  length (l ++ appended cs) <= 1 ->
  (run_calls this cs ;; FilterBuilder.build this) h
  = (Ok match l ++ appended cs with
        | [] => JNull
        | c :: _ => c
        end,
     after_calls h this b l cs).
Proof.
  intros Hb Hl Hlen.
  rewrite (run_calls_then_build h this b l cs Hb Hl).
  destruct (l ++ appended cs) as [|c [|c' r]]; simpl in Hlen; try lia;
    reflexivity.
Qed.

Lemma build_keyed_by_current_mode_witness :
  fst ((run_calls 0 [CallAdd match_a; CallOr; CallAdd match_b] ;;
        FilterBuilder.build 0) fresh_store)
  = Ok (JObj [("should", JArr 0)])
  /\ fst ((run_calls 0 [CallOr; CallAdd match_a; CallAdd match_b; CallNot] ;;
           FilterBuilder.build 0) fresh_store)
     = Ok (JObj [("must_not", JArr 0)])
  /\ fst ((run_calls 0 [CallNot; CallAdd match_a; CallOr; CallAdd match_b;
                        CallAnd] ;;
           FilterBuilder.build 0) fresh_store)
     = Ok (JObj [("must", JArr 0)]).
Proof.
  split; [|split].
  - rewrite (proj1 (build_keyed_by_current_mode fresh_store 0 fresh_builder []
                      [CallAdd match_a; CallOr; CallAdd match_b]
                      eq_refl eq_refl (le_n 2))).
    reflexivity.
  - rewrite (proj1 (build_keyed_by_current_mode fresh_store 0 fresh_builder []
                      [CallOr; CallAdd match_a; CallAdd match_b; CallNot]
                      eq_refl eq_refl (le_n 2))).
    reflexivity.
  - rewrite (proj1 (build_keyed_by_current_mode fresh_store 0 fresh_builder []
                      [CallNot; CallAdd match_a; CallOr; CallAdd match_b;
                       CallAnd]
                      eq_refl eq_refl (le_n 2))).
    reflexivity.
Defined.

Lemma build_null_or_unwrapped_witness :
  (run_calls 0 [CallNot; CallAdd match_a; CallOr] ;;
   FilterBuilder.build 0) fresh_store
  = (Ok match_a,
     after_calls fresh_store 0 fresh_builder [] [CallNot; CallAdd match_a; CallOr]).
Proof.
  apply (build_null_or_unwrapped fresh_store 0 fresh_builder []
           [CallNot; CallAdd match_a; CallOr]).
  - reflexivity.
  - reflexivity.
  - simpl. lia.
Defined.

(** C5: [inRange(min, max)] throws exactly when [min > max] and
    [withinRadius(center, radiusMeters)] exactly when [radiusMeters <= 0]; a
    throwing call leaves the store, and so the builder's conditions, as they
    were; otherwise [inRange] appends [{range: {key, gte: min, lte: max}}] and
    [withinRadius] appends the [geo_radius] condition. *)
Theorem eager_checks_precede_append (h : heap) (ff : FieldFilter)
    (b : BuilderObj) (l : list jsval) (min max radiusMeters : num)
    (center : GeoPoint) :
  builders h !! builder ff = Some b ->
  arrays h !! conditions b = Some l ->
  Field.inRange ff min max h
  = (if num_gt min max
     then (Throw (FilterValidationError
                    "Range minimum cannot be greater than maximum"
                    (Some "range") (Some (field ff))), h)
     else (Ok (builder ff),
           with_conditions h (conditions b)
             (l ++ [JObj [("range", JObj [("key", JStr (field ff));
                                          ("gte", JNum min);
                                          ("lte", JNum max)])]])))
  /\ Field.withinRadius ff center radiusMeters h
     = (if num_le radiusMeters (num_of_Z 0)
        then (Throw (FilterValidationError "Radius must be positive"
                       (Some "geo_radius") (Some (field ff))), h)
        else (Ok (builder ff),
              with_conditions h (conditions b)
                (l ++ [geo_radius_condition (JStr (field ff))
                         (geo_point center) (JNum radiusMeters)]))).
Proof.
  intros Hb Hl. split.
  - unfold Field.inRange. destruct (num_gt min max); [reflexivity|].
    apply (addCondition_ok h (builder ff) b l Hb Hl).
  - unfold Field.withinRadius. destruct (num_le radiusMeters (num_of_Z 0));
      [reflexivity|].
    apply (addCondition_ok h (builder ff) b l Hb Hl).
Qed.

Lemma eager_checks_precede_append_witness :
  Field.inRange price_field (num_of_Z 200) (num_of_Z 100) fresh_store
  = (Throw (FilterValidationError
              "Range minimum cannot be greater than maximum"
              (Some "range") (Some "price")), fresh_store)
  /\ Field.withinRadius price_field origin (num_of_Z (-100)) fresh_store
     = (Throw (FilterValidationError "Radius must be positive"
                 (Some "geo_radius") (Some "price")), fresh_store).
Proof.
  apply (eager_checks_precede_append fresh_store price_field fresh_builder []
           (num_of_Z 200) (num_of_Z 100) (num_of_Z (-100)) origin);
    reflexivity.
Defined.

(** C7: [combineFiltersAnd] and [combineFiltersOr] throw exactly on the empty
    list, return the sole element of a one-element list as it is, and wrap a
    longer list, the caller's array itself, under ['must'] and ['should']. *)
Theorem combine_filters_cases (h : heap) (filters : loc) (fs : list jsval) :
  arrays h !! filters = Some fs ->
  combineFiltersAnd filters h
  = (match fs with
     | [] => Throw (FilterValidationError "Cannot combine empty filter array"
                      None None)
     | [f] => Ok f
     | _ => Ok (JObj [("must", JArr filters)])
     end, h)
  /\ combineFiltersOr filters h
     = (match fs with
        | [] => Throw (FilterValidationError "Cannot combine empty filter array"
                         None None)
        | [f] => Ok f
        | _ => Ok (JObj [("should", JArr filters)])
        end, h).
Proof.
  intros Hfs. unfold combineFiltersAnd, combineFiltersOr, read_array. munfold.
  rewrite Hfs. destruct fs as [|f [|f' r]]; split; reflexivity.
Qed.

Lemma combine_filters_cases_witness :
  combineFiltersAnd 0 fresh_store
  = (Throw (FilterValidationError "Cannot combine empty filter array"
              None None), fresh_store)
  /\ combineFiltersOr 0 fresh_store
     = (Throw (FilterValidationError "Cannot combine empty filter array"
                 None None), fresh_store).
Proof.
  apply (combine_filters_cases fresh_store 0 []). reflexivity.
Defined.

Lemma for_each_first_failure {A : Type} (body : A -> res unit)
    (pre : list A) (c : A) (post : list A) (e : error) :
  Forall (fun x => body x = Ok tt) pre ->
  body c = Throw e ->
  for_each (pre ++ c :: post) body = Throw e.
Proof.
  intros Hpre Hc. induction Hpre as [|x pre Hx _ IH]; simpl; munfold.
  - now rewrite Hc.
  - rewrite Hx. exact IH.
Qed.

Lemma for_each_all_pass {A : Type} (body : A -> res unit) (l : list A) :
  Forall (fun x => body x = Ok tt) l -> for_each l body = Ok tt.
Proof.
  induction 1 as [|x l Hx _ IH]; simpl; munfold; [reflexivity|].
  now rewrite Hx.
Qed.

Lemma validate_ok h this b cs :
  builders h !! this = Some b ->
  arrays h !! conditions b = Some cs ->
  FilterBuilder.validate this h
  = (match cs with
     | [] => Throw (FilterValidationError
                      "Filter must have at least one condition" None None)
     | _ => for_each cs validateFilterCondition
     end, h).
Proof.
  intros Hb Hcs. unfold FilterBuilder.validate. munfold.
  rewrite (get_builder_ok h this b Hb), (read_conditions_ok h b cs Hcs).
  now destruct cs.
Qed.

Lemma untagged_object_passes (v : jsval) :
  is_object v = true ->
  is_null v = false ->
  (forall tag, In tag leaf_tags -> has_property tag v = Ok false) ->
  validateFilterCondition v = Ok tt.
Proof.
  intros Hobj Hnull Htags.
  assert (Htruthy : truthy v = true)
    by (destruct v; simpl in *; try discriminate; reflexivity).
  unfold validateFilterCondition, when_tagged. munfold.
  rewrite Htruthy, Hobj. simpl.
  rewrite !Htags by (simpl; tauto). reflexivity.
Qed.

Lemma composite_is_untagged (op : LogicalOperator) (children : jsval) :
  forall tag, In tag leaf_tags ->
    has_property tag (JObj [(operator_key op, children)]) = Ok false.
Proof.
  intros tag Hin. simpl in Hin.
  destruct Hin as [<-|[<-|[<-|[<-|[]]]]]; destruct op; reflexivity.
Qed.

(** C10: the validator returns normally on every non-null object that has
    none of the properties [match], [range], [geo_bounding_box] and
    [geo_radius]; so it does on every composite [{must: ...}],
    [{should: ...}], [{must_not: ...}] whatever the children are, and
    [FilterBuilder.validate()] accepts a non-empty builder whose conditions
    are all such objects. *)
Theorem validator_passes_untagged_objects (v : jsval) :
  is_object v = true ->
  is_null v = false ->
  (forall tag, In tag leaf_tags -> has_property tag v = Ok false) ->
  validateFilterCondition v = Ok tt
  /\ (forall op children,
        validateFilterCondition (JObj [(operator_key op, children)]) = Ok tt)
  /\ (forall h this b cs,
        builders h !! this = Some b ->
        arrays h !! conditions b = Some (v :: cs) ->
        Forall (fun c => exists op children,
                   c = JObj [(operator_key op, children)]) cs ->
        FilterBuilder.validate this h = (Ok tt, h)).
Proof.
  intros Hobj Hnull Htags.
  assert (Hv : validateFilterCondition v = Ok tt)
    by now apply untagged_object_passes.
  assert (Hcomp : forall op children,
            validateFilterCondition (JObj [(operator_key op, children)]) = Ok tt).
  { intros op children. apply untagged_object_passes; try reflexivity.
    apply composite_is_untagged. }
  repeat split; try assumption.
  intros h this b cs Hb Hcs Hall.
  rewrite (validate_ok h this b (v :: cs) Hb Hcs).
  rewrite for_each_all_pass; [reflexivity|].
  constructor; [exact Hv|].
  eapply Forall_impl; [exact Hall|].
  intros c (op & children & ->). apply Hcomp.
Qed.

Lemma validator_passes_untagged_objects_witness :
  validateFilterCondition (JObj [("must_not", JArr 1)]) = Ok tt
  /\ FilterBuilder.validate 0 negated_keyless_store
     = (Ok tt, negated_keyless_store).
Proof.
  destruct (validator_passes_untagged_objects (JObj [("must_not", JArr 1)])
              eq_refl eq_refl (composite_is_untagged must_not (JArr 1)))
    as (Hv & _ & Hbuilder).
  split; [exact Hv|].
  apply (Hbuilder negated_keyless_store 0 fresh_builder []).
  - reflexivity.
  - reflexivity.
  - constructor.
Defined.

(** With a non-empty key and a valid center, the radius check alone decides:
    the radius has to be a number that is not [<= 0]. *)
Lemma validator_radius_check (key : string) (center radius : jsval) :
  key <> "" ->
  validateGeoPoint center "center" = Ok tt ->
  validateFilterCondition (geo_radius_condition (JStr key) center radius)
  = throw_if (negb (is_number radius) || js_le radius (num_of_Z 0))
      (FilterValidationError "Geographic radius must be a positive number"
         (Some "geo_radius") (Some key)).
Proof.
  intros Hkey Hcenter.
  unfold validateFilterCondition, when_tagged, geo_radius_condition.
  munfold. cbn [truthy is_object typeof has_property assoc].
  simpl. unfold validate_geo_radius. munfold. simpl.
  apply String.eqb_neq in Hkey. rewrite Hkey. simpl.
  rewrite Hcenter. reflexivity.
Qed.

(** C6 (what the code does on the failing input): a [geo_radius] condition
    with a valid key and center passes the validator when its radius is
    [NaN], and when it is [Infinity]; the radius check is [radius <= 0],
    which is [false] for both.  The builder produces such a condition:
    [withinRadius(center, NaN)] passes the eager check for the same reason,
    and [validate()] then accepts the builder. *)
Theorem validator_accepts_non_finite_radius :
  validateFilterCondition
    (geo_radius_condition (JStr "loc") (geo_point origin) (JNum NaN)) = Ok tt
  /\ validateFilterCondition
       (geo_radius_condition (JStr "loc") (geo_point origin) (JNum PInf)) = Ok tt
  /\ (FilterBuilder.new ≫= fun b =>
      Field.withinRadius (Field.where_ b "loc") origin NaN ;;
      FilterBuilder.validate b) empty_heap
     = (Ok tt,
        {| arrays := [[geo_radius_condition (JStr "loc") (geo_point origin)
                         (JNum NaN)]];
           builders := [fresh_builder] |}).
Proof. repeat split; reflexivity. Qed.

(** *** [andAll] and [orAny] *)

Lemma built_build h r v :
  built h r = Some v -> FilterBuilder.build r h = (Ok v, h).
Proof.
  unfold built. intros H.
  destruct (builders h !! r) as [b|] eqn:Hb; [|discriminate].
  destruct (arrays h !! conditions b) as [cs|] eqn:Hcs; [|discriminate].
  injection H as <-. apply (build_ok h r b cs Hb Hcs).
Qed.

Lemma typed_builder_built h r :
  typed_builder h r ->
  exists v, built h r = Some v /\ truthy v = negb (is_null v).
Proof.
  intros (b & cs & Hb & Hcs & Hobj). unfold built. rewrite Hb, Hcs.
  eexists; split; [reflexivity|].
  destruct cs as [|c [|c' l]]; try reflexivity.
  simpl in Hobj. destruct c; try discriminate. reflexivity.
Qed.

Lemma built_with_conditions h a l r :
  owns_other_array h a r ->
  built (with_conditions h a l) r = built h r.
Proof.
  intros Hother. unfold built, with_conditions; cbn [arrays builders].
  destruct (builders h !! r) as [b|] eqn:Hb; [|reflexivity].
  rewrite list_lookup_insert_ne by (intros Heq; now apply (Hother b)).
  reflexivity.
Qed.

Lemma built_with_fresh_array h acc r :
  typed_builder h r ->
  built (with_fresh_array h acc) r = built h r.
Proof.
  intros (b & cs & Hb & Hcs & _).
  unfold built, with_fresh_array; cbn [arrays builders].
  rewrite Hb.
  rewrite lookup_app_l by (eapply lookup_lt_Some; eassumption).
  reflexivity.
Qed.

Lemma non_null_results_cons h r bs v :
  built h r = Some v ->
  non_null_results h (r :: bs)
  = (if negb (is_null v) then [v] else []) ++ non_null_results h bs.
Proof.
  intros Hv. unfold non_null_results. simpl. rewrite Hv. simpl.
  now destruct (negb (is_null v)).
Qed.

Lemma andAll_loop_ok h this b l bs : forall acc,
  builders h !! this = Some b ->
  arrays h !! conditions b = Some l ->
  Forall (typed_builder h) bs ->
  Forall (owns_other_array h (conditions b)) bs ->
  FilterBuilder.andAll_loop this bs (with_conditions h (conditions b) (l ++ acc))
  = (Ok tt,
     with_conditions h (conditions b) (l ++ acc ++ non_null_results h bs)).
Proof.
  induction bs as [|r bs IH]; intros acc Hb Hl Htyped Hother.
  - simpl. munfold. unfold non_null_results. simpl. now rewrite app_nil_r.
  - inversion Htyped as [|? ? Hr Htyped']; subst.
    inversion Hother as [|? ? Hor Hother']; subst.
    destruct (typed_builder_built h r Hr) as (v & Hv & Htruthy).
    simpl. munfold.
    rewrite (built_build _ r v)
      by (rewrite built_with_conditions; assumption).
    rewrite (non_null_results_cons h r bs v Hv), Htruthy.
    destruct (negb (is_null v)); simpl.
    + rewrite (get_builder_ok _ this b) by exact Hb.
      rewrite (push_conditions_ok _ b (l ++ acc))
        by (eapply with_conditions_lookup; eassumption).
      rewrite with_conditions_twice, <- app_assoc.
      rewrite (IH (acc ++ [v]) Hb Hl Htyped' Hother').
      now rewrite <- !app_assoc.
    + apply (IH acc Hb Hl Htyped' Hother').
Qed.

Lemma orAny_loop_ok h bs : forall acc,
  Forall (typed_builder h) bs ->
  FilterBuilder.orAny_loop (length (arrays h)) bs (with_fresh_array h acc)
  = (Ok tt, with_fresh_array h (acc ++ non_null_results h bs)).
Proof.
  induction bs as [|r bs IH]; intros acc Htyped.
  - simpl. munfold. unfold non_null_results. simpl. now rewrite app_nil_r.
  - inversion Htyped as [|? ? Hr Htyped']; subst.
    destruct (typed_builder_built h r Hr) as (v & Hv & Htruthy).
    simpl. munfold.
    rewrite (built_build _ r v)
      by (rewrite built_with_fresh_array; assumption).
    rewrite (non_null_results_cons h r bs v Hv), Htruthy.
    destruct (negb (is_null v)); simpl.
    + unfold push at 1. simpl.
      rewrite list_lookup_middle by reflexivity.
      replace (<[length (arrays h) := acc ++ [v]]> (arrays h ++ [acc]))
        with (arrays h ++ [acc ++ [v]]).
      * fold (with_fresh_array h (acc ++ [v])).
        rewrite (IH (acc ++ [v]) Htyped'). now rewrite <- !app_assoc.
      * rewrite insert_app_r_alt by lia.
        now rewrite Nat.sub_diag.
    + apply (IH acc Htyped').
Qed.

Lemma typed_builder_result h r :
  typed_builder h r ->
  exists v, built h r = Some v /\ (v = JNull \/ is_filter_object v = true).
Proof.
  intros (b & cs & Hb & Hcs & Hobj). unfold built. rewrite Hb, Hcs.
  eexists; split; [reflexivity|].
  destruct cs as [|c [|c' l]]; [now left | | now right].
  simpl in Hobj. apply andb_true_iff in Hobj as [Hc _]. now right.
Qed.

Lemma typed_with_conditions h a l0 cur r :
  arrays h !! a = Some l0 ->
  forallb is_filter_object cur = true ->
  typed_builder h r ->
  typed_builder (with_conditions h a cur) r.
Proof.
  intros Ha Hcur (b & cs & Hb & Hcs & Hobj).
  destruct (decide (conditions b = a)) as [Heq | Hne].
  - exists b, cur. repeat split; [exact Hb | | exact Hcur].
    rewrite Heq. eapply with_conditions_lookup; eassumption.
  - exists b, cs. repeat split; [exact Hb | | exact Hobj].
    unfold with_conditions; cbn [arrays].
    rewrite list_lookup_insert_ne by congruence. exact Hcs.
Qed.

(** The loop of [andAll], the parent itself allowed among the arguments. *)
Lemma andAll_loop_turns h this b l bs : forall acc,
  builders h !! this = Some b ->
  arrays h !! conditions b = Some l ->
  forallb is_filter_object (l ++ acc) = true ->
  Forall (typed_builder h) bs ->
  FilterBuilder.andAll_loop this bs (with_conditions h (conditions b) (l ++ acc))
  = (Ok tt,
     with_conditions h (conditions b)
       (l ++ acc ++ turn_results h (conditions b) (l ++ acc) bs)).
Proof.
  induction bs as [|r bs IH]; intros acc Hb Hl Hobj Htyped.
  - simpl. munfold. now rewrite app_nil_r.
  - inversion Htyped as [|? ? Hr Htyped']; subst.
    pose proof (typed_with_conditions h (conditions b) l (l ++ acc) r
                  Hl Hobj Hr) as Hr'.
    destruct (typed_builder_result _ r Hr') as (v & Hv & Hshape).
    cbn [FilterBuilder.andAll_loop turn_results]. munfold.
    rewrite (built_build _ r v Hv).
    fold (with_conditions h (conditions b) (l ++ acc)). rewrite Hv.
    destruct Hshape as [-> | Hvobj].
    + simpl. apply (IH acc Hb Hl Hobj Htyped').
    + destruct v; try discriminate. simpl.
      rewrite (get_builder_ok _ this b) by exact Hb.
      rewrite (push_conditions_ok _ b (l ++ acc))
        by (eapply with_conditions_lookup; eassumption).
      rewrite with_conditions_twice, <- app_assoc.
      rewrite (IH (acc ++ [JObj props]) Hb Hl); [ | | exact Htyped'].
      * now rewrite <- !app_assoc.
      * rewrite app_assoc, forallb_app, Hobj. reflexivity.
Qed.

(** C8: [andAll] appends to the parent's conditions one entry per argument
    builder whose [build()] is not [null], each as a child of its own, in
    argument order; [orAny] collects those results in a fresh array and, when
    there is at least one, appends the single node [{should: [...]}] holding
    that array; builders that build to [null] contribute nothing.  The
    builders hold filter objects.  When the arguments of [andAll] are
    builders other than the parent the results are those of the store the
    call starts in; in general each argument is built at its turn. *)
Theorem andAll_orAny_contributions (h : heap) (this : bref) (b : BuilderObj)
    (l : list jsval) (bs : list bref) :
  builders h !! this = Some b ->
  arrays h !! conditions b = Some l ->
  Forall (typed_builder h) bs ->
  (Forall (owns_other_array h (conditions b)) bs ->
   FilterBuilder.andAll this bs h
   = (Ok this,
      with_conditions h (conditions b) (l ++ non_null_results h bs)))
  /\ (forallb is_filter_object l = true ->
      FilterBuilder.andAll this bs h
      = (Ok this,
         with_conditions h (conditions b)
           (l ++ turn_results h (conditions b) l bs)))
  /\ FilterBuilder.orAny this bs h
     = (Ok this,
        let collected := with_fresh_array h (non_null_results h bs) in
        match non_null_results h bs with
        | [] => collected
        | _ => with_conditions collected (conditions b)
                 (l ++ [JObj [("should", JArr (length (arrays h)))]])
        end).
Proof.
  intros Hb Hl Htyped.
  assert (Hsame : with_conditions h (conditions b) l = h).
  { unfold with_conditions. rewrite list_insert_id by exact Hl.
    now destruct h. }
  split; [|split].
  - intros Hother. unfold FilterBuilder.andAll. munfold.
    pose proof (andAll_loop_ok h this b l bs [] Hb Hl Htyped Hother) as Hloop.
    rewrite app_nil_r in Hloop. simpl in Hloop.
    rewrite Hsame in Hloop. now rewrite Hloop.
  - intros Hobj. unfold FilterBuilder.andAll. munfold.
    pose proof (andAll_loop_turns h this b l bs [] Hb Hl) as Hloop.
    rewrite app_nil_r in Hloop. simpl in Hloop.
    rewrite Hsame in Hloop. now rewrite (Hloop Hobj Htyped).
  - unfold FilterBuilder.orAny. munfold.
    unfold alloc_array at 1. fold (with_fresh_array h []).
    rewrite (orAny_loop_ok h bs [] Htyped). simpl.
    set (collected := non_null_results h bs).
    unfold read_array at 1. simpl.
    rewrite list_lookup_middle by reflexivity.
    destruct collected as [|c cs] eqn:Hc; simpl; [reflexivity|].
    rewrite (get_builder_ok _ this b) by exact Hb.
    rewrite (push_conditions_ok _ b l); [reflexivity|].
    unfold with_fresh_array; simpl.
    rewrite lookup_app_l by (eapply lookup_lt_Some; eassumption).
    exact Hl.
Qed.

(** ** The JSON round trip *)

(** *** Numbers *)

Lemma char_digit_digit_char d : char_digit (digit_char d) = Some d.
Proof. now destruct d. Qed.

Lemma take_digits_delimited rest :
  delimited rest -> take_digits rest = ([], rest).
Proof. destruct rest as [|c r]; [reflexivity|]. now intros [-> | ->]. Qed.

Lemma take_digits_app ds rest :
  take_digits rest = ([], rest) ->
  take_digits (digits_text ds ++ rest) = (ds, rest).
Proof.
  intros Hrest. induction ds as [|d ds IH]; simpl; [exact Hrest|].
  now rewrite char_digit_digit_char, IH.
Qed.

Lemma digits_text_app a b :
  digits_text (a ++ b) = digits_text a ++ digits_text b.
Proof. apply map_app. Qed.

Lemma digits_text_zeros j : digits_text (repeat D0 j) = repeat "0"%char j.
Proof. induction j; simpl; [reflexivity|]. now f_equal. Qed.

Lemma parse_fraction_delimited rest :
  delimited rest -> parse_fraction rest = Some ([], rest).
Proof. destruct rest as [|c r]; [reflexivity|]. now intros [-> | ->]. Qed.

Lemma parse_exponent_delimited rest :
  delimited rest -> parse_exponent rest = Some (0%Z, rest).
Proof. destruct rest as [|c r]; [reflexivity|]. now intros [-> | ->]. Qed.

Lemma strip_leading_nonzero d ds :
  is_D0 d = false -> strip_leading (d :: ds) = d :: ds.
Proof. now destruct d. Qed.

Lemma strip_leading_zeros j ds :
  strip_leading (repeat D0 j ++ ds) = strip_leading ds.
Proof. induction j; simpl; auto. Qed.

Lemma rev_zeros j : rev (repeat D0 j) = repeat D0 j.
Proof.
  induction j as [|j IH]; [reflexivity|].
  simpl. rewrite IH. clear IH.
  induction j as [|j IH]; [reflexivity|]. simpl. now rewrite IH.
Qed.

Lemma strip_trailing_zeros ds j :
  strip_trailing (ds ++ repeat D0 j) = strip_trailing ds.
Proof.
  unfold strip_trailing.
  now rewrite rev_app_distr, rev_zeros, strip_leading_zeros.
Qed.

Lemma strip_trailing_nonzero ds :
  ds <> [] -> is_D0 (List.last ds D1) = false -> strip_trailing ds = ds.
Proof.
  intros Hne Hlast. destruct (exists_last Hne) as (l & x & ->).
  rewrite last_last in Hlast. unfold strip_trailing.
  rewrite rev_app_distr.
  change (rev [x] ++ rev l) with (x :: rev l).
  rewrite strip_leading_nonzero by exact Hlast.
  change (x :: rev l) with ([x] ++ rev l).
  now rewrite rev_app_distr, rev_involutive.
Qed.

Lemma canonical_cons d ds :
  canonical_digits (d :: ds) = true ->
  is_D0 d = false /\ is_D0 (List.last (d :: ds) D1) = false.
Proof.
  unfold canonical_digits. rewrite andb_true_iff, !negb_true_iff. tauto.
Qed.

(** Zeros around canonical digits are dropped, and the point moves by the
    number of leading ones. *)
Lemma normalize_padded neg i d ds j pt :
  canonical_digits (d :: ds) = true ->
  normalize neg (repeat D0 i ++ (d :: ds) ++ repeat D0 j) pt
  = Fin neg (d :: ds) (pt - Z.of_nat i).
Proof.
  intros Hc. destruct (canonical_cons d ds Hc) as [Hhead Hlast].
  assert (Hstrip : strip_leading (repeat D0 i ++ (d :: ds) ++ repeat D0 j)
                   = (d :: ds) ++ repeat D0 j).
  { rewrite strip_leading_zeros. apply strip_leading_nonzero, Hhead. }
  unfold normalize. rewrite Hstrip.
  rewrite strip_trailing_zeros, strip_trailing_nonzero by (auto; discriminate).
  f_equal. rewrite !length_app, repeat_length. simpl length. lia.
Qed.

Lemma normalize_canonical neg d ds pt :
  canonical_digits (d :: ds) = true ->
  normalize neg (d :: ds) pt = Fin neg (d :: ds) pt.
Proof.
  intros Hc.
  pose proof (normalize_padded neg 0 d ds 0 pt Hc) as H.
  simpl in H. rewrite app_nil_r, Z.sub_0_r in H. exact H.
Qed.

Lemma uint_digits_val u acc :
  Z.of_nat (Nat.of_uint_acc u acc)
  = fold_left (fun a d => 10 * a + digit_val d)%Z (uint_digits u) (Z.of_nat acc).
Proof.
  revert acc. induction u; intros acc; simpl; [reflexivity| ..];
    rewrite IHu; f_equal; rewrite Nat.tail_mul_spec; simpl digit_val; lia.
Qed.

Lemma nat_digits_val m : digits_val (nat_digits m) = Z.of_nat m.
Proof.
  unfold digits_val, nat_digits.
  change 0%Z with (Z.of_nat 0). rewrite <- uint_digits_val.
  f_equal. apply DecimalNat.Unsigned.of_to.
Qed.

Lemma nat_digits_nonempty m : nat_digits m <> [].
Proof.
  unfold nat_digits.
  rewrite <- (DecimalNat.Unsigned.of_to m) at 1.
  rewrite DecimalNat.Unsigned.to_of. unfold Decimal.unorm.
  destruct (Decimal.nzhead (Nat.to_uint m)); discriminate.
Qed.

Lemma parse_exponent_text e rest :
  delimited rest ->
  parse_exponent ("e"%char :: exponent_text e ++ rest) = Some (e, rest).
Proof.
  intros Hrest. unfold exponent_text.
  pose proof (nat_digits_nonempty (Z.abs_nat e)) as Hne.
  pose proof (nat_digits_val (Z.abs_nat e)) as Hval.
  pose proof (take_digits_app (nat_digits (Z.abs_nat e)) rest
                (take_digits_delimited rest Hrest)) as Htake.
  destruct (e <? 0)%Z eqn:Hsign; simpl; rewrite Htake;
    destruct (nat_digits (Z.abs_nat e)) as [|d ds]; try contradiction;
    rewrite Hval; do 2 f_equal.
  - apply Z.ltb_lt in Hsign. lia.
  - apply Z.ltb_ge in Hsign. lia.
Qed.

Lemma parse_unsigned_parts neg s ip s2 fp s3 e rest :
  take_digits s = (ip, s2) ->
  int_part_ok ip ->
  parse_fraction s2 = Some (fp, s3) ->
  parse_exponent s3 = Some (e, rest) ->
  parse_unsigned neg s
  = Some (normalize neg (ip ++ fp) (Z.of_nat (length ip) + e), rest).
Proof.
  intros Hip Hok Hfp He. unfold parse_unsigned. rewrite Hip.
  destruct ip as [|d [|d' l]]; [contradiction| |];
    destruct d; simpl in Hok; try discriminate; rewrite Hfp, He; reflexivity.
Qed.

Lemma parse_fraction_digits fp rest :
  fp <> [] ->
  take_digits rest = ([], rest) ->
  parse_fraction ("."%char :: digits_text fp ++ rest) = Some (fp, rest).
Proof.
  intros Hne Hrest. unfold parse_fraction.
  rewrite (take_digits_app fp rest Hrest). now destruct fp.
Qed.

Lemma parse_unsigned_magnitude neg d ds n rest :
  canonical_digits (d :: ds) = true ->
  delimited rest ->
  parse_unsigned neg (magnitude_text (d :: ds) n ++ rest)
  = Some (Fin neg (d :: ds) n, rest).
Proof.
  intros Hc Hrest.
  destruct (canonical_cons d ds Hc) as [Hhead _].
  pose proof (take_digits_delimited rest Hrest) as Hstop.
  unfold magnitude_text. cbv zeta.
  remember (Z.of_nat (length (d :: ds))) as k eqn:Hk.
  simpl length in Hk.
  destruct ((k <=? n) && (n <=? 21))%Z eqn:Hint.
  { (* digits followed by zeros *)
    apply andb_true_iff in Hint as [Hkn _]. apply Z.leb_le in Hkn.
    rewrite <- digits_text_zeros, <- digits_text_app.
    erewrite parse_unsigned_parts;
      [ | apply take_digits_app, Hstop
        | simpl; destruct d; (discriminate || reflexivity)
        | apply parse_fraction_delimited, Hrest
        | apply parse_exponent_delimited, Hrest ].
    rewrite app_nil_r.
    rewrite (normalize_padded neg 0 d ds (Z.to_nat (n - k)) _ Hc).
    do 3 f_equal. rewrite length_app, repeat_length. simpl length.
    lia. }
  destruct ((0 <? n) && (n <=? 21))%Z eqn:Hfrac.
  { (* a point inside the digits *)
    apply andb_true_iff in Hfrac as [Hn Hn21].
    apply Z.ltb_lt in Hn. apply Z.leb_le in Hn21.
    apply andb_false_iff in Hint as [Hkn | Hkn];
      [apply Z.leb_gt in Hkn | apply Z.leb_gt in Hkn; lia].
    set (m := Z.to_nat n).
    assert (Hm : 1 <= m < length (d :: ds)) by (unfold m; simpl length; lia).
    assert (Hskip : skipn m (d :: ds) <> []).
    { intros Heq. apply (f_equal (@length digit)) in Heq.
      rewrite length_skipn in Heq. simpl in Heq, Hm. lia. }
    rewrite <- app_assoc. simpl app.
    erewrite parse_unsigned_parts;
      [ | apply take_digits_app; reflexivity
        |
        | apply parse_fraction_digits; [exact Hskip | exact Hstop]
        | apply parse_exponent_delimited, Hrest ].
    - rewrite firstn_skipn, normalize_canonical by exact Hc.
      do 3 f_equal. rewrite length_firstn. unfold m in *. lia.
    - destruct m as [|m']; [lia|]. simpl.
      destruct d; (discriminate || reflexivity). }
  destruct ((-6 <? n) && (n <=? 0))%Z eqn:Hsmall.
  { (* 0.000ddd *)
    apply andb_true_iff in Hsmall as [_ Hn0]. apply Z.leb_le in Hn0.
    change (lit "0.") with ["0"%char; "."%char].
    rewrite <- digits_text_zeros, <- digits_text_app. cbn [app].
    erewrite parse_unsigned_parts with (ip := [D0]);
      [ | reflexivity
        | exact I
        | apply parse_fraction_digits; [ | exact Hstop]
        | apply parse_exponent_delimited, Hrest ].
    - change ([D0] ++ repeat D0 (Z.to_nat (- n)) ++ d :: ds)
        with (repeat D0 (S (Z.to_nat (- n))) ++ d :: ds).
      pose proof (normalize_padded neg (S (Z.to_nat (- n))) d ds 0
                    (Z.of_nat (length [D0]) + 0) Hc) as Hnorm.
      simpl repeat in Hnorm at 2. rewrite app_nil_r in Hnorm.
      rewrite Hnorm. do 3 f_equal. simpl length. lia.
    - intros Heq. apply app_eq_nil in Heq as [_ Heq]. discriminate. }
  (* exponent form *)
  destruct ds as [|d' ds'].
  - simpl app.
    erewrite parse_unsigned_parts with (ip := [d]) (fp := []);
      [ | simpl; rewrite char_digit_digit_char; reflexivity
        | simpl; destruct d; (discriminate || reflexivity)
        | reflexivity
        | apply parse_exponent_text, Hrest ].
    cbn [app]. rewrite normalize_canonical by exact Hc.
    do 3 f_equal. simpl length. lia.
  - simpl app. rewrite <- app_assoc. simpl app.
    erewrite parse_unsigned_parts with (ip := [d]);
      [ | simpl; rewrite char_digit_digit_char; reflexivity
        | simpl; destruct d; (discriminate || reflexivity)
        | apply (parse_fraction_digits (d' :: ds')); [discriminate|reflexivity]
        | apply parse_exponent_text, Hrest ].
    cbn [app]. rewrite normalize_canonical by exact Hc.
    do 3 f_equal. simpl length. lia.
Qed.

Lemma magnitude_text_head d ds n :
  exists d0 tl, magnitude_text (d :: ds) n = digit_char d0 :: tl.
Proof.
  unfold magnitude_text. cbv zeta.
  destruct ((Z.of_nat (length (d :: ds)) <=? n) && (n <=? 21))%Z;
    [do 2 eexists; reflexivity|].
  destruct ((0 <? n) && (n <=? 21))%Z eqn:H2.
  { apply andb_true_iff in H2 as [Hn _]. apply Z.ltb_lt in Hn.
    destruct (Z.to_nat n) as [|m] eqn:Hm; [lia|]. do 2 eexists; reflexivity. }
  destruct ((-6 <? n) && (n <=? 0))%Z; [exists D0; eexists; reflexivity|].
  destruct ds; do 2 eexists; reflexivity.
Qed.

Lemma parse_number_digit d s :
  parse_number (digit_char d :: s) = parse_unsigned false (digit_char d :: s).
Proof. now destruct d. Qed.

(** A finite number is read back from its literal. *)
Lemma parse_number_text x rest :
  finite x = true ->
  delimited rest ->
  parse_number (number_text x ++ rest) = Some (x, rest).
Proof.
  unfold finite. intros Hx Hrest.
  destruct x as [neg ds n| | |]; try discriminate. simpl in Hx.
  destruct ds as [|d ds].
  - apply andb_true_iff in Hx as [Hneg Hn].
    apply negb_true_iff in Hneg. apply Z.eqb_eq in Hn. subst.
    simpl. unfold parse_unsigned. simpl.
    rewrite (take_digits_delimited rest Hrest).
    rewrite (parse_fraction_delimited rest Hrest).
    rewrite (parse_exponent_delimited rest Hrest). reflexivity.
  - unfold number_text. destruct neg.
    + simpl app. apply parse_unsigned_magnitude; assumption.
    + simpl app.
      destruct (magnitude_text_head d ds n) as (d0 & tl & Hhead).
      pose proof (parse_unsigned_magnitude false d ds n rest Hx Hrest) as H.
      rewrite Hhead in H |- *. simpl app in H |- *.
      now rewrite parse_number_digit.
Qed.

Lemma number_text_head x :
  finite x = true ->
  exists c tl, number_text x = c :: tl
               /\ (c = "-"%char \/ exists d, c = digit_char d).
Proof.
  unfold finite. intros Hx.
  destruct x as [neg ds n| | |]; try discriminate.
  destruct ds as [|d ds].
  - exists "0"%char, []. split; [reflexivity|]. right. now exists D0.
  - unfold number_text. destruct neg; simpl app.
    + eexists _, _. split; [reflexivity|]. now left.
    + destruct (magnitude_text_head d ds n) as (d0 & tl & ->).
      eexists _, _. split; [reflexivity|]. right. now exists d0.
Qed.

(** *** Strings *)

Lemma parse_chars_quote_char c tail :
  parse_chars (quote_char c ++ tail)
  = match parse_chars tail with
    | Some (cs, r) => Some (c :: cs, r)
    | None => None
    end.
Proof.
  destruct c as [b0 b1 b2 b3 b4 b5 b6 b7].
  destruct b0, b1, b2, b3, b4, b5, b6, b7; reflexivity.
Qed.

Lemma parse_chars_quoted cs rest :
  parse_chars (flat_map quote_char cs ++ dquote :: rest) = Some (cs, rest).
Proof.
  induction cs as [|c cs IH]; [reflexivity|].
  cbn [flat_map]. rewrite <- app_assoc, parse_chars_quote_char, IH.
  reflexivity.
Qed.

Lemma quote_app s rest :
  quote s ++ rest
  = dquote :: flat_map quote_char (list_ascii_of_string s) ++ dquote :: rest.
Proof. unfold quote. cbn [app]. now rewrite <- app_assoc. Qed.

(** *** White space *)

Lemma skip_ws_spaces n s : skip_ws (spaces n ++ s) = skip_ws s.
Proof. induction n; [reflexivity|]. exact IHn. Qed.

Lemma skip_ws_newline s : skip_ws (newline :: s) = skip_ws s.
Proof. reflexivity. Qed.

Lemma value_start_cases c :
  value_start c = true ->
  In c (dquote :: lit "{[tfn-0123456789").
Proof.
  unfold value_start. rewrite existsb_exists.
  intros (x & Hin & Heq). apply Ascii.eqb_eq in Heq. now subst.
Qed.

Lemma skip_ws_value c s : value_start c = true -> skip_ws (c :: s) = c :: s.
Proof.
  intros H. apply value_start_cases in H. simpl in H.
  repeat (destruct H as [<- | H]; [reflexivity|]). contradiction.
Qed.

Lemma parse_value_skip fuel s s' :
  skip_ws s = skip_ws s' -> parse_value fuel s = parse_value fuel s'.
Proof. intros H. destruct fuel; [reflexivity|]. simpl. now rewrite H. Qed.

Lemma parse_members_skip fuel s s' :
  skip_ws s = skip_ws s' -> parse_members fuel s = parse_members fuel s'.
Proof. intros H. destruct fuel; [reflexivity|]. simpl. now rewrite H. Qed.

(** *** Values *)

Lemma tree_nested_ind (P : tree -> Prop) :
  P TUndef -> P TNull -> (forall b, P (TBool b)) -> (forall x, P (TNum x)) ->
  (forall s, P (TStr s)) ->
  (forall props, Forall (fun kv => P (snd kv)) props -> P (TObj props)) ->
  (forall elems, Forall P elems -> P (TArr elems)) ->
  forall t, P t.
Proof.
  intros Hundef Hnull Hbool Hnum Hstr Hobj Harr.
  refine (fix IH (t : tree) : P t :=
            match t with
            | TUndef => Hundef
            | TNull => Hnull
            | TBool b => Hbool b
            | TNum x => Hnum x
            | TStr s => Hstr s
            | TObj props =>
                Hobj props
                  ((fix all (ps : list (string * tree))
                      : Forall (fun kv => P (snd kv)) ps :=
                      match ps with
                      | [] => @List.Forall_nil _ _
                      | kv :: ps' => @List.Forall_cons _ _ kv ps' (IH (snd kv)) (all ps')
                      end) props)
            | TArr elems =>
                Harr elems
                  ((fix all (es : list tree) : Forall P es :=
                      match es with
                      | [] => @List.Forall_nil _ _
                      | e :: es' => @List.Forall_cons _ _ e es' (IH e) (all es')
                      end) elems)
            end).
Qed.

Lemma parse_value_null f rest :
  parse_value (S f) (lit "null" ++ rest) = Some (TNull, rest).
Proof. reflexivity. Qed.

Lemma parse_value_bool f (b : bool) rest :
  parse_value (S f) (lit (if b then "true" else "false") ++ rest)
  = Some (TBool b, rest).
Proof. now destruct b. Qed.

Lemma parse_value_string f s rest :
  parse_value (S f) (quote s ++ rest) = Some (TStr s, rest).
Proof.
  rewrite quote_app.
  change (parse_value (S f) (dquote :: ?x))
    with (match parse_chars x with
          | Some (cs, s2) => Some (TStr (string_of_list_ascii cs), s2)
          | None => None
          end).
  rewrite parse_chars_quoted. now rewrite string_of_list_ascii_of_string.
Qed.

Lemma parse_value_number f c s :
  c = "-"%char \/ (exists d, c = digit_char d) ->
  parse_value (S f) (c :: s)
  = match parse_number (c :: s) with
    | Some (x, s2) => Some (TNum x, s2)
    | None => None
    end.
Proof. intros [-> | [d ->]]; [reflexivity|]. now destruct d. Qed.

Lemma parse_value_array f s1 c r :
  skip_ws s1 = c :: r ->
  value_start c = true ->
  parse_value (S f) ("["%char :: s1)
  = match parse_elements f s1 with
    | Some (es, s2) => Some (TArr es, s2)
    | None => None
    end.
Proof.
  intros Hws Hc.
  change (parse_value (S f) ("["%char :: s1))
    with (match skip_ws s1 with
          | "]"%char :: s2 => Some (TArr [], s2)
          | _ => match parse_elements f s1 with
                 | Some (es, s2) => Some (TArr es, s2)
                 | None => None
                 end
          end).
  rewrite Hws. apply value_start_cases in Hc. simpl in Hc.
  repeat (destruct Hc as [<- | Hc]; [reflexivity|]). contradiction.
Qed.

Lemma parse_value_object f s1 c r :
  skip_ws s1 = c :: r ->
  value_start c = true ->
  parse_value (S f) ("{"%char :: s1)
  = match parse_members f s1 with
    | Some (ms, s2) => Some (object_of ms, s2)
    | None => None
    end.
Proof.
  intros Hws Hc.
  change (parse_value (S f) ("{"%char :: s1))
    with (match skip_ws s1 with
          | "}"%char :: s2 => Some (TObj [], s2)
          | _ => match parse_members f s1 with
                 | Some (ms, s2) => Some (object_of ms, s2)
                 | None => None
                 end
          end).
  rewrite Hws. apply value_start_cases in Hc. simpl in Hc.
  repeat (destruct Hc as [<- | Hc]; [reflexivity|]). contradiction.
Qed.

Lemma parse_elements_more f s v s1 s2 vs s3 :
  parse_value f s = Some (v, s1) ->
  skip_ws s1 = ","%char :: s2 ->
  parse_elements f s2 = Some (vs, s3) ->
  parse_elements (S f) s = Some (v :: vs, s3).
Proof. intros Hv Hws Hvs. simpl. now rewrite Hv, Hws, Hvs. Qed.

Lemma parse_elements_last f s v s1 s2 :
  parse_value f s = Some (v, s1) ->
  skip_ws s1 = "]"%char :: s2 ->
  parse_elements (S f) s = Some ([v], s2).
Proof. intros Hv Hws. simpl. now rewrite Hv, Hws. Qed.

Lemma parse_members_key f s s1 k s2 s3 :
  skip_ws s = dquote :: s1 ->
  parse_chars s1 = Some (k, s2) ->
  skip_ws s2 = ":"%char :: s3 ->
  parse_members (S f) s
  = match parse_value f s3 with
    | None => None
    | Some (v, s4) =>
        let m := (string_of_list_ascii k, v) in
        match skip_ws s4 with
        | ","%char :: s5 =>
            match parse_members f s5 with
            | Some (ms, s6) => Some (m :: ms, s6)
            | None => None
            end
        | "}"%char :: s5 => Some ([m], s5)
        | _ => None
        end
    end.
Proof. intros Hs Hk Hc. simpl. now rewrite Hs, Hk, Hc. Qed.

Lemma delimited_newline s : delimited (newline :: s).
Proof. now right. Qed.

Lemma delimited_separator k s : delimited (separator k ++ s).
Proof. now left. Qed.

Lemma join_cons sep p p' ps :
  join sep (p :: p' :: ps) = p ++ sep ++ join sep (p' :: ps).
Proof. reflexivity. Qed.

(** The elements of a printed array are read back one by one. *)
Lemma parse_elements_joined k i rest elems txts :
  Forall2 reads elems txts ->
  elems <> [] ->
  forall fuel,
    list_sum (map (fun e => S (weight e)) elems) <= fuel ->
    parse_elements fuel
      (newline :: spaces k ++ join (separator k) txts
         ++ newline :: spaces i ++ "]"%char :: rest)
    = Some (elems, rest).
Proof.
  induction 1 as [|e p es ps Hr Hrest IH]; [contradiction|].
  intros _ fuel Hfuel. simpl in Hfuel.
  destruct fuel as [|f]; [lia|].
  destruct Hr as (_ & _ & Hparse).
  destruct Hrest as [|e' p' es' ps' Hr' Hrest'].
  - simpl join. eapply parse_elements_last.
    + rewrite (parse_value_skip f _
                 (p ++ newline :: spaces i ++ "]"%char :: rest))
        by (now rewrite skip_ws_newline, skip_ws_spaces).
      apply Hparse; [simpl in Hfuel; lia | apply delimited_newline].
    + now rewrite skip_ws_newline, skip_ws_spaces.
  - rewrite join_cons, <- !app_assoc.
    eapply parse_elements_more.
    + rewrite (parse_value_skip f _
                 (p ++ separator k ++ join (separator k) (p' :: ps')
                    ++ newline :: spaces i ++ "]"%char :: rest))
        by (now rewrite skip_ws_newline, skip_ws_spaces).
      apply Hparse; [lia | apply delimited_separator].
    + reflexivity.
    + apply IH; [discriminate | lia].
Qed.

(** The members of a printed object are read back one by one. *)
Lemma parse_members_joined k i rest props mtxts :
  Forall2 (fun kv m => exists sv, m = member_text (fst kv) sv
                                  /\ reads (snd kv) sv) props mtxts ->
  props <> [] ->
  forall fuel,
    list_sum (map (fun kv => S (weight (snd kv))) props) <= fuel ->
    parse_members fuel
      (newline :: spaces k ++ join (separator k) mtxts
         ++ newline :: spaces i ++ "}"%char :: rest)
    = Some (props, rest).
Proof.
  induction 1 as [|[key v] m ps ms Hm Hrest IH]; [contradiction|].
  intros _ fuel Hfuel. simpl in Hfuel.
  destruct fuel as [|f]; [lia|].
  destruct Hm as (sv & -> & _ & _ & Hparse). simpl fst in *. simpl snd in *.
  assert (Hkey : forall tail,
    parse_members (S f)
      (newline :: spaces k ++ member_text key sv ++ tail)
    = match parse_value f (sv ++ tail) with
      | None => None
      | Some (v0, s4) =>
          let m := (key, v0) in
          match skip_ws s4 with
          | ","%char :: s5 =>
              match parse_members f s5 with
              | Some (ms0, s6) => Some (m :: ms0, s6)
              | None => None
              end
          | "}"%char :: s5 => Some ([m], s5)
          | _ => None
          end
      end).
  { intros tail. unfold member_text.
    rewrite <- app_assoc, quote_app. cbn [app].
    erewrite parse_members_key;
      [ | rewrite skip_ws_newline, skip_ws_spaces; reflexivity
        | apply parse_chars_quoted
        | reflexivity ].
    rewrite string_of_list_ascii_of_string.
    now rewrite (parse_value_skip f (" "%char :: sv ++ tail) (sv ++ tail)). }
  destruct Hrest as [|[key' v'] m' ps' ms' Hm' Hrest'].
  - simpl join. rewrite Hkey, Hparse;
      [ | simpl in Hfuel; lia | apply delimited_newline ].
    cbv zeta. now rewrite skip_ws_newline, skip_ws_spaces.
  - rewrite join_cons, <- !app_assoc.
    rewrite Hkey, Hparse; [ | lia | apply delimited_separator ].
    cbv zeta.
    change (skip_ws (separator k ++ ?x))
      with (","%char :: newline :: spaces k ++ x).
    cbv beta iota.
    rewrite IH; [reflexivity | discriminate | lia].
Qed.

Lemma set_prop_fresh props k v :
  existsb (String.eqb k) (map fst props) = false ->
  set_prop props k v = props ++ [(k, v)].
Proof.
  induction props as [|[k' v'] props IH]; [reflexivity|].
  simpl. intros H. apply orb_false_iff in H as [Hk Hrest].
  rewrite Hk. now rewrite IH.
Qed.

Lemma fold_set_prop_distinct props : forall acc,
  distinct (map fst props) = true ->
  (forall k, In k (map fst props) ->
             existsb (String.eqb k) (map fst acc) = false) ->
  fold_left (fun ps m => set_prop ps (fst m) (snd m)) props acc = acc ++ props.
Proof.
  induction props as [|[k v] props IH]; intros acc Hd Hfresh.
  - simpl. now rewrite app_nil_r.
  - simpl in Hd. apply andb_true_iff in Hd as [Hk Hd].
    apply negb_true_iff in Hk.
    simpl. rewrite set_prop_fresh by (apply Hfresh; now left).
    rewrite IH; [now rewrite <- app_assoc | exact Hd |].
    intros k' Hin. rewrite map_app, existsb_app.
    rewrite Hfresh by (now right). simpl. rewrite orb_false_r.
    destruct (String.eqb k' k) eqn:Heq; [|reflexivity].
    apply String.eqb_eq in Heq. subst k'.
    assert (existsb (String.eqb k) (map fst props) = true) as Hex.
    { apply existsb_exists. exists k. split; [exact Hin|]. apply String.eqb_refl. }
    congruence.
Qed.

Lemma object_of_distinct props :
  distinct (map fst props) = true -> object_of props = TObj props.
Proof.
  intros Hd. unfold object_of.
  now rewrite (fold_set_prop_distinct props [] Hd).
Qed.

Lemma join_length sep parts ws :
  1 <= length sep ->
  Forall2 (fun w p => w <= length p) ws parts ->
  list_sum (map S ws) <= length (join sep parts) + 1.
Proof.
  intros Hsep. induction 1 as [|w p ws ps Hw Hrest IH]; [simpl; lia|].
  destruct Hrest as [|w' p' ws' ps' Hw' Hrest'].
  - simpl. lia.
  - rewrite join_cons, !length_app.
    change (map S (w :: w' :: ws')) with (S w :: map S (w' :: ws')).
    change (list_sum (S w :: ?l)) with (S w + list_sum l).
    lia.
Qed.

Lemma bracketed_length open close indent parts ws :
  Forall2 (fun w p => w <= length p) ws parts ->
  S (list_sum (map S ws)) <= length (bracketed open close indent parts).
Proof.
  intros H.
  pose proof (join_length (separator (indent + 2)) parts ws) as Hj.
  destruct H as [|w p ws ps Hw Hrest]; [cbn; lia|].
  specialize (Hj ltac:(simpl; lia) ltac:(now constructor)).
  change (bracketed open close indent (p :: ps))
    with (open :: newline :: spaces (indent + 2)
            ++ join (separator (indent + 2)) (p :: ps)
            ++ newline :: spaces indent ++ [close]).
  cbn [length]. rewrite !length_app. cbn [length].
  lia.
Qed.

Lemma serialize_array indent elems txts :
  Forall2 (fun e p => serialize (indent + 2) e = Some p) elems txts ->
  serialize indent (TArr elems) = Some (bracketed "[" "]" indent txts).
Proof.
  intros H. simpl. do 2 f_equal.
  induction H as [|e p es ps He _ IH]; [reflexivity|].
  simpl. now rewrite He, IH.
Qed.

Lemma serialize_object indent props mtxts :
  Forall2 (fun kv m => exists sv, serialize (indent + 2) (snd kv) = Some sv
                                  /\ m = member_text (fst kv) sv)
    props mtxts ->
  serialize indent (TObj props) = Some (bracketed "{" "}" indent mtxts).
Proof.
  intros H. simpl. do 2 f_equal.
  induction H as [|[k v] m ps ms (sv & Hsv & ->) _ IH]; [reflexivity|].
  simpl in Hsv. rewrite Hsv, IH. reflexivity.
Qed.

Lemma bracketed_app open close indent p ps rest :
  bracketed open close indent (p :: ps) ++ rest
  = open :: newline :: spaces (indent + 2)
      ++ join (separator (indent + 2)) (p :: ps)
      ++ newline :: spaces indent ++ close :: rest.
Proof.
  unfold bracketed. cbn [app]. do 2 f_equal.
  rewrite <- !app_assoc. cbn [app]. now rewrite <- app_assoc.
Qed.

Lemma join_head sep c r ps :
  exists tl, join sep ((c :: r) :: ps) = c :: tl.
Proof. destruct ps; eexists; reflexivity. Qed.

Lemma reads_array indent elems txts :
  Forall2 reads elems txts ->
  reads (TArr elems) (bracketed "[" "]" indent txts).
Proof.
  intros H. split; [|split].
  - destruct txts; do 2 eexists; split; reflexivity.
  - simpl weight. rewrite <- (map_map weight S).
    apply bracketed_length.
    apply Forall2_fmap_l. eapply Forall2_impl; [exact H|].
    now intros e p (_ & Hlen & _).
  - intros fuel rest Hfuel _. simpl weight in Hfuel.
    destruct fuel as [|f]; [lia|].
    destruct H as [|e p es ps Hr Hrest]; [reflexivity|].
    rewrite bracketed_app.
    destruct Hr as (Hstart & Hr).
    destruct Hstart as (c & r & -> & Hc).
    destruct (join_head (separator (indent + 2)) c r ps) as (tl & Hjoin).
    erewrite parse_value_array;
      [ | rewrite skip_ws_newline, skip_ws_spaces, Hjoin;
          apply skip_ws_value, Hc
        | exact Hc ].
    rewrite (parse_elements_joined (indent + 2) indent rest (e :: es)
               ((c :: r) :: ps));
      [reflexivity | constructor; [split; [eauto|exact Hr] | exact Hrest]
       | discriminate | lia].
Qed.

Lemma reads_object indent props mtxts :
  distinct (map fst props) = true ->
  Forall2 (fun kv m => exists sv, m = member_text (fst kv) sv
                                  /\ reads (snd kv) sv) props mtxts ->
  reads (TObj props) (bracketed "{" "}" indent mtxts).
Proof.
  intros Hd H. split; [|split].
  - destruct mtxts; do 2 eexists; split; reflexivity.
  - simpl weight. rewrite <- (map_map (fun kv => weight (snd kv)) S).
    apply bracketed_length.
    apply Forall2_fmap_l. eapply Forall2_impl; [exact H|].
    intros kv m (sv & -> & _ & Hlen & _). simpl.
    unfold member_text. rewrite length_app. simpl. lia.
  - intros fuel rest Hfuel _. simpl weight in Hfuel.
    destruct fuel as [|f]; [lia|].
    destruct H as [|kv m ps ms Hm Hrest]; [reflexivity|].
    rewrite bracketed_app.
    assert (Hhead : exists tl,
              join (separator (indent + 2)) (m :: ms) = dquote :: tl).
    { destruct Hm as (sv & -> & _). unfold member_text, quote.
      cbn [app]. apply join_head. }
    destruct Hhead as (tl & Hjoin).
    erewrite parse_value_object;
      [ | rewrite skip_ws_newline, skip_ws_spaces, Hjoin; reflexivity
        | reflexivity ].
    rewrite (parse_members_joined (indent + 2) indent rest (kv :: ps)
               (m :: ms));
      [ | now constructor | discriminate | lia].
    now rewrite object_of_distinct.
Qed.

Lemma value_start_number c :
  c = "-"%char \/ (exists d, c = digit_char d) -> value_start c = true.
Proof. intros [-> | [d ->]]; [reflexivity|]. now destruct d. Qed.

Lemma reads_leaf t txt c tl :
  weight t = 1 ->
  txt = c :: tl ->
  value_start c = true ->
  (forall f rest, delimited rest ->
                  parse_value (S f) (txt ++ rest) = Some (t, rest)) ->
  reads t txt.
Proof.
  intros Hw -> Hc Hparse. split; [eauto|]. split; [rewrite Hw; simpl; lia|].
  intros fuel rest Hfuel Hrest. destruct fuel as [|f]; [lia|].
  now apply Hparse.
Qed.

(** Every well-formed tree has a text, at every indentation, and the text
    is read back as the tree. *)
Lemma serialize_reads t :
  wf_tree t = true ->
  forall indent, exists txt, serialize indent t = Some txt /\ reads t txt.
Proof.
  induction t as [ | | b | x | s | props IH | elems IH ] using tree_nested_ind;
    intros Hwf indent.
  - discriminate.
  - exists (lit "null"). split; [reflexivity|].
    eapply reads_leaf; [reflexivity | reflexivity | reflexivity |].
    intros f rest _. apply parse_value_null.
  - exists (lit (if b then "true" else "false")).
    split; [now destruct b|].
    destruct b; (eapply reads_leaf;
                 [reflexivity | reflexivity | reflexivity |]);
      intros f rest _; [apply (parse_value_bool f true)
                       | apply (parse_value_bool f false)].
  - simpl in Hwf. exists (number_text x). split; [reflexivity|].
    destruct (number_text_head x Hwf) as (c & tl & Htxt & Hc).
    eapply reads_leaf;
      [reflexivity | exact Htxt | now apply value_start_number |].
    intros f rest Hrest.
    pose proof (parse_number_text x rest Hwf Hrest) as Hnum.
    rewrite Htxt in Hnum |- *. cbn [app] in Hnum |- *.
    now rewrite (parse_value_number f c _ Hc), Hnum.
  - exists (quote s). split; [reflexivity|].
    eapply reads_leaf; [reflexivity | reflexivity | reflexivity |].
    intros f rest _. apply parse_value_string.
  - simpl in Hwf. apply andb_true_iff in Hwf as [Hd Hall].
    assert (Hms : exists mtxts,
      Forall2 (fun kv m => exists sv,
                 serialize (indent + 2) (snd kv) = Some sv
                 /\ m = member_text (fst kv) sv) props mtxts
      /\ Forall2 (fun kv m => exists sv, m = member_text (fst kv) sv
                                         /\ reads (snd kv) sv) props mtxts).
    { clear Hd. induction IH as [|kv ps Hkv _ IHps].
      - exists []. split; constructor.
      - simpl in Hall. apply andb_true_iff in Hall as [Hv Hall].
        destruct (Hkv Hv (indent + 2)) as (sv & Hsv & Hr).
        destruct (IHps Hall) as (ms & H1 & H2).
        exists (member_text (fst kv) sv :: ms).
        split; constructor; eauto. }
    destruct Hms as (mtxts & Hser & Hreads).
    exists (bracketed "{" "}" indent mtxts). split.
    + now apply serialize_object.
    + now apply reads_object.
  - simpl in Hwf.
    assert (Hes : exists txts,
      Forall2 (fun e p => serialize (indent + 2) e = Some p) elems txts
      /\ Forall2 reads elems txts).
    { induction IH as [|e es He _ IHes].
      - exists []. split; constructor.
      - simpl in Hwf. apply andb_true_iff in Hwf as [Hv Hall].
        destruct (He Hv (indent + 2)) as (p & Hp & Hr).
        destruct (IHes Hall) as (ps & H1 & H2).
        exists (p :: ps). split; constructor; eauto. }
    destruct Hes as (txts & Hser & Hreads).
    exists (bracketed "[" "]" indent txts). split.
    + now apply serialize_array.
    + now apply reads_array.
Qed.

Lemma string_length_of_list l :
  String.length (string_of_list_ascii l) = length l.
Proof. induction l; simpl; congruence. Qed.

(** [JSON.parse(JSON.stringify(t, null, 2))] is [t] for every well-formed
    tree. *)
Lemma JSON_round_trip t :
  wf_tree t = true ->
  exists s, JSON_stringify t = Some s /\ JSON_parse s = Some t.
Proof.
  intros Hwf. destruct (serialize_reads t Hwf 0) as (txt & Hser & Hr).
  destruct Hr as (_ & Hlen & Hparse).
  exists (string_of_list_ascii txt). split.
  - unfold JSON_stringify. now rewrite Hser.
  - unfold JSON_parse.
    rewrite list_ascii_of_string_of_list_ascii, string_length_of_list.
    rewrite <- (app_nil_r txt) at 2.
    rewrite (Hparse (S (length txt)) []); [reflexivity | lia | exact I].
Qed.

(** *** Filters *)

Lemma Filter_nested_ind (P : Filter -> Prop) :
  (forall key value, P (MatchFilter key value)) ->
  (forall key gte lte gt lt, P (RangeFilter key gte lte gt lt)) ->
  (forall key tl br, P (GeoBoundingBoxFilter key tl br)) ->
  (forall key center radius, P (GeoRadiusFilter key center radius)) ->
  (forall children, Forall P children -> P (AndFilter children)) ->
  (forall children, Forall P children -> P (OrFilter children)) ->
  (forall children, Forall P children -> P (NotFilter children)) ->
  forall f, P f.
Proof.
  intros Hmatch Hrange Hbox Hradius Hand Hor Hnot.
  refine (fix IH (f : Filter) : P f :=
            let all :=
              fix all (l : list Filter) : Forall P l :=
                match l with
                | [] => @List.Forall_nil _ _
                | x :: l' => @List.Forall_cons _ _ x l' (IH x) (all l')
                end in
            match f with
            | MatchFilter key value => Hmatch key value
            | RangeFilter key gte lte gt lt => Hrange key gte lte gt lt
            | GeoBoundingBoxFilter key tl br => Hbox key tl br
            | GeoRadiusFilter key center radius => Hradius key center radius
            | AndFilter children => Hand children (all children)
            | OrFilter children => Hor children (all children)
            | NotFilter children => Hnot children (all children)
            end).
Qed.

Lemma wf_children children :
  Forall (fun f => finite_filter f = true -> wf_tree (to_tree f) = true)
    children ->
  forallb finite_filter children = true ->
  forallb wf_tree (map to_tree children) = true.
Proof.
  induction 1 as [|f l Hf _ IH]; [reflexivity|].
  simpl. intros H. apply andb_true_iff in H as [H1 H2].
  now rewrite Hf, IH.
Qed.

Lemma finite_filter_wf f :
  finite_filter f = true -> wf_tree (to_tree f) = true.
Proof.
  induction f as [ key value | key gte lte gt lt | key tl br
                 | key center radius | l IH | l IH | l IH ]
    using Filter_nested_ind; simpl; intros Hfin.
  - destruct value; simpl; try reflexivity. now rewrite Hfin.
  - apply andb_true_iff in Hfin as [Hfin Hlt].
    apply andb_true_iff in Hfin as [Hfin Hgt].
    apply andb_true_iff in Hfin as [Hgte Hlte].
    destruct gte, lte, gt, lt; simpl in *;
      repeat match goal with
             | H : finite _ = true |- _ => rewrite H; clear H
             end; reflexivity.
  - apply andb_true_iff in Hfin as [Htl Hbr].
    apply andb_true_iff in Htl as [H1 H2].
    apply andb_true_iff in Hbr as [H3 H4].
    now rewrite H1, H2, H3, H4.
  - apply andb_true_iff in Hfin as [Hc Hr].
    apply andb_true_iff in Hc as [H1 H2].
    now rewrite H1, H2, Hr.
  - now rewrite (wf_children l IH Hfin).
  - now rewrite (wf_children l IH Hfin).
  - now rewrite (wf_children l IH Hfin).
Qed.

(** *** Deep equality *)

Lemma num_same_refl x : num_same x x = true.
Proof.
  destruct x as [neg ds pt| | |]; try reflexivity.
  unfold num_same, num_eq, num_compare, fin_compare.
  now rewrite Z.compare_refl.
Qed.

Lemma assoc_distinct {A : Type} k (v : A) props :
  distinct (map fst props) = true ->
  In (k, v) props ->
  assoc k props = Some v.
Proof.
  induction props as [|[k' v'] props IH]; [contradiction|].
  simpl. intros Hd Hin. apply andb_true_iff in Hd as [Hk Hd].
  apply negb_true_iff in Hk.
  destruct Hin as [Heq | Hin].
  - injection Heq as -> ->. now rewrite String.eqb_refl.
  - destruct (String.eqb k k') eqn:Hkk; [|now apply IH].
    apply String.eqb_eq in Hkk. subst k'.
    assert (existsb (String.eqb k) (map fst props) = true) as Hex.
    { apply existsb_exists. exists k. split; [|apply String.eqb_refl].
      apply (in_map fst) in Hin. exact Hin. }
    congruence.
Qed.

Lemma deep_equal_refl t : wf_tree t = true -> deep_equal t t = true.
Proof.
  induction t as [ | | b | x | s | props IH | elems IH ] using tree_nested_ind;
    intros Hwf; simpl.
  - reflexivity.
  - reflexivity.
  - now destruct b.
  - apply num_same_refl.
  - apply String.eqb_refl.
  - simpl in Hwf. apply andb_true_iff in Hwf as [Hd Hall].
    rewrite Nat.eqb_refl. simpl.
    assert (Hgen : forall l,
      (forall kv, In kv l -> In kv props) ->
      forallb (fun kv => wf_tree (snd kv)) l = true ->
      Forall (fun kv => wf_tree (snd kv) = true ->
                        deep_equal (snd kv) (snd kv) = true) l ->
      (fix all_keys (ps : list (string * tree)) : bool :=
         match ps with
         | [] => true
         | (k, v) :: ps' =>
             match assoc k props with
             | Some w => deep_equal v w
             | None => false
             end && all_keys ps'
         end) l = true).
    { induction l as [|[k v] l IHl]; intros Hsub Hl Hrec; [reflexivity|].
      simpl in Hl. apply andb_true_iff in Hl as [Hv Hl].
      inversion Hrec as [|? ? Hkv Hrec']; subst.
      rewrite (assoc_distinct k v props Hd) by (apply Hsub; now left).
      simpl in Hkv. rewrite (Hkv Hv). simpl.
      apply IHl; auto. intros kv Hin. apply Hsub. now right. }
    apply Hgen; auto.
  - simpl in Hwf. induction IH as [|e es He _ IHes]; [reflexivity|].
    simpl in Hwf. apply andb_true_iff in Hwf as [Hv Hall].
    now rewrite (He Hv), IHes.
Qed.

(** *** [serializeFilter] *)

Lemma serializeFilter_plain h filter t :
  snapshot h filter = Plain t ->
  serializeFilter filter h = (Ok (JSON_stringify t), h).
Proof. intros H. unfold serializeFilter. now rewrite H. Qed.




(** A bound that is present and [undefined] is dropped from the text, so
    such a filter does not round-trip either, although it is a tree with
    finite numbers that the validator accepts. *)
Lemma undefined_bound_does_not_round_trip :
  (FilterBuilder.new ≫= fun b =>
   FilterBuilder.addCondition b undefined_bound_filter ;;
   FilterBuilder.build b) empty_heap
  = (Ok undefined_bound_filter, undefined_bound_store)
  /\ validateFilterCondition undefined_bound_filter = Ok tt
  /\ ~ round_trips undefined_bound_store undefined_bound_filter.
Proof.
  split; [reflexivity|]. split; [reflexivity|].
  intros (t & s & t' & Hsnap & Hser & Hparse & Heq).
  vm_compute in Hsnap. injection Hsnap as <-.
  vm_compute in Hser. injection Hser as <-.
  vm_compute in Hparse. injection Hparse as <-.
  vm_compute in Heq. discriminate.
Qed.

(** A builder can also produce a filter that holds itself, which
    [serializeFilter] cannot serialize at all. *)
Lemma circular_filter_is_not_serialized :
  (FilterBuilder.new ≫= fun b =>
   FilterBuilder.addCondition b match_a ;;
   FilterBuilder.addCondition b match_b ;;
   f ← FilterBuilder.build b ;
   FilterBuilder.addCondition b f ;;
   mret f) empty_heap
  = (Ok (JObj [("must", JArr 0)]), circular_store)
  /\ serializeFilter (JObj [("must", JArr 0)]) circular_store
     = (Throw (TypeError "Converting circular structure to JSON"),
        circular_store).
Proof. split; reflexivity. Qed.

(** *** Snapshots always finish *)

Lemma jsval_nested_ind (P : jsval -> Prop) :
  P JUndef -> P JNull -> (forall b, P (JBool b)) -> (forall x, P (JNum x)) ->
  (forall s, P (JStr s)) ->
  (forall props, Forall (fun kv => P (snd kv)) props -> P (JObj props)) ->
  (forall a, P (JArr a)) ->
  forall v, P v.
Proof.
  intros Hundef Hnull Hbool Hnum Hstr Hobj Harr.
  refine (fix IH (v : jsval) : P v :=
            match v with
            | JUndef => Hundef
            | JNull => Hnull
            | JBool b => Hbool b
            | JNum x => Hnum x
            | JStr s => Hstr s
            | JObj props =>
                Hobj props
                  ((fix all (ps : list (string * jsval))
                      : Forall (fun kv => P (snd kv)) ps :=
                      match ps with
                      | [] => @List.Forall_nil _ _
                      | kv :: ps' =>
                          @List.Forall_cons _ _ kv ps' (IH (snd kv)) (all ps')
                      end) props)
            | JArr a => Harr a
            end).
Qed.

Lemma snapshot_at_object fuel store stack props :
  snapshot_at fuel store stack (JObj props)
  = snap_props (map (fun kv => (fst kv, snapshot_at fuel store stack (snd kv)))
                  props).
Proof.
  destruct fuel; simpl; f_equal;
    induction props as [|[k x] ps IH]; simpl; f_equal; assumption.
Qed.

Lemma snapshot_at_array fuel store stack a :
  snapshot_at fuel store stack (JArr a)
  = if bool_decide (a ∈ stack) then Circular
    else match fuel with
         | 0 => Unfinished
         | S fuel' =>
             match store !! a with
             | None => Unfinished
             | Some l =>
                 snap_array (map (snapshot_at fuel' store (a :: stack)) l)
             end
         end.
Proof. now destruct fuel. Qed.

Lemma snap_props_finishes l :
  Forall (fun kr => snd kr <> Unfinished) l -> snap_props l <> Unfinished.
Proof.
  induction 1 as [|[k r] l Hr _ IH]; [discriminate|].
  simpl in *. destruct r; try congruence.
  destruct (snap_props l) as [[]| |]; congruence.
Qed.

Lemma snap_array_finishes l :
  Forall (fun r => r <> Unfinished) l -> snap_array l <> Unfinished.
Proof.
  intros H. unfold snap_array.
  assert (Hlist : snap_list l <> None).
  { induction H as [|r l Hr _ IH]; [discriminate|].
    simpl. destruct r; try congruence.
    destruct (snap_list l) as [[]|]; congruence. }
  destruct (snap_list l) as [[]|]; congruence.
Qed.

Lemma distinct_locs_bounded (n : nat) (stack : list loc) :
  NoDup stack -> (forall a, a ∈ stack -> a < n) -> length stack <= n.
Proof.
  intros Hnd Hlt.
  transitivity (length (seq 0 n)); [|now rewrite length_seq].
  apply NoDup_incl_length.
  - now apply NoDup_ListNoDup.
  - intros a Hin. apply in_seq. apply list_elem_of_In, Hlt in Hin. lia.
Qed.

(** In a store whose references all point into it, reading a value ends
    with a tree or with a cycle. *)
Lemma snapshot_at_finishes store :
  closed_store store = true ->
  forall fuel stack v,
    closed_val (length store) v = true ->
    NoDup stack ->
    (forall a, a ∈ stack -> a < length store) ->
    length store <= length stack + fuel ->
    snapshot_at fuel store stack v <> Unfinished.
Proof.
  intros Hstore fuel.
  induction fuel as [|fuel IHfuel]; intros stack v;
    induction v as [ | | b | x | s | props IH | a ] using jsval_nested_ind;
    intros Hv Hnd Hlt Hlen; try discriminate.
  - rewrite snapshot_at_object. apply snap_props_finishes.
    simpl in Hv. rewrite forallb_forall in Hv.
    rewrite List.Forall_forall in IH |- *.
    intros kr Hin. apply in_map_iff in Hin as (kv & <- & Hin).
    simpl. apply IH; auto.
  - rewrite snapshot_at_array. case_bool_decide; [discriminate|].
    exfalso. simpl in Hv. apply Nat.ltb_lt in Hv.
    pose proof (distinct_locs_bounded (length store) (a :: stack)) as Hb.
    simpl in Hb. enough (S (length stack) <= length store) by lia.
    apply Hb.
    + now constructor.
    + intros a' Ha'. apply elem_of_cons in Ha' as [-> | Ha']; auto.
  - rewrite snapshot_at_object. apply snap_props_finishes.
    simpl in Hv. rewrite forallb_forall in Hv.
    rewrite List.Forall_forall in IH |- *.
    intros kr Hin. apply in_map_iff in Hin as (kv & <- & Hin).
    simpl. apply IH; auto.
  - rewrite snapshot_at_array. case_bool_decide; [discriminate|].
    simpl in Hv. apply Nat.ltb_lt in Hv.
    destruct (store !! a) as [l|] eqn:Hl;
      [|apply lookup_ge_None in Hl; lia].
    apply snap_array_finishes. rewrite List.Forall_forall.
    intros r Hin. apply in_map_iff in Hin as (x & <- & Hin).
    apply IHfuel.
    + unfold closed_store in Hstore. rewrite forallb_forall in Hstore.
      assert (Hlin : In l store)
        by (apply list_elem_of_In, list_elem_of_lookup; eauto).
      specialize (Hstore l Hlin). rewrite forallb_forall in Hstore. auto.
    + now constructor.
    + intros a' Ha'. apply elem_of_cons in Ha' as [-> | Ha']; auto.
    + simpl. lia.
Qed.

Lemma snapshot_finishes h v :
  closed_store (arrays h) = true ->
  closed_val (length (arrays h)) v = true ->
  snapshot h v <> Unfinished.
Proof.
  intros Hstore Hv. unfold snapshot.
  apply snapshot_at_finishes;
    [ exact Hstore | exact Hv | constructor
    | intros a Ha; now apply elem_of_nil in Ha | simpl; lia ].
Qed.

(** *** What later builder calls do to a built filter *)

Lemma snapshot_same_arrays h h' v :
  arrays h' = arrays h -> snapshot h' v = snapshot h v.
Proof. unfold snapshot. now intros ->. Qed.

(** C2 as stated fails: the filter built from two conditions reads
    differently after a third condition is appended to the builder. *)
Lemma built_filter_changes_on_append :
  (FilterBuilder.new ≫= fun b =>
   Field.equals (Field.where_ b "a") (MNumber (num_of_Z 1)) ;;
   Field.equals (Field.where_ b "b") (MNumber (num_of_Z 2)) ;;
   FilterBuilder.build b) empty_heap
  = (Ok (JObj [("must", JArr 0)]), two_store)
  /\ FilterBuilder.addCondition 0 match_c two_store = (Ok 0, three_store)
  /\ snapshot two_store (JObj [("must", JArr 0)])
     = Plain (TObj [("must", TArr [to_tree (MatchFilter "a" (MNumber (num_of_Z 1)));
                                   to_tree (MatchFilter "b" (MNumber (num_of_Z 2)))])])
  /\ snapshot two_store (JObj [("must", JArr 0)])
     <> snapshot three_store (JObj [("must", JArr 0)]).
Proof.
  split; [reflexivity|]. split; [reflexivity|]. split; [reflexivity|].
  vm_compute. discriminate.
Qed.

Lemma andAll_orAny_contributions_witness :
  FilterBuilder.andAll 0 [1; 2] family_store
  = (Ok 0, with_conditions family_store 0 [JObj [("should", JArr 1)]])
  /\ FilterBuilder.orAny 0 [1; 2] family_store
     = (Ok 0,
        with_conditions
          (with_fresh_array family_store [JObj [("should", JArr 1)]]) 0
          [JObj [("should", JArr 3)]]).
Proof.
  assert (Htyped : Forall (typed_builder family_store) [1; 2]).
  { repeat constructor.
    - exists {| conditions := 1; logicalOperator := should |},
             [match_a; match_b].
      repeat split; reflexivity.
    - exists {| conditions := 2; logicalOperator := must |}, [].
      repeat split; reflexivity. }
  assert (Hother : Forall (owns_other_array family_store 0) [1; 2]).
  { repeat constructor; intros b0 Hb0; injection Hb0 as <-; discriminate. }
  destruct (andAll_orAny_contributions family_store 0 fresh_builder []
              [1; 2] eq_refl eq_refl Htyped) as (Hand & _ & Hor).
  split; [exact (Hand Hother) | exact Hor].
Defined.

(** A builder given to its own [andAll] appends the composite over its own
    array to that array. *)
Lemma andAll_of_itself :
  FilterBuilder.andAll 0 [0] two_store = (Ok 0, circular_store).
Proof. reflexivity. Qed.

(** * More of the module *)

(** ** Comparisons *)

Lemma fin_compare_antisym na da pa nb db pb :
  fin_compare nb db pb na da pa = CompOpp (fin_compare na da pa nb db pb).
Proof. unfold fin_compare. rewrite Z.min_comm. apply Z.compare_antisym. Qed.

Lemma num_lt_not_le x b :
  isFinite x = true -> isFinite b = true -> num_lt x b = negb (num_le b x).
Proof.
  destruct x, b; try discriminate. intros _ _.
  unfold num_lt, num_le, num_compare.
  rewrite (fin_compare_antisym neg ds pt neg0 ds0 pt0).
  now destruct (fin_compare neg ds pt neg0 ds0 pt0).
Qed.

Lemma num_gt_not_le x b :
  isFinite x = true -> isFinite b = true -> num_gt x b = negb (num_le x b).
Proof.
  destruct x, b; try discriminate. intros _ _.
  unfold num_gt, num_le, num_compare.
  now destruct (fin_compare neg ds pt neg0 ds0 pt0).
Qed.

Lemma isFinite_num_of_Z z : isFinite (num_of_Z z) = true.
Proof.
  unfold num_of_Z, num_lit.
  now destruct (strip_trailing (strip_leading (nat_digits (Z.abs_nat z)))).
Qed.

(** ** The validator, block by block *)

Lemma throw_if_ok c e : throw_if c e = Ok tt <-> c = false.
Proof. destruct c; simpl; split; congruence. Qed.

Lemma throw_if_validation c m t f :
  is_type_error (throw_if c (FilterValidationError m t f)) = false.
Proof. now destruct c. Qed.

(** What [validateGeoPoint] decides on a point given as two numbers. *)
Lemma validateGeoPoint_numbers (p : GeoPoint) (context : string) :
  (validateGeoPoint (geo_point p) context = Ok tt <-> within_bounds p = true)
  /\ is_type_error (validateGeoPoint (geo_point p) context) = false.
Proof.
  unfold validateGeoPoint, geo_point, within_bounds. munfold.
  cbn -[num_of_Z num_le num_lt num_gt].
  destruct (isFinite (lat p)) eqn:Hlat; [|split; [split; discriminate|reflexivity]].
  destruct (isFinite (lon p)) eqn:Hlon; [|split; [split; discriminate|reflexivity]].
  rewrite !num_lt_not_le, !num_gt_not_le
    by (assumption || apply isFinite_num_of_Z).
  destruct (num_le (num_of_Z (-90)) (lat p)), (num_le (lat p) (num_of_Z 90)),
    (num_le (num_of_Z (-180)) (lon p)), (num_le (lon p) (num_of_Z 180));
    cbn; split; try reflexivity; split; congruence.
Qed.

Lemma no_type_error_bind {A B : Type} (m : res A) (f : A -> res B) :
  is_type_error m = false ->
  (forall a, m = Ok a -> is_type_error (f a) = false) ->
  is_type_error (m ≫= f) = false.
Proof.
  intros Hm Hf. destruct m as [a|e]; [now apply Hf|]. exact Hm.
Qed.

Lemma get_prop_present v name :
  nullish v = false -> get_prop v name = Ok (match v with
                                             | JObj props => prop name props
                                             | _ => JUndef
                                             end).
Proof. now destruct v. Qed.

Ltac no_type_error :=
  repeat first
    [ apply throw_if_validation
    | apply no_type_error_bind; [|intros ? ?]
    | reflexivity ].

(** [validateGeoPoint] throws nothing but the module's own error, whatever
    it is given. *)
Lemma validateGeoPoint_no_type_error (point : jsval) (context : string) :
  is_type_error (validateGeoPoint point context) = false.
Proof.
  unfold validateGeoPoint.
  destruct (nullish point) eqn:Hnull.
  - destruct point; try discriminate; reflexivity.
  - rewrite !(get_prop_present point _ Hnull). no_type_error.
Qed.

Lemma bind_ok_unit (m : res unit) : (m ;; Ok tt) = m.
Proof. now destruct m as [[]|]. Qed.

Lemma key_check (key : jsval) :
  negb (truthy key) || negb (is_string key) = negb (nonempty_string key).
Proof.
  destruct key as [ | | b | x | s | ps | a ]; simpl;
    rewrite ?orb_true_r; try reflexivity.
  unfold nonempty. now destruct (String.eqb s "").
Qed.

Lemma for_each_throw_if {A : Type} (c : A -> bool) (e : error) (l : list A) :
  for_each l (fun v => throw_if (c v) e) = throw_if (existsb c l) e.
Proof.
  induction l as [|x l IH]; [reflexivity|].
  simpl. munfold. destruct (c x); simpl; [reflexivity|exact IH].
Qed.

(** The [match] block. *)
Lemma validate_match_eq (props : list (string * jsval)) :
  validateFilterCondition (JObj [("match", JObj props)])
  = (throw_if (negb (nonempty_string (prop "key" props)))
       (FilterValidationError "Match filter must have a valid key"
          (Some "match") None) ;;
     throw_if (nullish (prop "value" props))
       (FilterValidationError "Match filter must have a value"
          (Some "match") (string_of (prop "key" props)))).
Proof.
  unfold validateFilterCondition, when_tagged. munfold.
  cbn -[validate_match]. unfold validate_match. munfold.
  cbn [get_prop assoc String.eqb Ascii.eqb Bool.eqb default]. unfold id.
  change (get_prop (JObj props) "key") with (Ok (prop "key" props)).
  change (get_prop (JObj props) "value") with (Ok (prop "value" props)).
  cbv beta iota. fold (nullish (prop "value" props)).
  rewrite key_check.
  now destruct (throw_if (negb (nonempty_string (prop "key" props))) _) as [[]|];
    [destruct (throw_if _ _) as [[]|]|].
Qed.

Lemma bad_bound (v : jsval) :
  negb (is_number v) || negb (js_isFinite v) = negb (finite_number v).
Proof. destruct v; try reflexivity. Qed.

Lemma existsb_pointwise {A : Type} (f g : A -> bool) (l : list A) :
  (forall x, f x = g x) -> existsb f l = existsb g l.
Proof. intros H. induction l as [|x l IH]; simpl; congruence. Qed.

(** The [range] block. *)
Lemma validate_range_eq (props : list (string * jsval)) :
  validateFilterCondition (JObj [("range", JObj props)])
  = (throw_if (negb (nonempty_string (prop "key" props)))
       (FilterValidationError "Range filter must have a valid key"
          (Some "range") None) ;;
     throw_if (negb (existsb defined (range_bounds props)))
       (FilterValidationError "Range filter must have at least one condition"
          (Some "range") (string_of (prop "key" props))) ;;
     throw_if (existsb (fun v => negb (finite_number v))
                 (List.filter defined (range_bounds props)))
       (FilterValidationError "Range filter values must be finite numbers"
          (Some "range") (string_of (prop "key" props)))).
Proof.
  match goal with |- _ = ?R => remember R as rhs eqn:Hrhs end.
  unfold validateFilterCondition, when_tagged. munfold.
  cbn -[validate_range]. unfold validate_range. munfold.
  cbn [get_prop assoc String.eqb Ascii.eqb Bool.eqb default]. unfold id.
  change (get_prop (JObj props) "key") with (Ok (prop "key" props)).
  change (get_prop (JObj props) "gte") with (Ok (prop "gte" props)).
  change (get_prop (JObj props) "lte") with (Ok (prop "lte" props)).
  change (get_prop (JObj props) "gt") with (Ok (prop "gt" props)).
  change (get_prop (JObj props) "lt") with (Ok (prop "lt" props)).
  cbv beta iota zeta.
  rewrite key_check.
  rewrite (for_each_throw_if
             (fun v => negb (is_number v) || negb (js_isFinite v))).
  rewrite (existsb_pointwise _ (fun v => negb (finite_number v)))
    by (intros v; apply bad_bound).
  replace (negb (is_undefined (prop "gte" props))
           || negb (is_undefined (prop "lte" props))
           || negb (is_undefined (prop "gt" props))
           || negb (is_undefined (prop "lt" props)))
    with (existsb defined (range_bounds props))
    by (unfold range_bounds, defined; simpl;
        now rewrite orb_false_r, !orb_assoc).
  fold (range_bounds props). fold defined.
  subst rhs. munfold.
  repeat match goal with
         | |- context [throw_if ?c ?e] =>
             destruct (throw_if c e) as [[]|]; try reflexivity
         end.
Qed.

(** The [geo_bounding_box] block. *)
Lemma validate_box_props (props : list (string * jsval)) :
  validateFilterCondition (JObj [("geo_bounding_box", JObj props)])
  = (throw_if (negb (nonempty_string (prop "key" props)))
       (FilterValidationError
          "Geographic bounding box filter must have a valid key"
          (Some "geo_bounding_box") None) ;;
     top_left ← get_prop (prop "bounding_box" props) "top_left" ;
     validateGeoPoint top_left "top_left" ;;
     bottom_right ← get_prop (prop "bounding_box" props) "bottom_right" ;
     validateGeoPoint bottom_right "bottom_right").
Proof.
  match goal with |- _ = ?R => remember R as rhs eqn:Hrhs end.
  unfold validateFilterCondition, when_tagged. munfold.
  cbn -[validate_geo_bounding_box]. unfold validate_geo_bounding_box. munfold.
  change (get_prop (JObj [("geo_bounding_box", JObj props)])
            "geo_bounding_box") with (Ok (JObj props)).
  cbv beta iota.
  change (get_prop (JObj props) "key") with (Ok (prop "key" props)).
  change (get_prop (JObj props) "bounding_box")
    with (Ok (prop "bounding_box" props)).
  cbv beta iota.
  rewrite key_check. subst rhs. munfold.
  destruct (throw_if (negb (nonempty_string (prop "key" props))) _)
    as [[]|]; [|reflexivity].
  destruct (get_prop (prop "bounding_box" props) "top_left") as [tl|];
    [|reflexivity].
  destruct (validateGeoPoint tl "top_left") as [[]|]; [|reflexivity].
  destruct (get_prop (prop "bounding_box" props) "bottom_right") as [br|];
    [|reflexivity].
  now destruct (validateGeoPoint br "bottom_right") as [[]|].
Qed.

Lemma validate_box_eq (key top_left bottom_right : jsval) :
  validateFilterCondition (bounding_box_condition key top_left bottom_right)
  = (throw_if (negb (nonempty_string key))
       (FilterValidationError
          "Geographic bounding box filter must have a valid key"
          (Some "geo_bounding_box") None) ;;
     validateGeoPoint top_left "top_left" ;;
     validateGeoPoint bottom_right "bottom_right").
Proof. unfold bounding_box_condition. now rewrite validate_box_props. Qed.

(** The [geo_radius] block. *)
Lemma validate_radius_props (props : list (string * jsval)) :
  validateFilterCondition (JObj [("geo_radius", JObj props)])
  = (throw_if (negb (nonempty_string (prop "key" props)))
       (FilterValidationError "Geographic radius filter must have a valid key"
          (Some "geo_radius") None) ;;
     validateGeoPoint (prop "center" props) "center" ;;
     throw_if (negb (is_number (prop "radius" props))
               || js_le (prop "radius" props) (num_of_Z 0))
       (FilterValidationError "Geographic radius must be a positive number"
          (Some "geo_radius") (string_of (prop "key" props)))).
Proof.
  match goal with |- _ = ?R => remember R as rhs eqn:Hrhs end.
  unfold validateFilterCondition, when_tagged. munfold.
  cbn -[validate_geo_radius]. unfold validate_geo_radius. munfold.
  change (get_prop (JObj [("geo_radius", JObj props)]) "geo_radius")
    with (Ok (JObj props)).
  cbv beta iota.
  change (get_prop (JObj props) "key") with (Ok (prop "key" props)).
  change (get_prop (JObj props) "center") with (Ok (prop "center" props)).
  change (get_prop (JObj props) "radius") with (Ok (prop "radius" props)).
  cbv beta iota.
  rewrite key_check. subst rhs. munfold.
  destruct (throw_if (negb (nonempty_string (prop "key" props))) _)
    as [[]|]; [|reflexivity].
  destruct (validateGeoPoint (prop "center" props) "center") as [[]|];
    [|reflexivity].
  now destruct (throw_if _ _) as [[]|].
Qed.

Lemma validate_radius_eq (key center radius : jsval) :
  validateFilterCondition (geo_radius_condition key center radius)
  = (throw_if (negb (nonempty_string key))
       (FilterValidationError "Geographic radius filter must have a valid key"
          (Some "geo_radius") None) ;;
     validateGeoPoint center "center" ;;
     throw_if (negb (is_number radius) || js_le radius (num_of_Z 0))
       (FilterValidationError "Geographic radius must be a positive number"
          (Some "geo_radius") (string_of key))).
Proof. unfold geo_radius_condition. now rewrite validate_radius_props. Qed.

Lemma defined_bounds_ok (l : list jsval) :
  existsb (fun v => negb (finite_number v)) (List.filter defined l) = false
  <-> forallb bound_ok l = true.
Proof.
  induction l as [|v l IH]; [simpl; tauto|].
  simpl. unfold bound_ok at 1, defined at 1.
  destruct (is_undefined v); simpl; [exact IH|].
  destruct (finite_number v); simpl; [exact IH|]. split; discriminate.
Qed.

(** ** What the validator accepts *)

(** X1: [validateGeoPoint] accepts a point given as two numbers exactly when
    both are finite, the latitude is between -90 and 90 and the longitude
    between -180 and 180, the bounds included; and whatever value it is
    given instead of a point, it throws nothing but the module's own
    validation error. *)
Theorem geo_point_accepted_iff (p : GeoPoint) (point : jsval)
    (context : string) :
  (validateGeoPoint (geo_point p) context = Ok tt <-> within_bounds p = true)
  /\ validateGeoPoint (geo_point north_east) context = Ok tt
  /\ validateGeoPoint (geo_point south_west) context = Ok tt
  /\ is_type_error (validateGeoPoint point context) = false.
Proof.
  split; [apply validateGeoPoint_numbers|].
  split; [now apply (validateGeoPoint_numbers north_east)|].
  split; [now apply (validateGeoPoint_numbers south_west)|].
  apply validateGeoPoint_no_type_error.
Qed.

(** X2: the validator accepts a [match] condition exactly when its key is a
    non-empty string and its value is neither [undefined] nor [null]; the
    type of the value is not looked at. *)
Theorem match_accepted_iff (props : list (string * jsval)) :
  validateFilterCondition (JObj [("match", JObj props)]) = Ok tt
  <-> nonempty_string (prop "key" props) = true
      /\ nullish (prop "value" props) = false.
Proof.
  rewrite validate_match_eq. munfold.
  destruct (nonempty_string (prop "key" props)); simpl;
    [|split; [discriminate | intros [? _]; discriminate]].
  rewrite throw_if_ok. tauto.
Qed.

(** X3: the validator accepts a [range] condition exactly when its key is a
    non-empty string, at least one of [gte], [lte], [gt], [lt] is defined
    and every defined one is a finite number; it does not compare the
    bounds with one another. *)
Theorem range_accepted_iff (props : list (string * jsval)) :
  validateFilterCondition (JObj [("range", JObj props)]) = Ok tt
  <-> nonempty_string (prop "key" props) = true
      /\ existsb defined (range_bounds props) = true
      /\ forallb bound_ok (range_bounds props) = true.
Proof.
  rewrite validate_range_eq. munfold.
  destruct (nonempty_string (prop "key" props)); cbn [throw_if negb];
    [|split; [discriminate | intros [? _]; discriminate]].
  destruct (existsb defined (range_bounds props)); cbn [throw_if negb];
    [|split; [discriminate | intros (_ & ? & _); discriminate]].
  rewrite throw_if_ok, defined_bounds_ok. tauto.
Qed.

(** X4: the validator accepts a bounding box over two points given as
    numbers exactly when the key is not empty and both corners are points it
    accepts; where the corners lie relative to each other is not looked
    at. *)
Theorem bounding_box_accepted_iff (field : string)
    (top_left bottom_right : GeoPoint) :
  validateFilterCondition
    (bounding_box_condition (JStr field) (geo_point top_left)
       (geo_point bottom_right)) = Ok tt
  <-> nonempty field && within_bounds top_left && within_bounds bottom_right
      = true.
Proof.
  rewrite validate_box_eq. munfold. cbn [nonempty_string].
  destruct (validateGeoPoint_numbers top_left "top_left") as [[Htl1 Htl2] _].
  destruct (validateGeoPoint_numbers bottom_right "bottom_right") as [Hbr _].
  destruct (nonempty field); simpl; [|split; discriminate].
  destruct (validateGeoPoint (geo_point top_left) "top_left") as [[]|e].
  - pose proof (Htl1 eq_refl) as Hw. rewrite Hw. simpl. exact Hbr.
  - destruct (within_bounds top_left); simpl; [|split; discriminate].
    specialize (Htl2 eq_refl). discriminate.
Qed.

(** X5: on a condition with one leaf tag the validator throws a [TypeError]
    instead of its own validation error exactly when the payload of the tag
    is [undefined] or [null], or the tag is [geo_bounding_box] and its
    payload has a usable key but no [bounding_box]. *)
Theorem validator_type_error_iff (tag : string) (payload : jsval) :
  In tag leaf_tags ->
  is_type_error (validateFilterCondition (JObj [(tag, payload)]))
  = nullish payload || missing_box tag payload.
Proof.
  intros Hin. simpl in Hin.
  destruct Hin as [<-|[<-|[<-|[<-|[]]]]];
    destruct payload as [ | | b | x | s | props | a ]; try reflexivity.
  - rewrite validate_match_eq. no_type_error.
  - rewrite validate_range_eq. no_type_error.
  - rewrite validate_box_props. unfold missing_box. cbn [String.eqb nullish is_undefined is_null orb andb].
    simpl String.eqb. cbn [andb orb].
    destruct (nonempty_string (prop "key" props)); [|reflexivity].
    cbn [negb throw_if]. munfold.
    destruct (nullish (prop "bounding_box" props)) eqn:Hbox.
    + destruct (prop "bounding_box" props); try discriminate; reflexivity.
    + rewrite !(get_prop_present _ _ Hbox).
      cbn [andb].
      pose proof (validateGeoPoint_no_type_error
                    (match prop "bounding_box" props with
                     | JObj ps => prop "top_left" ps
                     | _ => JUndef
                     end) "top_left") as H1.
      destruct (validateGeoPoint _ "top_left") as [[]|e1]; [|exact H1].
      apply validateGeoPoint_no_type_error.
  - rewrite validate_radius_props.
    pose proof (validateGeoPoint_no_type_error (prop "center" props) "center")
      as Hcenter.
    cbn [nullish is_undefined is_null orb missing_box]. simpl String.eqb.
    cbn [andb]. munfold.
    destruct (throw_if (negb (nonempty_string (prop "key" props))) _)
      as [[]|] eqn:Hk;
      [|destruct (nonempty_string (prop "key" props)); simpl in Hk;
        [discriminate | injection Hk as <-; reflexivity]].
    destruct (validateGeoPoint (prop "center" props) "center") as [[]|e];
      [apply throw_if_validation | exact Hcenter].
Qed.

Lemma validator_type_error_iff_witness :
  is_type_error (validateFilterCondition
                   (JObj [("geo_bounding_box", JObj [("key", JStr "loc")])]))
  = true.
Proof.
  rewrite (validator_type_error_iff "geo_bounding_box"
             (JObj [("key", JStr "loc")])).
  - reflexivity.
  - simpl. tauto.
Defined.

(** ** Terminal calls *)

Lemma with_fresh_array_builder h l r :
  builders (with_fresh_array h l) !! r = builders h !! r.
Proof. reflexivity. Qed.

Lemma with_fresh_array_old h l0 a l :
  arrays h !! a = Some l -> arrays (with_fresh_array h l0) !! a = Some l.
Proof.
  intros H. unfold with_fresh_array; cbn [arrays].
  rewrite lookup_app_l by (eapply lookup_lt_Some; eassumption). exact H.
Qed.

Lemma run_predicate_appends (h : heap) (this : FieldFilter)
    (b : BuilderObj) (l : list jsval) (p : predicate) :
  builders h !! builder this = Some b ->
  arrays h !! conditions b = Some l ->
  eager_rejects p = false ->
  run_predicate this p h
  = (Ok (builder this),
     with_conditions (predicate_base h (field this) p) (conditions b)
       (l ++ [predicate_condition (field this) (length (arrays h)) p])).
Proof.
  intros Hb Hl Hrej.
  destruct p; simpl in Hrej |- *;
    try apply (addCondition_ok h (builder this) b l Hb Hl).
  - unfold Field.notEquals. munfold. unfold alloc_array at 1.
    fold (with_fresh_array h [createEqualityFilter (field this) value]).
    apply addCondition_ok; [exact Hb|].
    now apply with_fresh_array_old.
  - unfold Field.inRange. rewrite Hrej.
    apply (addCondition_ok h (builder this) b l Hb Hl).
  - unfold Field.withinRadius. rewrite Hrej.
    apply (addCondition_ok h (builder this) b l Hb Hl).
Qed.

(** X6: of the terminal calls on a field only [inRange] with [min > max] and
    [withinRadius] with [radiusMeters <= 0] throw, and they throw the
    module's validation error with the store as it was; every other call
    returns the owning builder with exactly one condition appended to its
    list, [notEquals] having made one array of its own for the negated
    match. *)
Theorem terminal_call_appends_one (h : heap) (this : FieldFilter)
    (b : BuilderObj) (l : list jsval) (p : predicate) :
  builders h !! builder this = Some b ->
  arrays h !! conditions b = Some l ->
  (eager_rejects p = true ->
   snd (run_predicate this p h) = h
   /\ is_validation_error (fst (run_predicate this p h)) = true)
  /\ (eager_rejects p = false ->
      run_predicate this p h
      = (Ok (builder this),
         with_conditions (predicate_base h (field this) p) (conditions b)
           (l ++ [predicate_condition (field this) (length (arrays h)) p]))).
Proof.
  intros Hb Hl. split; intros Hrej.
  - destruct p; try discriminate; simpl in Hrej |- *.
    + unfold Field.inRange. now rewrite Hrej.
    + unfold Field.withinRadius. now rewrite Hrej.
  - now apply run_predicate_appends.
Qed.

Lemma terminal_call_appends_one_witness :
  run_predicate price_field (NotEquals (MNumber (num_of_Z 1))) fresh_store
  = (Ok 0,
     {| arrays := [[JObj [("must_not", JArr 1)]];
                   [createEqualityFilter "price" (MNumber (num_of_Z 1))]];
        builders := [fresh_builder] |}).
Proof.
  destruct (terminal_call_appends_one fresh_store price_field fresh_builder []
              (NotEquals (MNumber (num_of_Z 1))) eq_refl eq_refl)
    as [_ Happend].
  exact (Happend eq_refl).
Defined.

Lemma seq_ok (m k : res unit) :
  (m ;; k) = Ok tt <-> m = Ok tt /\ k = Ok tt.
Proof.
  munfold. destruct m as [[]|e]; [tauto|].
  split; [discriminate | intros [? _]; discriminate].
Qed.

Lemma is_true_and (a b : bool) : a && b = true <-> a = true /\ b = true.
Proof. apply andb_true_iff. Qed.

Lemma match_value_present (v : MatchValue) : nullish (match_value v) = false.
Proof. now destruct v. Qed.

Lemma appended_condition_check (field : string) (fresh : loc)
    (p : predicate) :
  validateFilterCondition (predicate_condition field fresh p) = Ok tt
  <-> deferred_accepts field p = true.
Proof.
  destruct p; cbn [predicate_condition deferred_accepts].
  - unfold createEqualityFilter. rewrite validate_match_eq, seq_ok, !throw_if_ok.
    cbn -[nonempty]. rewrite match_value_present, negb_false_iff. tauto.
  - split; [reflexivity|]. intros _.
    apply untagged_object_passes; try reflexivity.
    apply (composite_is_untagged must_not).
  - unfold range_condition.
    rewrite validate_range_eq, !seq_ok, !throw_if_ok.
    cbn -[nonempty isFinite]. rewrite is_true_and, !negb_false_iff.
    destruct (isFinite value); simpl; intuition congruence.
  - unfold range_condition.
    rewrite validate_range_eq, !seq_ok, !throw_if_ok.
    cbn -[nonempty isFinite]. rewrite is_true_and, !negb_false_iff.
    destruct (isFinite value); simpl; intuition congruence.
  - unfold range_condition.
    rewrite validate_range_eq, !seq_ok, !throw_if_ok.
    cbn -[nonempty isFinite]. rewrite is_true_and, !negb_false_iff.
    destruct (isFinite value); simpl; intuition congruence.
  - unfold range_condition.
    rewrite validate_range_eq, !seq_ok, !throw_if_ok.
    cbn -[nonempty isFinite]. rewrite is_true_and, !negb_false_iff.
    destruct (isFinite value); simpl; intuition congruence.
  - unfold range_condition.
    rewrite validate_range_eq, !seq_ok, !throw_if_ok.
    cbn -[nonempty isFinite]. rewrite !is_true_and, !negb_false_iff.
    destruct (isFinite min), (isFinite max); simpl; intuition congruence.
  - unfold createEqualityFilter. rewrite validate_match_eq, seq_ok, !throw_if_ok.
    cbn -[nonempty]. rewrite negb_false_iff. tauto.
  - unfold createEqualityFilter. rewrite validate_match_eq, seq_ok, !throw_if_ok.
    cbn -[nonempty]. rewrite match_value_present, negb_false_iff. tauto.
  - rewrite validate_box_eq, !seq_ok, throw_if_ok, !is_true_and.
    cbn [nonempty_string]. rewrite negb_false_iff.
    rewrite (proj1 (validateGeoPoint_numbers topLeft "top_left")).
    rewrite (proj1 (validateGeoPoint_numbers bottomRight "bottom_right")).
    tauto.
  - rewrite validate_radius_eq, !seq_ok, !throw_if_ok, !is_true_and.
    cbn [nonempty_string is_number typeof String.eqb js_le negb orb].
    rewrite (proj1 (validateGeoPoint_numbers center "center")).
    rewrite !negb_false_iff, negb_true_iff.
    simpl is_number. cbn [negb orb]. tauto.
Qed.

(** ** The store only grows *)

Lemma grows_refl h : grows h h.
Proof.
  split.
  - intros a l H. exists []. now rewrite app_nil_r.
  - intros r b H. now exists b.
Qed.

Lemma grows_trans h1 h2 h3 : grows h1 h2 -> grows h2 h3 -> grows h1 h3.
Proof.
  intros [A1 B1] [A2 B2]. split.
  - intros a l H. destruct (A1 a l H) as [x Hx].
    destruct (A2 a _ Hx) as [y Hy]. exists (x ++ y).
    now rewrite app_assoc.
  - intros r b H. destruct (B1 r b H) as [b1 [H1 E1]].
    destruct (B2 r b1 H1) as [b2 [H2 E2]]. exists b2. split; congruence.
Qed.

Lemma preserves_ret {A : Type} (a : A) : preserves (mret a).
Proof. intros h. apply grows_refl. Qed.

Lemma preserves_throw {A : Type} (e : error) : preserves (@throw A e).
Proof. intros h. apply grows_refl. Qed.

Lemma preserves_lift {A : Type} (r : res A) : preserves (lift r).
Proof. intros h. apply grows_refl. Qed.

Lemma preserves_bind {A B : Type} (m : M A) (k : A -> M B) :
  preserves m -> (forall a, preserves (k a)) -> preserves (m ≫= k).
Proof.
  intros Hm Hk h. unfold mbind, M_bind.
  specialize (Hm h). destruct (m h) as [[a|e] h1]; simpl in *.
  - eapply grows_trans; [exact Hm | apply Hk].
  - exact Hm.
Qed.

Lemma preserves_alloc_array l : preserves (alloc_array l).
Proof.
  intros h. unfold alloc_array. split; cbn [snd arrays builders].
  - intros a l0 H. exists [].
    rewrite lookup_app_l by (eapply lookup_lt_Some; eassumption).
    now rewrite app_nil_r.
  - intros r b H. now exists b.
Qed.

Lemma preserves_alloc_builder b : preserves (alloc_builder b).
Proof.
  intros h. unfold alloc_builder. split; cbn [snd arrays builders].
  - intros a l H. exists []. now rewrite app_nil_r.
  - intros r b0 H. exists b0. split; [|reflexivity].
    rewrite lookup_app_l by (eapply lookup_lt_Some; eassumption). exact H.
Qed.

Lemma preserves_read_array a : preserves (read_array a).
Proof.
  intros h. unfold read_array. destruct (arrays h !! a); apply grows_refl.
Qed.

Lemma preserves_get_builder r : preserves (get_builder r).
Proof.
  intros h. unfold get_builder. destruct (builders h !! r); apply grows_refl.
Qed.

Lemma preserves_push a v : preserves (push a v).
Proof.
  intros h. unfold push. destruct (arrays h !! a) as [l|] eqn:Ha;
    [|apply grows_refl].
  split; cbn [snd arrays builders].
  - intros i li Hi. destruct (decide (i = a)) as [->|Hne].
    + exists [v]. rewrite Ha in Hi. injection Hi as <-.
      apply list_lookup_insert_eq. eapply lookup_lt_Some; eassumption.
    + exists []. rewrite list_lookup_insert_ne by congruence.
      now rewrite app_nil_r.
  - intros r b H. now exists b.
Qed.

Lemma preserves_set_logicalOperator r op :
  preserves (set_logicalOperator r op).
Proof.
  intros h. unfold set_logicalOperator.
  destruct (builders h !! r) as [b|] eqn:Hr; [|apply grows_refl].
  split; cbn [snd arrays builders].
  - intros a l H. exists []. now rewrite app_nil_r.
  - intros i bi Hi. destruct (decide (i = r)) as [->|Hne].
    + eexists. split.
      * apply list_lookup_insert_eq. eapply lookup_lt_Some; eassumption.
      * simpl. congruence.
    + exists bi. split; [|reflexivity].
      now rewrite list_lookup_insert_ne by congruence.
Qed.

Create HintDb store.
#[local] Hint Resolve preserves_ret preserves_throw preserves_lift
  preserves_alloc_array preserves_alloc_builder preserves_read_array
  preserves_get_builder preserves_push preserves_set_logicalOperator : store.

Ltac preserve :=
  repeat first
    [ apply preserves_bind; [|intros ?]
    | progress auto with store
    | match goal with
      | |- preserves (if ?c then _ else _) => destruct c
      | |- preserves (match ?l with [] => _ | _ :: _ => _ end) => destruct l
      end ].

Lemma preserves_addCondition this c :
  preserves (FilterBuilder.addCondition this c).
Proof. unfold FilterBuilder.addCondition. preserve. Qed.

Lemma preserves_build this : preserves (FilterBuilder.build this).
Proof. unfold FilterBuilder.build. preserve. Qed.

Lemma preserves_andAll_loop this bs :
  preserves (FilterBuilder.andAll_loop this bs).
Proof.
  induction bs as [|r bs IH]; simpl; [auto with store|].
  apply preserves_bind; [apply preserves_build|intros filter].
  apply preserves_bind; [preserve|intros _; exact IH].
Qed.

Lemma preserves_orAny_loop a bs :
  preserves (FilterBuilder.orAny_loop a bs).
Proof.
  induction bs as [|r bs IH]; simpl; [auto with store|].
  apply preserves_bind; [apply preserves_build|intros filter].
  apply preserves_bind; [preserve|intros _; exact IH].
Qed.

Lemma preserves_run_predicate this p : preserves (run_predicate this p).
Proof.
  destruct p; simpl;
    try apply preserves_addCondition.
  - unfold Field.notEquals. preserve.
  - unfold Field.inRange. preserve.
  - unfold Field.withinRadius. preserve.
Qed.

Lemma preserves_serializeFilter filter : preserves (serializeFilter filter).
Proof.
  intros h. unfold serializeFilter.
  destruct (snapshot h filter); apply grows_refl.
Qed.

Lemma preserves_length_is_zero v : preserves (length_is_zero v).
Proof.
  intros h. unfold length_is_zero.
  destruct v; try apply grows_refl.
  destruct (arrays h !! a); apply grows_refl.
Qed.

Lemma preserves_empty_under key filter otherwise :
  preserves otherwise -> preserves (empty_under key filter otherwise).
Proof.
  intros H. unfold empty_under.
  apply preserves_bind; [auto with store|intros present].
  destruct present; [|exact H].
  apply preserves_bind; [auto with store|intros v].
  apply preserves_length_is_zero.
Qed.

Lemma preserves_operation op h : grows h (run_operation op h).
Proof.
  destruct op; cbn [run_operation].
  - unfold createFilter, FilterBuilder.new.
    apply (preserves_bind _ _ (preserves_alloc_array [])).
    intros a. apply preserves_alloc_builder.
  - apply preserves_addCondition.
  - revert h. unfold FilterBuilder.and_. change (preserves
      (set_logicalOperator this must ;; mret this)). preserve.
  - revert h. change (preserves
      (set_logicalOperator this should ;; mret this)). preserve.
  - revert h. change (preserves
      (set_logicalOperator this must_not ;; mret this)). preserve.
  - revert h. change (preserves (FilterBuilder.andAll this builders0)).
    unfold FilterBuilder.andAll.
    apply preserves_bind; [apply preserves_andAll_loop|auto with store].
  - revert h. change (preserves (FilterBuilder.orAny this builders0)).
    unfold FilterBuilder.orAny.
    apply preserves_bind; [auto with store|intros a].
    apply preserves_bind; [apply preserves_orAny_loop|intros _].
    preserve.
  - apply preserves_build.
  - revert h. change (preserves (FilterBuilder.validate this)).
    unfold FilterBuilder.validate. preserve.
  - apply preserves_run_predicate.
  - revert h. change (preserves (combineFiltersAnd filters)).
    unfold combineFiltersAnd. preserve.
  - revert h. change (preserves (combineFiltersOr filters)).
    unfold combineFiltersOr. preserve.
  - revert h. change (preserves (negateFilter filter)).
    unfold negateFilter. preserve.
  - apply preserves_serializeFilter.
  - revert h. change (preserves (isEmptyFilter filter)).
    unfold isEmptyFilter. destruct (negb (truthy filter));
      [auto with store|].
    repeat apply preserves_empty_under. auto with store.
Qed.

(** X8: the store is append-only.  Whatever calls of the module are made, in
    whatever order and on whatever arguments, and whether they return or
    throw: every array keeps the elements it had, in place, and at most
    gains elements after them; every builder keeps its [conditions]
    array. *)
Theorem store_only_grows (ops : list operation) (h : heap) :
  grows h (run_operations ops h).
Proof.
  revert h. induction ops as [|op ops IH]; intros h; simpl.
  - apply grows_refl.
  - eapply grows_trans; [apply preserves_operation|apply IH].
Qed.

(** ** [isEmptyFilter] *)

Lemma isEmptyFilter_composite h op (a : loc) l :
  arrays h !! a = Some l ->
  isEmptyFilter (JObj [(operator_key op, JArr a)]) h
  = (Ok (length l =? 0)%nat, h).
Proof.
  intros Ha. destruct op; unfold isEmptyFilter, empty_under; munfold;
    cbn -[Nat.eqb]; unfold length_is_zero; now rewrite Ha.
Qed.

Lemma isEmptyFilter_leaf h tag payload :
  In tag leaf_tags ->
  isEmptyFilter (JObj [(tag, payload)]) h = (Ok false, h).
Proof.
  intros Htag. simpl in Htag.
  destruct Htag as [<-|[<-|[<-|[<-|[]]]]]; reflexivity.
Qed.

(** X9: [isEmptyFilter(builder.build())].  It is [true] for a builder
    with no conditions, since [build()] returns [null]; it is [false] for a
    builder with two or more conditions; with exactly one condition it is
    whatever [isEmptyFilter] says of that condition, [build()] having
    returned it unwrapped. *)
Theorem isEmptyFilter_of_build (h : heap) (this : bref) (b : BuilderObj)
    (l : list jsval) :
  builders h !! this = Some b ->
  arrays h !! conditions b = Some l ->
  (FilterBuilder.build this ≫= isEmptyFilter) h
  = match l with
    | [] => (Ok true, h)
    | [c] => isEmptyFilter c h
    | _ => (Ok false, h)
    end.
Proof.
  intros Hb Hl. munfold. rewrite (build_ok h this b l Hb Hl).
  destruct l as [|c [|c' l']]; try reflexivity.
  now rewrite (isEmptyFilter_composite h (logicalOperator b) (conditions b)
                 (c :: c' :: l') Hl).
Qed.

Lemma isEmptyFilter_of_build_witness :
  (FilterBuilder.build 0 ≫= isEmptyFilter) two_store = (Ok false, two_store).
Proof.
  exact (isEmptyFilter_of_build two_store 0 fresh_builder [match_a; match_b]
           eq_refl eq_refl).
Defined.

Lemma predicate_base_builders h field p :
  builders (predicate_base h field p) = builders h.
Proof. now destruct p. Qed.

Lemma predicate_base_old h field p (a : loc) l :
  arrays h !! a = Some l -> arrays (predicate_base h field p) !! a = Some l.
Proof.
  intros H. destruct p; try exact H. now apply with_fresh_array_old.
Qed.

Lemma isEmptyFilter_appended h field (fresh : loc) p :
  (forall value, p = NotEquals value ->
     exists m, arrays h !! fresh = Some [m]) ->
  isEmptyFilter (predicate_condition field fresh p) h = (Ok false, h).
Proof.
  intros Hneg. destruct p; try reflexivity.
  destruct (Hneg value eq_refl) as [m Hm].
  exact (isEmptyFilter_composite h must_not fresh [m] Hm).
Qed.

(** X10: after a terminal call that returns, the builder never builds an
    empty filter: [isEmptyFilter(builder.build())] is [false], whatever the
    builder held before and whatever the call appended. *)
Theorem terminal_call_leaves_nonempty (h : heap) (this : FieldFilter)
    (b : BuilderObj) (l : list jsval) (p : predicate) :
  builders h !! builder this = Some b ->
  arrays h !! conditions b = Some l ->
  eager_rejects p = false ->
  exists h',
    run_predicate this p h = (Ok (builder this), h')
    /\ (FilterBuilder.build (builder this) ≫= isEmptyFilter) h'
       = (Ok false, h').
Proof.
  intros Hb Hl Hrej.
  rewrite (run_predicate_appends h this b l p Hb Hl Hrej).
  eexists. split; [reflexivity|].
  remember (predicate_condition (field this) (length (arrays h)) p) as c
    eqn:Hc.
  remember (with_conditions (predicate_base h (field this) p) (conditions b)
              (l ++ [c])) as h' eqn:Hh'.
  assert (Hb' : builders h' !! builder this = Some b).
  { subst h'. unfold with_conditions; cbn [builders].
    now rewrite predicate_base_builders. }
  assert (Hl' : arrays h' !! conditions b = Some (l ++ [c])).
  { subst h'. apply (with_conditions_lookup _ _ _ l).
    now apply predicate_base_old. }
  munfold. rewrite (build_ok h' (builder this) b (l ++ [c]) Hb' Hl').
  destruct l as [|x [|y l']]; cbn [app].
  - subst c. apply isEmptyFilter_appended.
    intros value ->. eexists.
    subst h'. unfold with_conditions, predicate_base, with_fresh_array;
      cbn [arrays].
    assert (Hlt : (conditions b < length (arrays h))%nat)
      by (eapply lookup_lt_Some; eassumption).
    rewrite list_lookup_insert_ne by lia.
    rewrite lookup_app_r by lia.
    now rewrite Nat.sub_diag.
  - now rewrite (isEmptyFilter_composite h' (logicalOperator b)
                   (conditions b) _ Hl').
  - now rewrite (isEmptyFilter_composite h' (logicalOperator b)
                   (conditions b) _ Hl').
Qed.

Lemma terminal_call_leaves_nonempty_witness :
  exists h',
    run_predicate price_field (NotEquals (MNumber (num_of_Z 1))) fresh_store
    = (Ok 0, h')
    /\ (FilterBuilder.build 0 ≫= isEmptyFilter) h' = (Ok false, h').
Proof.
  exact (terminal_call_leaves_nonempty fresh_store price_field fresh_builder
           [] (NotEquals (MNumber (num_of_Z 1))) eq_refl eq_refl eq_refl).
Defined.

(** ** Stand-alone constructors *)

(** X11: [negateFilter] checks nothing and copies nothing.  Whatever value
    it is given, it returns an object with the single key [must_not] whose
    array is new and holds that very value; the result is never empty for
    [isEmptyFilter], and the validator accepts it without looking at
    the negated value. *)
Theorem negateFilter_wraps_anything (h : heap) (filter : jsval) :
  let negated := JObj [("must_not", JArr (length (arrays h)))] in
  let h' := with_fresh_array h [filter] in
  negateFilter filter h = (Ok negated, h')
  /\ child_list h' negated = Some [filter]
  /\ isEmptyFilter negated h' = (Ok false, h')
  /\ validateFilterCondition negated = Ok tt.
Proof.
  intros negated h'.
  assert (Hchild : arrays h' !! length (arrays h) = Some [filter]).
  { subst h'. unfold with_fresh_array; cbn [arrays].
    rewrite lookup_app_r by lia. now rewrite Nat.sub_diag. }
  split; [reflexivity|]. split; [exact Hchild|]. split.
  - exact (isEmptyFilter_composite h' must_not _ [filter] Hchild).
  - apply untagged_object_passes; try reflexivity.
    apply (composite_is_untagged must_not).
Qed.

(** X12: [createRangeFilter] throws exactly when both bounds are omitted,
    and it never compares them.  Given bounds, it returns the object the
    builder's [greaterThanOrEqual], [lessThanOrEqual] or [inRange] appends;
    the validator accepts that object exactly when the field name is not
    empty and the given bounds are finite.  With [min > max] it still
    returns, where [inRange] throws. *)
Theorem createRangeFilter_never_compares (field : string) (lo hi : num)
    (fresh : loc) (this : FieldFilter) (h : heap) :
  is_validation_error (createRangeFilter field None None) = true
  /\ createRangeFilter field (Some lo) None
     = Ok (predicate_condition field fresh (GreaterThanOrEqual lo))
  /\ createRangeFilter field None (Some hi)
     = Ok (predicate_condition field fresh (LessThanOrEqual hi))
  /\ createRangeFilter field (Some lo) (Some hi)
     = Ok (predicate_condition field fresh (InRange lo hi))
  /\ (validateFilterCondition
        (predicate_condition field fresh (InRange lo hi)) = Ok tt
      <-> nonempty field && isFinite lo && isFinite hi = true)
  /\ is_validation_error (fst (Field.inRange this lo hi h)) = num_gt lo hi.
Proof.
  do 4 (split; [reflexivity|]). split.
  - cbn [predicate_condition]. unfold range_condition.
    rewrite validate_range_eq, !seq_ok, !throw_if_ok.
    cbn -[nonempty isFinite]. rewrite !is_true_and, !negb_false_iff.
    destruct (isFinite lo), (isFinite hi); simpl; intuition congruence.
  - unfold Field.inRange. destruct (num_gt lo hi); [reflexivity|].
    unfold FilterBuilder.addCondition. munfold.
    unfold get_builder. destruct (builders h !! builder this); [|reflexivity].
    unfold push. now destruct (arrays h !! _).
Qed.

Lemma appended_condition_no_type_error (field : string) (fresh : loc)
    (p : predicate) :
  is_type_error (validateFilterCondition (predicate_condition field fresh p))
  = false.
Proof.
  destruct p; cbn [predicate_condition];
    unfold createEqualityFilter, range_condition;
    rewrite ?validate_match_eq, ?validate_range_eq, ?validate_box_eq,
      ?validate_radius_eq;
    try (no_type_error; fail).
  rewrite untagged_object_passes; try reflexivity.
  apply (composite_is_untagged must_not).
Qed.

(** X7: what the validator later says of the condition a terminal call
    appends.  It returns or throws the module's validation error, never a
    [TypeError].  It returns exactly when: for a match, the field name is
    not empty; for a [notEquals] condition, always; for a range, the field
    name is not empty and the bounds are finite; for a bounding box, both
    corners are in bounds too; for a radius condition, the center is in
    bounds and the radius is not [<= 0]. *)
Theorem appended_condition_accepted_iff (field : string) (fresh : loc)
    (p : predicate) :
  (validateFilterCondition (predicate_condition field fresh p) = Ok tt
   <-> deferred_accepts field p = true)
  /\ is_type_error
       (validateFilterCondition (predicate_condition field fresh p)) = false.
Proof.
  split.
  - apply appended_condition_check.
  - apply appended_condition_no_type_error.
Qed.

(** ** Fluent chains *)

Lemma predicate_base_eq h field p :
  predicate_base h field p
  = {| arrays := arrays h ++ fresh_arrays field p; builders := builders h |}.
Proof.
  destruct h as [A B].
  destruct p; cbn [predicate_base fresh_arrays arrays builders];
    rewrite ?app_nil_r; reflexivity.
Qed.

Lemma run_predicate_rejects (h : heap) (this : FieldFilter) (p : predicate) :
  eager_rejects p = true ->
  snd (run_predicate this p h) = h
  /\ is_validation_error (fst (run_predicate this p h)) = true.
Proof.
  intros Hrej. destruct p; try discriminate; simpl in Hrej |- *.
  - unfold Field.inRange. now rewrite Hrej.
  - unfold Field.withinRadius. now rewrite Hrej.
Qed.

Lemma after_steps_nil h this b l :
  builders h !! this = Some b ->
  arrays h !! conditions b = Some l ->
  after_steps h this b l [] = h.
Proof.
  intros Hb Hl. unfold after_steps. cbn [chain_conditions chain_arrays chain_mode].
  rewrite !app_nil_r.
  replace {| conditions := conditions b; logicalOperator := logicalOperator b |}
    with b by now destruct b.
  rewrite !list_insert_id by assumption. now destruct h.
Qed.

Lemma after_steps_where h this b l field p rest :
  arrays h !! conditions b = Some l ->
  after_steps
    (with_conditions (predicate_base h field p) (conditions b)
       (l ++ [predicate_condition field (length (arrays h)) p]))
    this b (l ++ [predicate_condition field (length (arrays h)) p]) rest
  = after_steps h this b l (Where field p :: rest).
Proof.
  intros Hl.
  assert (Hlt : (conditions b < length (arrays h))%nat)
    by (eapply lookup_lt_Some; eassumption).
  rewrite predicate_base_eq.
  unfold after_steps, with_conditions.
  cbn [arrays builders chain_conditions chain_arrays chain_mode].
  f_equal.
  rewrite length_insert, length_app.
  rewrite insert_app_l by (rewrite length_insert, length_app; lia).
  rewrite list_insert_insert_eq.
  rewrite <- insert_app_l by (rewrite length_app; lia).
  rewrite <- !app_assoc. reflexivity.
Qed.

Lemma after_steps_mode h this b l op rest :
  after_steps (with_operator h this b op) this
    {| conditions := conditions b; logicalOperator := op |} l rest
  = after_steps h this b l (Mode op :: rest).
Proof.
  unfold after_steps, with_operator.
  cbn [arrays builders conditions logicalOperator chain_conditions
       chain_arrays chain_mode].
  now rewrite list_insert_insert_eq.
Qed.

Lemma run_mode_ok h this b op :
  builders h !! this = Some b ->
  run_step this (Mode op) h = (Ok this, with_operator h this b op).
Proof.
  intros Hb.
  destruct op; cbn [run_step];
    unfold FilterBuilder.and_, FilterBuilder.or_, FilterBuilder.not_;
    munfold; now rewrite (set_logicalOperator_ok h this b Hb).
Qed.

(** A chain runs to its end exactly when no call in it is rejected on the
    spot, and then the store is [after_steps]. *)
Lemma run_steps_spec steps : forall h this b l,
  builders h !! this = Some b ->
  arrays h !! conditions b = Some l ->
  if forallb passes_eager_check steps
  then run_steps this steps h = (Ok this, after_steps h this b l steps)
  else is_validation_error (fst (run_steps this steps h)) = true.
Proof.
  induction steps as [|s rest IH]; intros h this b l Hb Hl;
    cbn [forallb run_steps].
  - now rewrite after_steps_nil.
  - destruct s as [f p|op]; cbn [passes_eager_check andb].
    + destruct (eager_rejects p) eqn:Hrej; cbn [negb andb].
      * destruct (run_predicate_rejects h (Field.where_ this f) p Hrej)
          as [_ Hthrow].
        munfold. cbn [run_step].
        destruct (run_predicate (Field.where_ this f) p h) as [[r|e] h1];
          [discriminate|exact Hthrow].
      * munfold. cbn [run_step].
        rewrite (run_predicate_appends h (Field.where_ this f) b l p Hb Hl Hrej).
        cbn [Field.where_ field builder].
        remember (predicate_condition f (length (arrays h)) p) as c eqn:Hc.
        remember (with_conditions (predicate_base h f p) (conditions b)
                    (l ++ [c])) as h1 eqn:Hh1.
        assert (Hb1 : builders h1 !! this = Some b).
        { subst h1. unfold with_conditions; cbn [builders].
          now rewrite predicate_base_builders. }
        assert (Hl1 : arrays h1 !! conditions b = Some (l ++ [c])).
        { subst h1. apply (with_conditions_lookup _ _ _ l).
          now apply predicate_base_old. }
        specialize (IH h1 this b (l ++ [c]) Hb1 Hl1).
        destruct (forallb passes_eager_check rest); [|exact IH].
        rewrite IH. subst h1 c. now rewrite after_steps_where.
    + munfold. rewrite (run_mode_ok h this b op Hb).
      specialize (IH (with_operator h this b op) this
                    {| conditions := conditions b; logicalOperator := op |} l
                    (with_operator_lookup h this b op Hb) Hl).
      destruct (forallb passes_eager_check rest); [|exact IH].
      rewrite IH. now rewrite after_steps_mode.
Qed.

Lemma chain_then_spec {A : Type} (steps : list step) (last : bref -> M A)
    (h : heap) :
  let this := length (builders h) in
  let b := {| conditions := length (arrays h); logicalOperator := must |} in
  let h0 := {| arrays := arrays h ++ [[]]; builders := builders h ++ [b] |} in
  builders h0 !! this = Some b
  /\ arrays h0 !! conditions b = Some []
  /\ if forallb passes_eager_check steps
     then chain_then steps last h = last this (after_steps h0 this b [] steps)
     else is_validation_error (fst (chain_then steps last h)) = true.
Proof.
  intros this b h0.
  assert (Hb : builders h0 !! this = Some b).
  { subst h0 this; cbn [builders].
    rewrite lookup_app_r by lia. now rewrite Nat.sub_diag. }
  assert (Hl : arrays h0 !! conditions b = Some []).
  { subst h0 b; cbn [arrays conditions].
    rewrite lookup_app_r by lia. now rewrite Nat.sub_diag. }
  split; [exact Hb|]. split; [exact Hl|].
  pose proof (run_steps_spec steps h0 this b [] Hb Hl) as Hrun.
  unfold chain_then, createFilter, FilterBuilder.new. munfold.
  unfold alloc_array, alloc_builder. cbn [arrays builders].
  fold b. fold h0. fold this.
  destruct (forallb passes_eager_check steps).
  - now rewrite Hrun.
  - destruct (run_steps this steps h0) as [[r|e] h1]; [discriminate|].
    exact Hrun.
Qed.

Lemma after_steps_builder h this b l steps :
  builders h !! this = Some b ->
  builders (after_steps h this b l steps) !! this
  = Some {| conditions := conditions b;
            logicalOperator := chain_mode (logicalOperator b) steps |}.
Proof.
  intros Hb. unfold after_steps; cbn [builders].
  apply list_lookup_insert_eq. eapply lookup_lt_Some; eassumption.
Qed.

Lemma after_steps_conditions h this b l steps l0 :
  arrays h !! conditions b = Some l0 ->
  arrays (after_steps h this b l steps) !! conditions b
  = Some (l ++ chain_conditions (length (arrays h)) steps).
Proof.
  intros Hl. unfold after_steps; cbn [arrays].
  apply list_lookup_insert_eq. rewrite length_app.
  apply lookup_lt_Some in Hl. lia.
Qed.

Lemma chain_conditions_check n steps :
  for_each (chain_conditions n steps) validateFilterCondition = Ok tt
  <-> forallb passes_validator steps = true.
Proof.
  revert n. induction steps as [|[f p|op] rest IH]; intros n;
    cbn [chain_conditions forallb passes_validator for_each].
  - tauto.
  - rewrite seq_ok, is_true_and, appended_condition_check. now rewrite IH.
  - apply IH.
Qed.

Lemma chain_conditions_no_type_error n steps :
  is_type_error (for_each (chain_conditions n steps) validateFilterCondition)
  = false.
Proof.
  revert n. induction steps as [|[f p|op] rest IH]; intros n;
    cbn [chain_conditions for_each].
  - reflexivity.
  - apply no_type_error_bind; [apply appended_condition_no_type_error|].
    intros _ _. apply IH.
  - apply IH.
Qed.

Lemma chain_conditions_terminal n steps :
  existsb is_terminal steps
  = negb (length (chain_conditions n steps) =? 0)%nat.
Proof.
  revert n. induction steps as [|[f p|op] rest IH]; intros n;
    cbn [chain_conditions existsb is_terminal orb]; [reflexivity..|apply IH].
Qed.

(** X13: a chain begun by [createFilter()] and ended by [validate()]
    returns exactly when it has at least one terminal call, no call in it is
    rejected on the spot ([inRange] with [min > max], [withinRadius] with a
    radius [<= 0]) and the validator accepts what each call appended;
    otherwise it throws, and what it throws is never a [TypeError]. *)
Theorem chain_validates_iff (steps : list step) (h : heap) :
  (fst (chain_then steps FilterBuilder.validate h) = Ok tt
   <-> existsb is_terminal steps && forallb passes_eager_check steps
       && forallb passes_validator steps = true)
  /\ is_type_error (fst (chain_then steps FilterBuilder.validate h)) = false.
Proof.
  destruct (chain_then_spec steps FilterBuilder.validate h)
    as (Hb & Hl & Hrun).
  destruct (forallb passes_eager_check steps).
  - rewrite Hrun.
    rewrite (validate_ok _ _ _ _
               (after_steps_builder _ _ _ [] steps Hb)
               (after_steps_conditions _ _ _ [] steps [] Hl)).
    cbn [fst app].
    rewrite (chain_conditions_terminal
               (length (arrays h ++ [[]])) steps), andb_true_r.
    pose proof (chain_conditions_check (length (arrays h ++ [[]])) steps)
      as Hcheck.
    pose proof (chain_conditions_no_type_error
                  (length (arrays h ++ [[]])) steps) as Hkind.
    cbn [arrays] in *.
    destruct (chain_conditions (length (arrays h ++ [[]])) steps)
      as [|c cs].
    + split; [|reflexivity]. cbn. split; discriminate.
    + split; [|exact Hkind]. cbn [length Nat.eqb negb andb]. exact Hcheck.
  - rewrite andb_false_r. cbn [andb].
    destruct (fst (chain_then steps FilterBuilder.validate h)) as [[]|[m t f|m]];
      try discriminate.
    split; [|reflexivity]. split; discriminate.
Qed.

Lemma plain_snapshot_round_trips h filter t :
  snapshot h filter = Plain t ->
  wf_tree t = true ->
  round_trips h filter.
Proof.
  intros Hsnap Hwf.
  destruct (JSON_round_trip t Hwf) as (s & Hs & Hparse).
  exists t, s, t. repeat split; try assumption.
  - rewrite (serializeFilter_plain h filter _ Hsnap). now rewrite Hs.
  - now apply deep_equal_refl.
Qed.

Lemma snapshot_at_leaf fuel store stack field (fresh : loc) p :
  fresh_arrays field p = [] ->
  snapshot_at fuel store stack (predicate_condition field fresh p)
  = Plain (to_tree (predicate_filter field p)).
Proof.
  intros Hleaf.
  destruct p; try discriminate; destruct fuel;
    try reflexivity; destruct value; reflexivity.
Qed.

Lemma snap_array_plain (ts : list tree) :
  snap_array (map Plain ts) = Plain (TArr ts).
Proof.
  unfold snap_array.
  assert (H : snap_list (map Plain ts) = Some (Some ts)).
  { induction ts as [|t ts IH]; [reflexivity|]. simpl. now rewrite IH. }
  now rewrite H.
Qed.

Lemma snapshot_at_negation fuel store stack (a : loc) field value :
  a ∉ stack ->
  store !! a = Some [createEqualityFilter field value] ->
  snapshot_at (S fuel) store stack (JObj [("must_not", JArr a)])
  = Plain (to_tree (NotFilter [MatchFilter field value])).
Proof.
  intros Hstack Ha.
  rewrite snapshot_at_object. cbn [map fst snd].
  rewrite snapshot_at_array, bool_decide_eq_false_2 by exact Hstack.
  rewrite Ha. cbn [map].
  assert (E : snapshot_at fuel store (a :: stack)
                (createEqualityFilter field value)
              = Plain (to_tree (MatchFilter field value)))
    by (destruct fuel, value; reflexivity).
  now rewrite E.
Qed.

(** The conditions of a chain read through a store that has the chain's
    own arrays from index [n] on. *)
Lemma chain_snapshots steps : forall (n fuel : nat) store stack,
  (forall j x, chain_arrays steps !! j = Some x ->
     store !! (n + j)%nat = Some x) ->
  (forall k : loc, k ∈ stack -> (k < n)%nat) ->
  (length (chain_arrays steps) <= fuel)%nat ->
  map (snapshot_at fuel store stack) (chain_conditions n steps)
  = map Plain (map to_tree (chain_filters steps)).
Proof.
  induction steps as [|[f p|op] rest IH]; intros n fuel store stack
    Hstore Hstack Hfuel; cbn [chain_conditions chain_filters map].
  - reflexivity.
  - destruct (fresh_arrays f p) as [|x xs] eqn:Hfresh.
    + rewrite (snapshot_at_leaf fuel store stack f n p Hfresh). f_equal.
      cbn [length]. rewrite Nat.add_0_r.
      apply IH; try assumption.
      * intros j y Hj. apply Hstore. cbn [chain_arrays].
        now rewrite Hfresh.
      * cbn [chain_arrays] in Hfuel. now rewrite Hfresh in Hfuel.
    + destruct p; try discriminate. cbn [fresh_arrays] in Hfresh.
      injection Hfresh as <- <-.
      cbn [chain_arrays fresh_arrays app length] in Hfuel, Hstore.
      destruct fuel as [|fuel]; [lia|].
      cbn [predicate_condition predicate_filter length].
      rewrite (snapshot_at_negation fuel store stack n f value).
      * f_equal. apply IH.
        -- intros j y Hj. replace (n + 1 + j)%nat with (n + S j)%nat by lia.
           apply Hstore. exact Hj.
        -- intros k Hk. specialize (Hstack k Hk). cbn [length]. lia.
        -- cbn [length]. lia.
      * intros Hin. specialize (Hstack n Hin). lia.
      * rewrite <- (Nat.add_0_r n). apply Hstore. reflexivity.
  - cbn [chain_arrays] in Hstore, Hfuel. now apply IH.
Qed.

Lemma to_tree_composite op children :
  to_tree (composite op children)
  = TObj [(operator_key op, TArr (map to_tree children))].
Proof. now destruct op. Qed.

Lemma finite_chain_filters steps :
  forallb finite_step steps = true ->
  forallb finite_filter (chain_filters steps) = true.
Proof.
  induction steps as [|[f p|op] rest IH]; cbn [forallb finite_step chain_filters];
    [reflexivity| |exact IH].
  intros H. apply andb_true_iff in H as [H1 H2]. now rewrite H1, IH.
Qed.

Lemma finite_chain_wf steps :
  forallb finite_step steps = true -> wf_tree (chain_tree steps) = true.
Proof.
  intros Hfin. apply finite_chain_filters in Hfin. unfold chain_tree.
  destruct (chain_filters steps) as [|f [|f' fs]] eqn:Hfs.
  - reflexivity.
  - apply finite_filter_wf. cbn [forallb] in Hfin.
    now apply andb_true_iff in Hfin as [Hf _].
  - apply finite_filter_wf.
    destruct (chain_mode must steps); exact Hfin.
Qed.



(** ** Sharing through [andAll] *)

(** X15: [andAll] stores what a child builder builds, not a copy.  When the
    child holds two or more conditions, the entry appended to the parent
    refers to the child's own array: a condition added to the child after
    the call appears under that entry, while the parent's list itself is
    as the call left it. *)
Theorem andAll_entry_follows_child (h : heap) (this child : bref)
    (b bc : BuilderObj) (l lc : list jsval) (c : jsval) :
  builders h !! this = Some b ->
  arrays h !! conditions b = Some l ->
  builders h !! child = Some bc ->
  arrays h !! conditions bc = Some lc ->
  conditions bc <> conditions b ->
  (2 <= length lc)%nat ->
  let entry :=
    JObj [(operator_key (logicalOperator bc), JArr (conditions bc))] in
  exists h1 h2,
    FilterBuilder.andAll this [child] h = (Ok this, h1)
    /\ arrays h1 !! conditions b = Some (l ++ [entry])
    /\ child_list h1 entry = Some lc
    /\ FilterBuilder.addCondition child c h1 = (Ok child, h2)
    /\ arrays h2 !! conditions b = Some (l ++ [entry])
    /\ child_list h2 entry = Some (lc ++ [c]).
Proof.
  intros Hb Hl Hbc Hlc Hne Hlen entry.
  set (h1 := with_conditions h (conditions b) (l ++ [entry])).
  set (h2 := with_conditions h1 (conditions bc) (lc ++ [c])).
  assert (Hl1 : arrays h1 !! conditions b = Some (l ++ [entry]))
    by (apply (with_conditions_lookup h _ _ l); exact Hl).
  assert (Hlc1 : arrays h1 !! conditions bc = Some lc).
  { unfold h1, with_conditions; cbn [arrays].
    rewrite list_lookup_insert_ne by congruence. exact Hlc. }
  exists h1, h2. split; [|split; [exact Hl1|split; [exact Hlc1|split; [|split]]]].
  - unfold FilterBuilder.andAll. cbn [FilterBuilder.andAll_loop]. munfold.
    rewrite (build_ok h child bc lc Hbc Hlc).
    destruct lc as [|x [|y lc']]; cbn [length] in Hlen; try lia.
    cbn [truthy].
    rewrite (get_builder_ok h this b Hb), (push_conditions_ok h b l Hl).
    reflexivity.
  - apply (addCondition_ok h1 child bc lc); [exact Hbc|exact Hlc1].
  - unfold h2, with_conditions; cbn [arrays].
    rewrite list_lookup_insert_ne by congruence. exact Hl1.
  - apply (with_conditions_lookup h1 _ _ lc). exact Hlc1.
Qed.

Lemma andAll_entry_follows_child_witness :
  exists h1 h2,
    FilterBuilder.andAll 0 [1] family_store = (Ok 0, h1)
    /\ arrays h1 !! 0 = Some [JObj [("should", JArr 1)]]
    /\ child_list h1 (JObj [("should", JArr 1)]) = Some [match_a; match_b]
    /\ FilterBuilder.addCondition 1 match_c h1 = (Ok 1, h2)
    /\ arrays h2 !! 0 = Some [JObj [("should", JArr 1)]]
    /\ child_list h2 (JObj [("should", JArr 1)])
       = Some [match_a; match_b; match_c].
Proof.
  apply (andAll_entry_follows_child family_store 0 1
           {| conditions := 0; logicalOperator := must |}
           {| conditions := 1; logicalOperator := should |}
           [] [match_a; match_b] match_c); try reflexivity.
  simpl. lia.
Defined.

(** ** Calls that only read *)

Lemma length_is_zero_reads v h : snd (length_is_zero v h) = h.
Proof.
  unfold length_is_zero. destruct v; try reflexivity.
  now destruct (arrays h !! a).
Qed.

Lemma empty_under_reads key filter otherwise h :
  (forall h', snd (otherwise h') = h') ->
  snd (empty_under key filter otherwise h) = h.
Proof.
  intros Hrest. unfold empty_under. munfold.
  destruct (has_property key filter) as [[|]|e]; try reflexivity.
  - destruct (get_prop filter key) as [v|e]; [|reflexivity].
    apply length_is_zero_reads.
  - apply Hrest.
Qed.

(** X16: [build], [validate], [combineFiltersAnd], [combineFiltersOr],
    [serializeFilter] and [isEmptyFilter] only read: whether they return or
    throw, every array and every builder is afterwards as it was. *)
Theorem queries_leave_store (h : heap) (this : bref) (filters : loc)
    (filter : jsval) :
  snd (FilterBuilder.build this h) = h
  /\ snd (FilterBuilder.validate this h) = h
  /\ snd (combineFiltersAnd filters h) = h
  /\ snd (combineFiltersOr filters h) = h
  /\ snd (serializeFilter filter h) = h
  /\ snd (isEmptyFilter filter h) = h.
Proof.
  split; [|split; [|split; [|split; [|split]]]].
  - unfold FilterBuilder.build. munfold. unfold get_builder, read_array.
    destruct (builders h !! this) as [b|]; [|reflexivity].
    destruct (arrays h !! conditions b) as [[|c [|c' l]]|]; reflexivity.
  - unfold FilterBuilder.validate. munfold. unfold get_builder, read_array.
    destruct (builders h !! this) as [b|]; [|reflexivity].
    destruct (arrays h !! conditions b) as [l|]; [|reflexivity].
    now destruct (length l =? 0)%nat.
  - unfold combineFiltersAnd. munfold. unfold read_array.
    destruct (arrays h !! filters) as [[|c [|c' l]]|]; reflexivity.
  - unfold combineFiltersOr. munfold. unfold read_array.
    destruct (arrays h !! filters) as [[|c [|c' l]]|]; reflexivity.
  - unfold serializeFilter. now destruct (snapshot h filter).
  - unfold isEmptyFilter. destruct (negb (truthy filter)); [reflexivity|].
    apply empty_under_reads. intros h1.
    apply empty_under_reads. intros h2.
    apply empty_under_reads. reflexivity.
Qed.

(** ** What [validate()] throws *)

Lemma for_each_no_type_error {A : Type} (body : A -> res unit)
    (l : list A) :
  (forall x, is_type_error (body x) = false) ->
  is_type_error (for_each l body) = false.
Proof.
  intros Hbody. induction l as [|x l IH]; [reflexivity|].
  simpl. apply no_type_error_bind; [apply Hbody|intros _ _; exact IH].
Qed.

Ltac kind_step :=
  first
    [ reflexivity
    | apply throw_if_validation
    | apply validateGeoPoint_no_type_error
    | apply for_each_no_type_error; intros ?
    | apply no_type_error_bind; [|intros ? ?] ].

(** With its payloads there, a condition makes the validator return or throw
    the module's own error. *)
Lemma present_payloads_kind (c : jsval) :
  payloads_present c = true ->
  is_type_error (validateFilterCondition c) = false.
Proof.
  intros Hpresent. unfold validateFilterCondition.
  destruct c as [ | | x | x | x | props | a ]; try reflexivity;
    try (solve [unfold is_object; simpl; rewrite ?orb_true_r; reflexivity]).
  - cbn [truthy is_object typeof String.eqb negb orb throw_if].
    unfold payloads_present, leaf_tags in Hpresent.
    cbn [forallb] in Hpresent.
    rewrite !andb_true_iff in Hpresent.
    destruct Hpresent as [(Hm & Hr & Hb & Hg & _) Hbox].
    unfold tag_payload_present in Hm, Hr, Hb, Hg. unfold box_present in Hbox.
    unfold when_tagged, has_property.
    apply no_type_error_bind; [reflexivity|intros _ _].
    apply no_type_error_bind; [|intros _ _].
    { destruct (assoc "match" props) as [payload|] eqn:Hp;
        [|reflexivity].
      cbn [mbind res_bind].
      rewrite bool_decide_eq_true_2 by (now eexists).
      unfold validate_match.
      apply no_type_error_bind; [reflexivity|intros payload' Hget].
      change (get_prop (JObj props) "match")
        with (Ok (default JUndef (assoc "match" props))) in Hget.
      rewrite Hp in Hget. injection Hget as <-.
      apply negb_true_iff in Hm.
      rewrite !(get_prop_present payload _ Hm). repeat kind_step. }
    apply no_type_error_bind; [|intros _ _].
    { destruct (assoc "range" props) as [payload|] eqn:Hp;
        [|reflexivity].
      cbn [mbind res_bind].
      rewrite bool_decide_eq_true_2 by (now eexists).
      unfold validate_range.
      apply no_type_error_bind; [reflexivity|intros payload' Hget].
      change (get_prop (JObj props) "range")
        with (Ok (default JUndef (assoc "range" props))) in Hget.
      rewrite Hp in Hget. injection Hget as <-.
      apply negb_true_iff in Hr.
      rewrite !(get_prop_present payload _ Hr). repeat kind_step. }
    apply no_type_error_bind; [|intros _ _].
    { destruct (assoc "geo_bounding_box" props) as [payload|] eqn:Hp;
        [|reflexivity].
      cbn [mbind res_bind].
      rewrite bool_decide_eq_true_2 by (now eexists).
      unfold validate_geo_bounding_box.
      apply no_type_error_bind; [reflexivity|intros payload' Hget].
      change (get_prop (JObj props) "geo_bounding_box")
        with (Ok (default JUndef (assoc "geo_bounding_box" props))) in Hget.
      rewrite Hp in Hget. injection Hget as <-.
      apply negb_true_iff in Hb.
      rewrite !(get_prop_present payload _ Hb).
      destruct payload as [ | | x | x | x | geo | a ]; try discriminate;
        try reflexivity.
      apply negb_true_iff in Hbox. cbv beta iota.
      apply no_type_error_bind; [reflexivity|intros key _].
      apply no_type_error_bind; [apply throw_if_validation|intros _ _].
      apply no_type_error_bind; [reflexivity|intros box Hget].
      injection Hget as <-.
      rewrite !(get_prop_present (prop "bounding_box" geo) _ Hbox).
      apply no_type_error_bind; [reflexivity|intros top_left _].
      apply no_type_error_bind;
        [apply validateGeoPoint_no_type_error|intros _ _].
      apply no_type_error_bind; [reflexivity|intros box Hget].
      injection Hget as <-.
      rewrite !(get_prop_present (prop "bounding_box" geo) _ Hbox).
      apply no_type_error_bind; [reflexivity|intros bottom_right _].
      apply validateGeoPoint_no_type_error. }
    destruct (assoc "geo_radius" props) as [payload|] eqn:Hp;
      [|reflexivity].
    cbn [mbind res_bind].
    rewrite bool_decide_eq_true_2 by (now eexists).
    unfold validate_geo_radius.
    apply no_type_error_bind; [reflexivity|intros payload' Hget].
    change (get_prop (JObj props) "geo_radius")
      with (Ok (default JUndef (assoc "geo_radius" props))) in Hget.
    rewrite Hp in Hget. injection Hget as <-.
    apply negb_true_iff in Hg.
    rewrite !(get_prop_present payload _ Hg). repeat kind_step.
Qed.





(** ** What a call on a builder can change *)

Lemma framed_reads {A : Type} n a this (m : M A) :
  (forall h, snd (m h) = h) -> framed n a this m.
Proof.
  intros Hreads h Hn Hb. rewrite Hreads. repeat split; assumption.
Qed.

Lemma framed_ret {A : Type} n a this (x : A) : framed n a this (mret x).
Proof. now apply framed_reads. Qed.

Lemma framed_throw {A : Type} n a this (e : error) :
  framed n a this (@throw A e).
Proof. now apply framed_reads. Qed.

Lemma framed_bind {A B : Type} n a this (m : M A) (k : A -> M B) :
  framed n a this m -> (forall x, framed n a this (k x)) ->
  framed n a this (m ≫= k).
Proof.
  intros Hm Hk h Hn Hb. unfold mbind, M_bind.
  specialize (Hm h Hn Hb). destruct (m h) as [[x|e] h1]; cbn [snd] in *;
    [|exact Hm].
  destruct Hm as (Hsame & Hn1 & Hb1).
  destruct (Hk x h1 Hn1 Hb1) as (Hsame2 & Hn2 & Hb2).
  repeat split; try assumption.
  intros i Hi Hlt. rewrite (Hsame2 i Hi Hlt). now apply Hsame.
Qed.

Lemma framed_with_builder {A : Type} n a this (k : BuilderObj -> M A) :
  (forall b, conditions b = a -> framed n a this (k b)) ->
  framed n a this (get_builder this ≫= k).
Proof.
  intros Hk h Hn Hb. destruct Hb as (b & Hb & Ha).
  unfold mbind, M_bind, get_builder. rewrite Hb.
  apply (Hk b Ha h Hn). now exists b.
Qed.

Lemma framed_alloc_array {A : Type} n a this l (k : loc -> M A) :
  (forall x : loc, (n <= x)%nat -> framed n a this (k x)) ->
  framed n a this (alloc_array l ≫= k).
Proof.
  intros Hk h Hn Hb. unfold mbind, M_bind, alloc_array.
  assert (Hframe : frame n a this
                     {| arrays := arrays h ++ [l]; builders := builders h |}
                     (snd (k (length (arrays h))
                             {| arrays := arrays h ++ [l];
                                builders := builders h |}))).
  { apply (Hk _ Hn); cbn [arrays builders]; [|exact Hb].
    rewrite length_app. lia. }
  destruct Hframe as (Hsame & Hn1 & Hb1).
  destruct (k (length (arrays h)) _) as [[x|e] h1]; cbn [snd] in *;
    (repeat split; try assumption;
     intros i Hi Hlt; rewrite (Hsame i Hi Hlt); cbn [arrays];
     apply lookup_app_l; lia).
Qed.

Lemma framed_push n a this (target : loc) v :
  target = a \/ (n <= target)%nat -> framed n a this (push target v).
Proof.
  intros Htarget h Hn Hb. unfold push.
  destruct (arrays h !! target) as [l|]; cbn [snd];
    [|repeat split; assumption].
  repeat split; cbn [arrays builders]; try assumption.
  - intros i Hi Hlt. apply list_lookup_insert_ne.
    destruct Htarget as [->|Hge]; [congruence|lia].
  - now rewrite length_insert.
Qed.

Lemma framed_set_logicalOperator n a this op :
  framed n a this (set_logicalOperator this op).
Proof.
  intros h Hn Hb. unfold set_logicalOperator.
  destruct Hb as (b & Hb & Ha). rewrite Hb. cbn [snd].
  repeat split; cbn [arrays builders]; try assumption.
  eexists. split.
  - apply list_lookup_insert_eq. eapply lookup_lt_Some; eassumption.
  - exact Ha.
Qed.

Lemma build_reads r h : snd (FilterBuilder.build r h) = h.
Proof.
  unfold FilterBuilder.build. munfold. unfold get_builder, read_array.
  destruct (builders h !! r) as [b|]; [|reflexivity].
  destruct (arrays h !! conditions b) as [[|c [|c' l]]|]; reflexivity.
Qed.

Lemma validate_reads r h : snd (FilterBuilder.validate r h) = h.
Proof.
  unfold FilterBuilder.validate. munfold. unfold get_builder, read_array.
  destruct (builders h !! r) as [b|]; [|reflexivity].
  destruct (arrays h !! conditions b) as [l|]; [|reflexivity].
  now destruct (length l =? 0)%nat.
Qed.

Lemma read_array_reads a h : snd (read_array a h) = h.
Proof. unfold read_array. now destruct (arrays h !! a). Qed.

Lemma framed_own_push n a this v :
  framed n a this (get_builder this ≫= fun b => push (conditions b) v).
Proof.
  apply framed_with_builder. intros b Ha. apply framed_push. now left.
Qed.

Lemma framed_addCondition n a this c :
  framed n a this (FilterBuilder.addCondition this c).
Proof.
  unfold FilterBuilder.addCondition.
  apply framed_with_builder. intros b Ha.
  apply framed_bind; [apply framed_push; now left|].
  intros _. apply framed_ret.
Qed.

Lemma framed_andAll_loop n a this bs :
  framed n a this (FilterBuilder.andAll_loop this bs).
Proof.
  induction bs as [|r bs IH]; cbn [FilterBuilder.andAll_loop];
    [apply framed_ret|].
  apply framed_bind; [apply framed_reads, build_reads|intros filter].
  apply framed_bind; [|intros _; exact IH].
  destruct (truthy filter); [apply framed_own_push|apply framed_ret].
Qed.

Lemma framed_orAny_loop n a this (collected : loc) bs :
  (n <= collected)%nat ->
  framed n a this (FilterBuilder.orAny_loop collected bs).
Proof.
  intros Hfresh.
  induction bs as [|r bs IH]; cbn [FilterBuilder.orAny_loop];
    [apply framed_ret|].
  apply framed_bind; [apply framed_reads, build_reads|intros filter].
  apply framed_bind; [|intros _; exact IH].
  destruct (truthy filter); [apply framed_push; now right|apply framed_ret].
Qed.

Lemma framed_run_predicate n a this name p :
  framed n a this (run_predicate (Field.where_ this name) p).
Proof.
  destruct p; cbn [run_predicate];
    unfold Field.equals, Field.notEquals, Field.greaterThan,
      Field.greaterThanOrEqual, Field.lessThan, Field.lessThanOrEqual,
      Field.inRange, Field.matches, Field.contains, Field.equals,
      Field.inBoundingBox, Field.withinRadius;
    cbn [Field.where_ builder field];
    try apply framed_addCondition.
  - apply framed_alloc_array. intros x _. apply framed_addCondition.
  - destruct (num_gt min max);
      [apply framed_throw|apply framed_addCondition].
  - destruct (num_le radiusMeters (num_of_Z 0));
      [apply framed_throw|apply framed_addCondition].
Qed.

Lemma framed_builder_op n a this op h :
  (n <= length (arrays h))%nat ->
  (exists b, builders h !! this = Some b /\ conditions b = a) ->
  frame n a this h (run_builder_op this op h).
Proof.
  revert h.
  destruct op; unfold run_builder_op;
    cbn [builder_operation run_operation].
  - apply framed_addCondition.
  - apply framed_run_predicate.
  - apply (framed_bind n a this (set_logicalOperator this must)
             (fun _ => mret this));
      [apply framed_set_logicalOperator|intros _; apply framed_ret].
  - apply (framed_bind n a this (set_logicalOperator this should)
             (fun _ => mret this));
      [apply framed_set_logicalOperator|intros _; apply framed_ret].
  - apply (framed_bind n a this (set_logicalOperator this must_not)
             (fun _ => mret this));
      [apply framed_set_logicalOperator|intros _; apply framed_ret].
  - apply (framed_bind n a this (FilterBuilder.andAll_loop this builders0)
             (fun _ => mret this));
      [apply framed_andAll_loop|intros _; apply framed_ret].
  - change (framed n a this (FilterBuilder.orAny this builders0)).
    unfold FilterBuilder.orAny.
    apply framed_alloc_array. intros collected Hfresh.
    apply framed_bind; [now apply framed_orAny_loop|intros _].
    apply framed_bind; [apply framed_reads, read_array_reads|intros l].
    apply framed_bind; [|intros _; apply framed_ret].
    destruct (0 <? length l)%nat; [apply framed_own_push|apply framed_ret].
  - apply framed_reads, build_reads.
  - apply framed_reads, validate_reads.
Qed.

Lemma framed_builder_ops n a this ops : forall h,
  (n <= length (arrays h))%nat ->
  (exists b, builders h !! this = Some b /\ conditions b = a) ->
  frame n a this h (run_builder_ops this ops h).
Proof.
  induction ops as [|op ops IH]; intros h Hn Hb; cbn [run_builder_ops fold_left].
  - repeat split; assumption.
  - destruct (framed_builder_op n a this op h Hn Hb) as (Hsame & Hn1 & Hb1).
    destruct (IH _ Hn1 Hb1) as (Hsame2 & Hn2 & Hb2).
    repeat split; try assumption.
    intros i Hi Hlt. unfold run_builder_ops in Hsame2.
    rewrite (Hsame2 i Hi Hlt). now apply Hsame.
Qed.

(** ** Values that do not change *)

Lemma snapshot_at_leaf_value fuel store stack v :
  match v with JObj _ | JArr _ => False | _ => True end ->
  snapshot_at fuel store stack v
  = Plain match v with
          | JNull => TNull
          | JBool x => TBool x
          | JNum x => TNum x
          | JStr x => TStr x
          | _ => TUndef
          end.
Proof. destruct v, fuel; simpl; intros H; try reflexivity; destruct H. Qed.

Lemma snap_props_ext (g1 g2 : jsval -> snap) (l : list (string * jsval)) :
  Forall (fun kv => forall tx, g1 (snd kv) = Plain tx ->
                               g2 (snd kv) = Plain tx) l ->
  forall t,
    snap_props (map (fun kv => (fst kv, g1 (snd kv))) l) = Plain t ->
    snap_props (map (fun kv => (fst kv, g2 (snd kv))) l) = Plain t.
Proof.
  induction 1 as [|[k x] l Hx _ IH]; intros t Hsnap; [exact Hsnap|].
  cbn [map fst snd snap_props] in *.
  destruct (g1 x) as [tx| |] eqn:Hg1; try discriminate.
  rewrite (Hx tx eq_refl).
  destruct (snap_props (map (fun kv => (fst kv, g1 (snd kv))) l))
    as [tl| |] eqn:Hrest; try discriminate.
  now rewrite (IH tl eq_refl).
Qed.

Lemma snap_list_ext (g1 g2 : jsval -> snap) (l : list jsval) :
  Forall (fun x => forall tx, g1 x = Plain tx -> g2 x = Plain tx) l ->
  forall ts,
    snap_list (map g1 l) = Some (Some ts) ->
    snap_list (map g2 l) = Some (Some ts).
Proof.
  induction 1 as [|x l Hx _ IH]; intros ts Hsnap; [exact Hsnap|].
  cbn [map snap_list] in *.
  destruct (g1 x) as [tx| |] eqn:Hg1; try discriminate.
  rewrite (Hx tx eq_refl).
  destruct (snap_list (map g1 l)) as [[tl|]|] eqn:Hrest; try discriminate.
  now rewrite (IH tl eq_refl).
Qed.

Lemma snap_array_ext (g1 g2 : jsval -> snap) (l : list jsval) t :
  Forall (fun x => forall tx, g1 x = Plain tx -> g2 x = Plain tx) l ->
  snap_array (map g1 l) = Plain t ->
  snap_array (map g2 l) = Plain t.
Proof.
  intros Hall. unfold snap_array.
  destruct (snap_list (map g1 l)) as [[ts|]|] eqn:Hsnap; try discriminate.
  now rewrite (snap_list_ext g1 g2 l Hall ts Hsnap).
Qed.

(** A value read as a tree reads the same in a store that has the arrays the
    reading went through, with more fuel and fewer arrays barred. *)
Lemma snapshot_at_stable (s s' : list (list jsval)) : forall fuel fuel' stack
    stack' v t,
  snapshot_at fuel s stack v = Plain t ->
  (fuel <= fuel')%nat ->
  (forall i : loc, i ∈ stack' -> i ∈ stack) ->
  (forall (i : loc) l, i ∉ stack -> s !! i = Some l -> s' !! i = Some l) ->
  snapshot_at fuel' s' stack' v = Plain t.
Proof.
  induction fuel as [|fuel IHfuel]; intros fuel' stack stack' v;
    induction v as [ | | x | x | x | props IHprops | a ]
      using jsval_nested_ind;
    intros t Hsnap Hle Hsub Hsame;
    try (rewrite snapshot_at_leaf_value in Hsnap |- * by exact I;
         exact Hsnap).
  - rewrite snapshot_at_object in Hsnap |- *.
    revert Hsnap. apply snap_props_ext.
    eapply Forall_impl; [exact IHprops|].
    intros kv Hkv tx Hx. now apply Hkv.
  - rewrite snapshot_at_array in Hsnap.
    destruct (bool_decide (a ∈ stack)); discriminate.
  - rewrite snapshot_at_object in Hsnap |- *.
    revert Hsnap. apply snap_props_ext.
    eapply Forall_impl; [exact IHprops|].
    intros kv Hkv tx Hx. now apply Hkv.
  - rewrite snapshot_at_array in Hsnap |- *.
    destruct (bool_decide (a ∈ stack)) eqn:Hin; [discriminate|].
    apply bool_decide_eq_false in Hin.
    rewrite bool_decide_eq_false_2 by (intros Hin'; apply Hin, Hsub, Hin').
    destruct (s !! a) as [l|] eqn:Hl; [|discriminate].
    rewrite (Hsame a l Hin Hl).
    destruct fuel' as [|fuel']; [lia|].
    revert Hsnap. apply snap_array_ext.
    apply Forall_forall. intros x _ tx Hx.
    apply (IHfuel fuel' (a :: stack) (a :: stack') x tx Hx); [lia| |].
    + intros i Hi. apply elem_of_cons in Hi as [->|Hi];
        [now left|right; now apply Hsub].
    + intros i li Hi. apply Hsame. intros Hin'. apply Hi. now right.
Qed.

Lemma frame_keeps_trees n a this h h' v t :
  n = length (arrays h) ->
  frame n a this h h' ->
  snapshot_at (length (arrays h)) (arrays h) [a] v = Plain t ->
  snapshot h v = Plain t /\ snapshot h' v = Plain t.
Proof.
  intros -> (Hsame & Hlen & _) Hsnap. unfold snapshot. split.
  - apply (snapshot_at_stable (arrays h) (arrays h) _ _ [a] [] v t Hsnap);
      [lia| |tauto].
    intros i Hi. inversion Hi.
  - apply (snapshot_at_stable (arrays h) (arrays h') _ _ [a] [] v t Hsnap);
      [exact Hlen| |].
    + intros i Hi. inversion Hi.
    + intros i l Hi Hl. rewrite Hsame; [exact Hl| |].
      * intros ->. apply Hi. now left.
      * eapply lookup_lt_Some; eassumption.
Qed.

Lemma andAll_others_ok h this b l bs :
  builders h !! this = Some b ->
  arrays h !! conditions b = Some l ->
  Forall (typed_builder h) bs ->
  Forall (owns_other_array h (conditions b)) bs ->
  FilterBuilder.andAll this bs h
  = (Ok this, with_conditions h (conditions b) (l ++ non_null_results h bs)).
Proof.
  intros Hb Hl Htyped Hother.
  assert (Hsame : with_conditions h (conditions b) l = h).
  { unfold with_conditions. rewrite list_insert_id by exact Hl.
    now destruct h. }
  unfold FilterBuilder.andAll. munfold.
  pose proof (andAll_loop_ok h this b l bs [] Hb Hl Htyped Hother) as Hloop.
  rewrite app_nil_r in Hloop. cbn [app] in Hloop.
  rewrite Hsame in Hloop. now rewrite Hloop.
Qed.

Lemma orAny_ok h this b l bs :
  builders h !! this = Some b ->
  arrays h !! conditions b = Some l ->
  Forall (typed_builder h) bs ->
  FilterBuilder.orAny this bs h
  = (Ok this,
     match non_null_results h bs with
     | [] => with_fresh_array h []
     | collected =>
         with_conditions (with_fresh_array h collected) (conditions b)
           (l ++ [JObj [("should", JArr (length (arrays h)))]])
     end).
Proof.
  intros Hb Hl Htyped.
  unfold FilterBuilder.orAny. munfold.
  unfold alloc_array at 1. fold (with_fresh_array h []).
  rewrite (orAny_loop_ok h bs [] Htyped). cbn [app].
  unfold read_array at 1. cbn [with_fresh_array arrays].
  rewrite list_lookup_middle by reflexivity.
  destruct (non_null_results h bs) as [|c cs]; [reflexivity|].
  cbn [length Nat.ltb Nat.leb].
  fold (with_fresh_array h (c :: cs)).
  rewrite (get_builder_ok _ this b) by exact Hb.
  rewrite (push_conditions_ok _ b l); [reflexivity|].
  now apply with_fresh_array_old.
Qed.

Lemma quiet_op_arrays this op h :
  appends op = false -> arrays (run_builder_op this op h) = arrays h.
Proof.
  destruct op; try discriminate; intros _; unfold run_builder_op;
    cbn [builder_operation run_operation];
    try (unfold FilterBuilder.and_, FilterBuilder.or_, FilterBuilder.not_;
         munfold; unfold set_logicalOperator;
         now destruct (builders h !! this)).
  - now rewrite build_reads.
  - now rewrite validate_reads.
Qed.

Lemma quiet_ops_arrays this ops : forall h,
  existsb appends ops = false ->
  arrays (run_builder_ops this ops h) = arrays h.
Proof.
  induction ops as [|op ops IH]; intros h Hquiet; [reflexivity|].
  cbn [existsb] in Hquiet. apply orb_false_iff in Hquiet as [Hop Hops].
  cbn [run_builder_ops fold_left].
  fold (run_builder_ops this ops (run_builder_op this op h)).
  rewrite (IH _ Hops). now apply quiet_op_arrays.
Qed.

Lemma builder_ops_grow this ops : forall h,
  grows h (run_builder_ops this ops h).
Proof.
  induction ops as [|op ops IH]; intros h; cbn [run_builder_ops fold_left].
  - apply grows_refl.
  - eapply grows_trans; [apply preserves_operation|apply IH].
Qed.

(** C2 (amended): what [build()] returned, [f], and the calls made on the
    builder afterwards.

    - [f] is [null] for no condition, the condition itself for one, and for
      two or more the object [{must: conditions}], [{should: conditions}] or
      [{must_not: conditions}] over the builder's own array, not a copy.
    - Mode switches, [validate()] and later [build()] calls, in any number
      and order, change no array: every value reads as before.
    - No call on the builder changes an array other than the builder's
      own: a value that is a tree not containing the builder's list, as
      [f] is when the builder held fewer than two conditions, reads the
      same after any calls.
    - When the builder held two or more conditions, the child list of [f]
      is the builder's list at every later moment: it keeps what it had and
      gains what is appended.  From any later state, [addCondition] and a
      terminal call that returns append their condition to it, [andAll]
      appends the results of its arguments that are not [null], and
      [orAny] appends its [should] node when some result is not [null]. *)
Theorem build_result_shares_conditions (h : heap) (this : bref)
    (b : BuilderObj) (l : list jsval) (f : jsval) :
  builders h !! this = Some b ->
  arrays h !! conditions b = Some l ->
  FilterBuilder.build this h = (Ok f, h) ->
  f = match l with
      | [] => JNull
      | [c] => c
      | _ => JObj [(match logicalOperator b with
                    | must => "must"
                    | should => "should"
                    | must_not => "must_not"
                    end, JArr (conditions b))]
      end
  /\ (forall ops v,
        existsb appends ops = false ->
        snapshot (run_builder_ops this ops h) v = snapshot h v)
  /\ (forall ops v t,
        snapshot_at (length (arrays h)) (arrays h) [conditions b] v
        = Plain t ->
        snapshot h v = Plain t
        /\ snapshot (run_builder_ops this ops h) v = Plain t)
  /\ (2 <= length l ->
      forall ops, exists added,
        let h' := run_builder_ops this ops h in
        child_list h' f = Some (l ++ added)
        /\ (existsb appends ops = false -> added = [])
        /\ (forall c,
              child_list (run_builder_op this (DoAddCondition c) h') f
              = Some (l ++ added ++ [c]))
        /\ (forall name p,
              child_list (run_builder_op this (DoWhere name p) h') f
              = Some (l ++ added
                      ++ if eager_rejects p then []
                         else [predicate_condition name
                                 (length (arrays h')) p]))
        /\ (forall bs,
              Forall (typed_builder h') bs ->
              Forall (owns_other_array h' (conditions b)) bs ->
              child_list (run_builder_op this (DoAndAll bs) h') f
              = Some (l ++ added ++ non_null_results h' bs))
        /\ (forall bs,
              Forall (typed_builder h') bs ->
              child_list (run_builder_op this (DoOrAny bs) h') f
              = Some (l ++ added
                      ++ match non_null_results h' bs with
                         | [] => []
                         | _ => [JObj [("should",
                                        JArr (length (arrays h')))]]
                         end))).
Proof.
  intros Hb Hl Hbuild.
  rewrite (build_ok h this b l Hb Hl) in Hbuild.
  assert (Hf : f = match l with
                   | [] => JNull
                   | [c] => c
                   | _ => JObj [(match logicalOperator b with
                                 | must => "must"
                                 | should => "should"
                                 | must_not => "must_not"
                                 end, JArr (conditions b))]
                   end).
  { injection Hbuild as <-.
    destruct l as [|c [|c' l']]; reflexivity. }
  split; [exact Hf|]. split; [|split].
  - intros ops v Hquiet. apply snapshot_same_arrays.
    now apply quiet_ops_arrays.
  - intros ops v t Hsnap.
    apply (frame_keeps_trees (length (arrays h)) (conditions b) this h
             (run_builder_ops this ops h) v t eq_refl); [|exact Hsnap].
    apply framed_builder_ops; [lia|]. now exists b.
  - intros Hlen ops.
    destruct l as [|c1 [|c2 l']]; cbn [length] in Hlen; try lia.
    assert (Hchild : forall h0, child_list h0 f = arrays h0 !! conditions b).
    { intros h0. rewrite Hf. reflexivity. }
    clear Hf Hbuild.
    remember (c1 :: c2 :: l') as l0 eqn:Hl0. clear Hl0.
    destruct (builder_ops_grow this ops h) as [Harrays Hbuilders].
    destruct (Harrays _ _ Hl) as (added & Hl').
    destruct (Hbuilders _ _ Hb) as (b' & Hb' & Hsame).
    exists added. cbn zeta.
    remember (run_builder_ops this ops h) as h' eqn:Hh'.
    remember (l0 ++ added) as l1 eqn:Hl1.
    rewrite <- Hsame in Hl'.
    split; [|split; [|split; [|split; [|split]]]].
    + rewrite Hchild, <- Hsame. exact Hl'.
    + intros Hquiet.
      pose proof (quiet_ops_arrays this ops h Hquiet) as Hsame_arrays.
      rewrite <- Hh' in Hsame_arrays.
      rewrite Hsame_arrays, Hsame, Hl in Hl'. injection Hl' as Heq.
      subst l1. symmetry in Heq.
      rewrite <- (app_nil_r l0) in Heq at 2.
      now apply app_inv_head in Heq.
    + intros c. rewrite Hchild. unfold run_builder_op.
      cbn [builder_operation run_operation].
      rewrite (addCondition_ok h' this b' l1 Hb' Hl'). cbn [snd].
      rewrite <- Hsame, app_assoc, <- Hl1.
      now apply (with_conditions_lookup h' _ _ l1).
    + intros name p. rewrite Hchild. unfold run_builder_op.
      cbn [builder_operation run_operation].
      destruct (eager_rejects p) eqn:Hrej.
      * destruct (run_predicate_rejects h' (Field.where_ this name) p Hrej)
          as [Hstore _].
        rewrite Hstore, app_nil_r, <- Hl1, <- Hsame. exact Hl'.
      * rewrite (run_predicate_appends h' (Field.where_ this name) b' l1 p
                   Hb' Hl' Hrej).
        cbn [snd Field.where_ field].
        rewrite <- Hsame, app_assoc, <- Hl1.
        apply (with_conditions_lookup _ _ _ l1).
        now apply predicate_base_old.
    + intros bs Htyped Hother. rewrite Hchild. unfold run_builder_op.
      cbn [builder_operation run_operation].
      rewrite <- Hsame in Hother.
      rewrite (andAll_others_ok h' this b' l1 bs Hb' Hl' Htyped Hother).
      cbn [snd]. rewrite <- Hsame, app_assoc, <- Hl1.
      now apply (with_conditions_lookup h' _ _ l1).
    + intros bs Htyped. rewrite Hchild. unfold run_builder_op.
      cbn [builder_operation run_operation].
      rewrite (orAny_ok h' this b' l1 bs Hb' Hl' Htyped). cbn [snd].
      rewrite <- Hsame.
      destruct (non_null_results h' bs) as [|r rs].
      * rewrite app_nil_r, <- Hl1. now apply with_fresh_array_old.
      * rewrite app_assoc, <- Hl1.
        apply (with_conditions_lookup _ _ _ l1).
        now apply with_fresh_array_old.
Qed.

Lemma build_result_shares_conditions_witness :
  (exists added,
     child_list (run_builder_ops 0 [DoOr; DoValidate] two_store)
       (JObj [("must", JArr 0)])
     = Some ([match_a; match_b] ++ added)
     /\ added = []
     /\ child_list
          (run_builder_op 0 (DoAddCondition match_c)
             (run_builder_ops 0 [DoOr; DoValidate] two_store))
          (JObj [("must", JArr 0)])
        = Some ([match_a; match_b] ++ added ++ [match_c]))
  /\ snapshot
       (run_builder_ops 0
          [DoAddCondition match_a; DoOrAny [0]; DoWhere "p" (NotEquals (MBoolean true))]
          keyless_store)
       keyless_match
     = snapshot keyless_store keyless_match.
Proof.
  split.
  - destruct (build_result_shares_conditions two_store 0 fresh_builder
                [match_a; match_b] (JObj [("must", JArr 0)])
                eq_refl eq_refl eq_refl) as (_ & _ & _ & Hshared).
    destruct (Hshared (le_n 2) [DoOr; DoValidate])
      as (added & Hnow & Hquiet & Hadd & _).
    exists added. split; [exact Hnow|]. split; [exact (Hquiet eq_refl)|].
    exact (Hadd match_c).
  - destruct (build_result_shares_conditions keyless_store 0 fresh_builder
                [keyless_match] keyless_match
                eq_refl eq_refl eq_refl) as (_ & _ & Hframe & _).
    destruct (Hframe
                [DoAddCondition match_a; DoOrAny [0];
                 DoWhere "p" (NotEquals (MBoolean true))]
                keyless_match
                (TObj [("match", TObj [("key", TStr EmptyString);
                                       ("value", TStr "NVDA")])])
                eq_refl) as [Hbefore Hafter].
    now rewrite Hbefore, Hafter.
Defined.
